(** * The model task queue of UnSHACLed (src/entities/modelTaskQueue.ts)

    A shallow embedding of the data-flow task scheduler: the priority
    generator, the priority-partitioned queue, the instruction merger and
    the model task queue itself, followed by the properties of the
    scheduler that are checked against it. *)

From Stdlib Require Import ZArith Lia List Permutation.
From stdpp Require Import base decidable option list gmap fin_maps.

Local Open Scope Z_scope.

#[local] Set Warnings "-clear-no-such-hyp".

(** ** Collections.Set

    [Collections.Set<T>] of typescript-collections stores its elements in a
    dictionary keyed by the string the element's [toString()] gives:
    [contains], [add] and [remove] compare keys, [forEach] visits the
    stored elements in insertion order.  A set is a list of elements with
    the key function as a parameter. *)

Section CollectionsSet.
Context {A K : Type} `{EqDecision K} (toStr : A → K).

Definition set_contains (s : list A) (x : A) : bool :=
  existsb (λ y, bool_decide (toStr y = toStr x)) s.

Definition set_add (s : list A) (x : A) : list A :=
  if set_contains s x then s else s ++ [x].

Definition set_remove (s : list A) (x : A) : list A :=
  filter (λ y, toStr y ≠ toStr x) s.

Definition set_isEmpty (s : list A) : bool :=
  match s with [] => true | _ :: _ => false end.
End CollectionsSet.

(** ** PriorityGenerator *)

Module PriorityGenerator.

Record t := mk { min : Z; max : Z; current : Z; frontier : Z }.

(** The constructor. *)
Definition new : t := mk 0 0 0 0.

Definition notifyPriorityExists (g : t) (priority : Z) : t :=
  let min' := Z.min (min g) priority in
  let oldMax := max g in
  let max' := Z.max (max g) priority in
  if bool_decide (oldMax ≠ max')
  then mk min' max' max' max'
  else mk min' max' (current g) (frontier g).

(** [nextFrontier] and [next], which returns the generated priority with
    the generator's new state.  [frontier--] and [current--] are taken
    exactly here, as they are in the code while the priorities lie from
    [-2^53] to [2^53]; [Double.nextFrontier] and [Double.next], below, have
    the decrement of doubles of any size. *)
Definition nextFrontier (g : t) : t :=
  let frontier' :=
    if bool_decide (frontier g > min g) then frontier g - 1 else max g in
  mk (min g) (max g) (max g) frontier'.

Definition next (g : t) : Z * t :=
  let result := current g in
  if bool_decide (result ≤ frontier g)
  then (result, nextFrontier g)
  else (result, mk (min g) (max g) (current g - 1) (frontier g)).

(** [n] successive calls of [next]: the priorities they return, in order,
    and the state they leave. *)
Fixpoint nexts (n : nat) (g : t) : list Z * t :=
  match n with
  | O => ([], g)
  | S n' => let '(p, g') := next g in
            let '(ps, g'') := nexts n' g' in
            (p :: ps, g'')
  end.

(** The invariant of the generator's state. *)
Definition wf (g : t) : Prop :=
  min g ≤ frontier g ∧ frontier g ≤ current g ∧ current g ≤ max g.

(** One sweep: the priorities from [c] down to [c - d]. *)
Fixpoint descend (c : Z) (d : nat) : list Z :=
  match d with
  | O => [c]
  | S d' => c :: descend (c - 1) d'
  end.

(** [n] sweeps in a row, of depths [k], [k + 1], ... *)
Fixpoint sweeps (mx : Z) (k n : nat) : list Z :=
  match n with
  | O => []
  | S n' => descend mx k ++ sweeps mx (S k) n'
  end.

Fixpoint sweepSteps (k n : nat) : nat :=
  match n with
  | O => O
  | S n' => (S k + sweepSteps (S k) n')%nat
  end.

(** The state at the start of the sweep of depth [k]. *)
Definition sweepStart (mn mx : Z) (k : nat) : t :=
  mk mn mx mx (mx - Z.of_nat k).

(** A bound on the calls of [next] before priority [p] is generated. *)
Definition distance (p : Z) (g : t) : Z :=
  let w := max g - min g + 1 in
  if bool_decide (frontier g ≤ p ≤ current g) then current g - p
  else if bool_decide (current g < p)
       then (current g - frontier g + 1) + w * w + w
       else (current g - frontier g + 1) + (frontier g - p) * w.

(** The calls a generator receives: the history of a generator is the
    list of them, oldest first. *)
Inductive Call :=
| NotifyPriorityExists (priority : Z)
| Next.

(** The priorities a history makes [next] return, and the state it
    leaves. *)
Fixpoint runCalls (calls : list Call) (g : t) : list Z * t :=
  match calls with
  | [] => ([], g)
  | NotifyPriorityExists p :: calls' =>
      runCalls calls' (notifyPriorityExists g p)
  | Next :: calls' =>
      let '(p, g') := next g in
      let '(ps, g'') := runCalls calls' g' in
      (p :: ps, g'')
  end.

Definition after (history : list Call) : t := (runCalls history new).2.

(** The priorities a history notifies. *)
Definition notifiedPriorities (history : list Call) : list Z :=
  flat_map (λ call, match call with
                    | NotifyPriorityExists p => [p]
                    | Next => []
                    end) history.

End PriorityGenerator.

(** ** PriorityPartitionedQueue *)

Module PriorityPartitionedQueue.
Section PPQ.
Context {T : Type} (getPriority : T → Z).

Record t := mk {
  subQueues : gmap Z (list T);
  nonEmptySubQueueCount : Z;
  priorityGen : PriorityGenerator.t
}.

Definition new : t := mk ∅ 0 PriorityGenerator.new.

Definition isEmpty (q : t) : bool :=
  bool_decide (nonEmptySubQueueCount q = 0).

(** [DefaultDictionary.getValue]: a key that is absent is first bound to
    the value of the factory, here an empty queue. *)
Definition getValue (sq : gmap Z (list T)) (priority : Z)
  : list T * gmap Z (list T) :=
  match sq !! priority with
  | Some subQueue => (subQueue, sq)
  | None => ([], <[priority := []]> sq)
  end.

Definition enqueue (q : t) (value : T) : t :=
  let priority := getPriority value in
  let '(subQueue, sq) := getValue (subQueues q) priority in
  let '(count, gen) :=
    if set_isEmpty subQueue
    then (nonEmptySubQueueCount q + 1,
          PriorityGenerator.notifyPriorityExists (priorityGen q) priority)
    else (nonEmptySubQueueCount q, priorityGen q) in
  mk (<[priority := subQueue ++ [value]]> sq) count gen.

(** The do-while loop of [dequeue]: the generator is advanced until it
    gives the priority of a sub-queue that is not empty.  [None] when the
    fuel runs out before that. *)
Fixpoint pick (fuel : nat) (sq : gmap Z (list T)) (gen : PriorityGenerator.t)
  : option (Z * list T * gmap Z (list T) * PriorityGenerator.t) :=
  match fuel with
  | O => None
  | S fuel' =>
      let '(priority, gen') := PriorityGenerator.next gen in
      let '(subQueue, sq') := getValue sq priority in
      if set_isEmpty subQueue
      then pick fuel' sq' gen'
      else Some (priority, subQueue, sq', gen')
  end.

(** [dequeue]: [None] is the loop out of fuel; otherwise the value
    returned ([None] for [undefined]) and the queue's new state. *)
Definition dequeue (fuel : nat) (q : t) : option (option T * t) :=
  if isEmpty q then Some (None, q)
  else
    match pick fuel (subQueues q) (priorityGen q) with
    | None => None
    | Some (priority, subQueue, sq, gen) =>
        let result := head subQueue in
        let rest := tail subQueue in
        let count :=
          if set_isEmpty rest
          then nonEmptySubQueueCount q - 1
          else nonEmptySubQueueCount q in
        Some (result, mk (<[priority := rest]> sq) count gen)
    end.

(** The sub-queue of a priority, empty when the dictionary has none. *)
Definition subQueue (q : t) (p : Z) : list T :=
  default [] (subQueues q !! p).

(** The sub-queues that hold an element. *)
Definition nonEmptyQueues (sq : gmap Z (list T)) : gmap Z (list T) :=
  filter (λ kv : Z * list T, set_isEmpty kv.2 = false) sq.

(** The invariant of the queue: the generator's window covers every
    sub-queue that holds an element, the counter counts those
    sub-queues, and an element waits in the sub-queue of its priority. *)
Definition wf (q : t) : Prop :=
  PriorityGenerator.wf (priorityGen q) ∧
  (∀ p, subQueue q p ≠ [] →
        PriorityGenerator.min (priorityGen q) ≤ p
        ≤ PriorityGenerator.max (priorityGen q)) ∧
  nonEmptySubQueueCount q = Z.of_nat (size (nonEmptyQueues (subQueues q))) ∧
  (∀ p x, x ∈ subQueue q p → getPriority x = p).

(** Fuel that is enough for the loop of [dequeue] in a state of the
    invariant. *)
Definition enoughFuel (q : t) : nat :=
  let w := PriorityGenerator.max (priorityGen q)
           - PriorityGenerator.min (priorityGen q) + 1 in
  S (Z.to_nat (w * w + 2 * w)).

(** The elements of the queue, sub-queue after sub-queue. *)
Definition elements (q : t) : list T :=
  mjoin ((map_to_list (subQueues q)).*2).

(** The states of a queue that starts empty and is used through
    [enqueue] and [dequeue]. *)
Inductive reachable : t → Prop :=
| reachable_new : reachable new
| reachable_enqueue q value :
    reachable q → reachable (enqueue q value)
| reachable_dequeue q fuel result q' :
    reachable q → dequeue fuel q = Some (result, q') → reachable q'.

(** The calls a queue receives, oldest first, the values its calls of
    [dequeue] return, in order ([undefined] leaves none), and the state
    the calls leave. *)
Inductive Call :=
| CallEnqueue (value : T)
| CallDequeue.

Fixpoint runCalls (fuel : nat) (calls : list Call) (q : t)
  : option (list T * t) :=
  match calls with
  | [] => Some ([], q)
  | CallEnqueue value :: calls' => runCalls fuel calls' (enqueue q value)
  | CallDequeue :: calls' =>
      match dequeue fuel q with
      | None => None
      | Some (result, q') =>
          match runCalls fuel calls' q' with
          | None => None
          | Some (results, q'') => Some (option_list result ++ results, q'')
          end
      end
  end.

Definition enqueuedValues (calls : list Call) : list T :=
  flat_map (λ call, match call with
                    | CallEnqueue value => [value]
                    | CallDequeue => []
                    end) calls.

End PPQ.
End PriorityPartitionedQueue.

Arguments PriorityPartitionedQueue.t : clear implicits.
Arguments PriorityPartitionedQueue.Call : clear implicits.
Arguments PriorityPartitionedQueue.CallDequeue {T}.

(** ** Numbers

    A priority is a JavaScript [number], an IEEE 754 double.  The code
    compares priorities, takes their [Math.min] and [Math.max], which are
    exact on doubles, and decrements them ([this.current--],
    [this.frontier--]), which is exact only while the difference is a
    double.  Priorities are integers, and an integral double is held as
    the [Z] of its value.  Every integer from [-2^53] to [2^53] is a
    double; beyond, neighbouring doubles are 2, 4, 8, ... apart.

    [PriorityGenerator.next] and [PriorityGenerator.nextFrontier] above
    decrement exactly: they are the code as long as the priorities stay
    from [-2^53] to [2^53].  This module has the decrement of doubles, and
    with it the generator's [next] and the loop of the queue's [dequeue]
    for integral priorities of any size. *)

Module Double.

(** The priorities on which the decrement is exact. *)
Definition bounded (p : Z) : Prop := - 2 ^ 53 ≤ p ≤ 2 ^ 53.

(** The double nearest to the integer [z], the one with the even
    significand when two are equally near.  Beyond [2^53] a double has a
    significand of 53 bits, so that doubles near [z] are
    [2 ^ (Z.log2 |z| - 52)] apart.  (An integer beyond the largest double
    would round to [Infinity]; the decrement of a double never is one.) *)
Definition roundToNearest (z : Z) : Z :=
  if bool_decide (Z.abs z ≤ 2 ^ 53) then z
  else
    let ulp := 2 ^ (Z.log2 (Z.abs z) - 52) in
    let significand := Z.abs z / ulp in
    let rest := Z.abs z mod ulp in
    let up := bool_decide (ulp < 2 * rest)
              || (bool_decide (2 * rest = ulp) && Z.odd significand) in
    Z.sgn z * ((if up then significand + 1 else significand) * ulp).

(** [x--] leaves in [x] the double nearest to [x - 1]. *)
Definition decrement (x : Z) : Z := roundToNearest (x - 1).

(** [PriorityGenerator.nextFrontier] and [PriorityGenerator.next]. *)
Definition nextFrontier (g : PriorityGenerator.t) : PriorityGenerator.t :=
  let frontier' :=
    if bool_decide (PriorityGenerator.frontier g > PriorityGenerator.min g)
    then decrement (PriorityGenerator.frontier g)
    else PriorityGenerator.max g in
  PriorityGenerator.mk (PriorityGenerator.min g) (PriorityGenerator.max g)
    (PriorityGenerator.max g) frontier'.

Definition next (g : PriorityGenerator.t) : Z * PriorityGenerator.t :=
  let result := PriorityGenerator.current g in
  if bool_decide (result ≤ PriorityGenerator.frontier g)
  then (result, nextFrontier g)
  else (result,
        PriorityGenerator.mk (PriorityGenerator.min g) (PriorityGenerator.max g)
          (decrement (PriorityGenerator.current g))
          (PriorityGenerator.frontier g)).

Fixpoint nexts (n : nat) (g : PriorityGenerator.t)
  : list Z * PriorityGenerator.t :=
  match n with
  | O => ([], g)
  | S n' => let '(p, g') := next g in
            let '(ps, g'') := nexts n' g' in
            (p :: ps, g'')
  end.

Section PPQ.
Context {T : Type}.

(** The do-while loop of [PriorityPartitionedQueue.dequeue] and
    [dequeue] itself. *)
Fixpoint pick (fuel : nat) (sq : gmap Z (list T)) (gen : PriorityGenerator.t)
  : option (Z * list T * gmap Z (list T) * PriorityGenerator.t) :=
  match fuel with
  | O => None
  | S fuel' =>
      let '(priority, gen') := next gen in
      let '(subQueue, sq') := PriorityPartitionedQueue.getValue sq priority in
      if set_isEmpty subQueue
      then pick fuel' sq' gen'
      else Some (priority, subQueue, sq', gen')
  end.

Definition dequeue (fuel : nat) (q : PriorityPartitionedQueue.t T)
  : option (option T * PriorityPartitionedQueue.t T) :=
  if PriorityPartitionedQueue.isEmpty q then Some (None, q)
  else
    match pick fuel (PriorityPartitionedQueue.subQueues q)
            (PriorityPartitionedQueue.priorityGen q) with
    | None => None
    | Some (priority, subQueue, sq, gen) =>
        let result := head subQueue in
        let rest := tail subQueue in
        let count :=
          if set_isEmpty rest
          then PriorityPartitionedQueue.nonEmptySubQueueCount q - 1
          else PriorityPartitionedQueue.nonEmptySubQueueCount q in
        Some (result, PriorityPartitionedQueue.mk (<[priority := rest]> sq) count gen)
    end.

End PPQ.
End Double.

#[global] Instance bounded_dec (p : Z) : Decision (Double.bounded p).
Proof. unfold Double.bounded. apply _. Defined.

(** ** Tasks, rewriters and instructions

    [Task], [ModelTaskMetadata] and [TaskRewriter] are declared outside
    modelTaskQueue.ts; the scheduler reads [task.index],
    [task.metadata.readSet], [task.metadata.writeSet] and
    [task.metadata.priority], and calls [isOfInterest] and [maybeRewrite]
    of a rewriter.  The payload the consumer executes is never inspected
    and is left out.  Read and write sets are [Collections.Set]s of model
    components, keyed by the component itself. *)

Abbreviation ModelComponent := nat (only parsing).

Record ModelTaskMetadata := {
  readSet : list ModelComponent;
  writeSet : list ModelComponent;
  priority : Z
}.

Record ModelTask := {
  index : nat;
  metadata : ModelTaskMetadata
}.

Record ModelTaskRewriter := {
  isOfInterest : ModelTask → bool;
  maybeRewrite : ModelTask → ModelTask → option ModelTask
}.

(** A [TaskInstruction] is a mutable object.  A reference to one is its
    address [iid] together with its read-only [task]; its two sets live in
    the store of instruction objects, under that address. *)

Record TaskInstruction := {
  iid : nat;
  task : ModelTask
}.

#[global] Instance ModelTaskMetadata_eq_dec : EqDecision ModelTaskMetadata.
Proof. solve_decision. Defined.

#[global] Instance ModelTask_eq_dec : EqDecision ModelTask.
Proof. solve_decision. Defined.

#[global] Instance TaskInstruction_eq_dec : EqDecision TaskInstruction.
Proof. solve_decision. Defined.

Record InstructionSets := {
  dependencies : list TaskInstruction;
  invertedDependencies : list TaskInstruction
}.

Module TaskInstruction.

Definition getPriority (instruction : TaskInstruction) : Z :=
  priority (metadata (task instruction)).

(** [toString] is [`Instruction ${this.task.index}`], which is injective
    in the index: the index stands for the string. *)
Definition toString (instruction : TaskInstruction) : nat :=
  index (task instruction).

(** Object identity, [===]. *)
Definition same (a b : TaskInstruction) : bool :=
  bool_decide (iid a = iid b).

Definition getSets (h : gmap nat InstructionSets) (i : TaskInstruction)
  : InstructionSets :=
  default (Build_InstructionSets [] []) (h !! iid i).

Definition deps (h : gmap nat InstructionSets) (i : TaskInstruction) :=
  dependencies (getSets h i).

Definition invDeps (h : gmap nat InstructionSets) (i : TaskInstruction) :=
  invertedDependencies (getSets h i).

Definition setDeps (h : gmap nat InstructionSets) (i : TaskInstruction)
    (d : list TaskInstruction) : gmap nat InstructionSets :=
  <[iid i := Build_InstructionSets d (invDeps h i)]> h.

Definition setInvDeps (h : gmap nat InstructionSets) (i : TaskInstruction)
    (d : list TaskInstruction) : gmap nat InstructionSets :=
  <[iid i := Build_InstructionSets (deps h i) d]> h.

Definition isEligibleForExecution (h : gmap nat InstructionSets)
    (i : TaskInstruction) : bool :=
  set_isEmpty (deps h i).

End TaskInstruction.

(** The objects of class [TaskInstruction]: the sets of every instruction
    made so far and the address of the next one. *)
Record Heap := {
  cells : gmap nat InstructionSets;
  fresh : nat
}.

(** [new TaskInstruction(task)] *)
Definition newTaskInstruction (h : Heap) (t : ModelTask) : TaskInstruction * Heap :=
  let instruction := Build_TaskInstruction (fresh h) t in
  (instruction,
   Build_Heap (<[fresh h := Build_InstructionSets [] []]> (cells h)) (S (fresh h))).

(** ** InstructionMerger *)

Module InstructionMerger.
Import TaskInstruction.

Record t := mk {
  rewriters : list ModelTaskRewriter;
  interestSets : list (list TaskInstruction)
}.

Definition new : t := mk [] [].

Definition hasEmptyIntersection {A} `{EqDecision A} (first second : list A)
  : bool :=
  fold_left
    (λ hasEmptyIntersection element,
       if set_contains id second element then false else hasEmptyIntersection)
    first true.

Definition registerRewriter (m : t) (rewriter : ModelTaskRewriter) : t :=
  mk (rewriters m ++ [rewriter]) (interestSets m ++ [[]]).

(** The loop of [introduceInstruction] over the two arrays, which
    [registerRewriter] keeps of one length. *)
Fixpoint introduceInto (rs : list ModelTaskRewriter)
    (sets : list (list TaskInstruction)) (instruction : TaskInstruction)
  : list (list TaskInstruction) :=
  match rs, sets with
  | r :: rs', s :: sets' =>
      (if isOfInterest r (task instruction)
       then set_add toString s instruction else s)
      :: introduceInto rs' sets' instruction
  | _, _ => sets
  end.

Definition introduceInstruction (m : t) (instruction : TaskInstruction) : t :=
  mk (rewriters m) (introduceInto (rewriters m) (interestSets m) instruction).

Definition completeInstruction (m : t) (instruction : TaskInstruction) : t :=
  mk (rewriters m)
     (map (λ s, set_remove toString s instruction) (interestSets m)).

Definition canMergeReadAfterWrite (h : gmap nat InstructionSets)
    (first second : TaskInstruction) : bool :=
  fold_left
    (λ canMerge dependentInstr,
       if same dependentInstr second then canMerge
       else if negb (hasEmptyIntersection
                       (readSet (metadata (task dependentInstr)))
                       (writeSet (metadata (task second))))
               || set_contains toString (deps h second) dependentInstr
            then false
            else canMerge)
    (invDeps h first) true.

(** The inner loop of [findReadAfterWriteMergeCandidates], over the
    rewriters and their interest sets. *)
Fixpoint candidatesOf (h : gmap nat InstructionSets)
    (rs : list ModelTaskRewriter) (sets : list (list TaskInstruction))
    (instruction otherInstruction : TaskInstruction)
  : list (TaskInstruction * ModelTaskRewriter) :=
  match rs, sets with
  | r :: rs', interestSet :: sets' =>
      (if set_contains toString interestSet otherInstruction
          && set_contains toString interestSet instruction
          && canMergeReadAfterWrite h instruction otherInstruction
       then [(otherInstruction, r)] else [])
      ++ candidatesOf h rs' sets' instruction otherInstruction
  | _, _ => []
  end.

Definition findReadAfterWriteMergeCandidates (m : t)
    (h : gmap nat InstructionSets) (instruction : TaskInstruction)
  : list (TaskInstruction * ModelTaskRewriter) :=
  flat_map (candidatesOf h (rewriters m) (interestSets m) instruction)
           (invDeps h instruction).

(** The local function [transferDependencies] of
    [createMergedInstruction]. *)
Definition transferDependencies (mergedInstr originalInstr : TaskInstruction)
    (h : gmap nat InstructionSets) : gmap nat InstructionSets :=
  fold_left
    (λ h element,
       let h1 := setDeps h element
                   (set_remove toString (deps h element) originalInstr) in
       let h2 := setDeps h1 element
                   (set_add toString (deps h1 element) mergedInstr) in
       setInvDeps h2 mergedInstr
         (set_add toString (invDeps h2 mergedInstr) element))
    (invDeps h originalInstr) h.

Definition createMergedInstruction (m : t) (hp : Heap)
    (first second : TaskInstruction) (mergedTask : ModelTask)
  : TaskInstruction * t * Heap :=
  let '(mergedInstr, hp1) := newTaskInstruction hp mergedTask in
  let h2 := transferDependencies mergedInstr first (cells hp1) in
  let h3 := transferDependencies mergedInstr second h2 in
  let m1 := completeInstruction m first in
  let m2 := completeInstruction m1 second in
  let m3 := introduceInstruction m2 mergedInstr in
  (mergedInstr, m3, Build_Heap h3 (fresh hp1)).

(** [merge] returns [(merged, nullified)] or [None], with the merger
    and the heap as it leaves them. *)
Definition merge (m : t) (hp : Heap) (instruction : TaskInstruction)
  : option (TaskInstruction * TaskInstruction) * t * Heap :=
  let rawCandidates :=
    findReadAfterWriteMergeCandidates m (cells hp) instruction in
  let fix loop (cs : list (TaskInstruction * ModelTaskRewriter)) :=
    match cs with
    | [] => (None, m, hp)
    | (candidate, rewriter) :: cs' =>
        match maybeRewrite rewriter (task instruction) (task candidate) with
        | Some mergedTask =>
            let '(merged, m', hp') :=
              createMergedInstruction m hp instruction candidate mergedTask in
            (Some (merged, candidate), m', hp')
        | None => loop cs'
        end
    end in
  loop rawCandidates.

End InstructionMerger.

(** ** ModelTaskQueue *)

Module ModelTaskQueue.
Import TaskInstruction.

Record t := mk {
  eligibleInstructions : PriorityPartitionedQueue.t TaskInstruction;
  latestComponentStateMap : gmap nat TaskInstruction;
  merger : InstructionMerger.t;
  heap : Heap
}.

Definition new : t :=
  mk PriorityPartitionedQueue.new ∅ InstructionMerger.new (Build_Heap ∅ 0).

Definition isEmpty (q : t) : bool :=
  PriorityPartitionedQueue.isEmpty (eligibleInstructions q).

(** The first loop of [enqueue]: the read set is turned into
    dependencies on the latest writers. *)
Definition addDependencies (latest : gmap nat TaskInstruction)
    (instruction : TaskInstruction) (rs : list ModelComponent)
    (h : gmap nat InstructionSets) : gmap nat InstructionSets :=
  fold_left
    (λ h component,
       match latest !! component with
       | Some dependency =>
           let h1 := setDeps h instruction
                       (set_add toString (deps h instruction) dependency) in
           setInvDeps h1 dependency
             (set_add toString (invDeps h1 dependency) instruction)
       | None => h
       end)
    rs h.

(** The second loop of [enqueue]. *)
Definition recordWrites (instruction : TaskInstruction)
    (ws : list ModelComponent) (latest : gmap nat TaskInstruction)
  : gmap nat TaskInstruction :=
  fold_left (λ latest component, <[component := instruction]> latest)
            ws latest.

Definition enqueue (q : t) (task : ModelTask) : t :=
  let '(instruction, hp) := newTaskInstruction (heap q) task in
  let h := addDependencies (latestComponentStateMap q) instruction
             (readSet (metadata task)) (cells hp) in
  let latest := recordWrites instruction (writeSet (metadata task))
                  (latestComponentStateMap q) in
  let eligible :=
    if isEligibleForExecution h instruction
    then PriorityPartitionedQueue.enqueue getPriority
           (eligibleInstructions q) instruction
    else eligibleInstructions q in
  mk eligible latest
     (InstructionMerger.introduceInstruction (merger q) instruction)
     (Build_Heap h (fresh hp)).

(** The first loop of [complete]: the instruction is removed from the
    dependency set of its dependents, and those left without dependency
    become eligible. *)
Definition releaseDependents (instruction : TaskInstruction)
    (ds : list TaskInstruction)
    (st : gmap nat InstructionSets * PriorityPartitionedQueue.t TaskInstruction)
  : gmap nat InstructionSets * PriorityPartitionedQueue.t TaskInstruction :=
  fold_left
    (λ '(h, eligible) dependentInstruction,
       let h1 := setDeps h dependentInstruction
                   (set_remove toString (deps h dependentInstruction)
                               instruction) in
       if isEligibleForExecution h1 dependentInstruction
       then (h1, PriorityPartitionedQueue.enqueue getPriority eligible
                   dependentInstruction)
       else (h1, eligible))
    ds st.

(** The last loop of [complete]. *)
Definition forgetWrites (instruction : TaskInstruction)
    (ws : list ModelComponent) (latest : gmap nat TaskInstruction)
  : gmap nat TaskInstruction :=
  fold_left
    (λ latest component,
       match latest !! component with
       | Some writer =>
           if same writer instruction then delete component latest
           else latest
       | None => latest
       end)
    ws latest.

Definition complete (q : t) (instruction : TaskInstruction) : t :=
  let m := InstructionMerger.completeInstruction (merger q) instruction in
  let '(h1, eligible) :=
    releaseDependents instruction
      (invDeps (cells (heap q)) instruction)
      (cells (heap q), eligibleInstructions q) in
  let h2 := setInvDeps h1 instruction [] in
  let latest :=
    forgetWrites instruction (writeSet (metadata (task instruction)))
      (latestComponentStateMap q) in
  mk eligible latest m (Build_Heap h2 (fresh (heap q))).

(** [dequeue] up to the instruction it picks and completes: [None] when
    the loop of the priority-partitioned queue is out of fuel. *)
Definition dequeueInstruction (fuel : nat) (q : t)
  : option (option TaskInstruction * t) :=
  match PriorityPartitionedQueue.dequeue fuel (eligibleInstructions q) with
  | None => None
  | Some (None, eligible) =>
      Some (None, mk eligible (latestComponentStateMap q) (merger q) (heap q))
  | Some (Some instr, eligible) =>
      Some (Some instr,
            complete (mk eligible (latestComponentStateMap q) (merger q)
                         (heap q)) instr)
  end.

Definition dequeue (fuel : nat) (q : t) : option (option ModelTask * t) :=
  match dequeueInstruction fuel q with
  | None => None
  | Some (instr, q') => Some (task <$> instr, q')
  end.

Definition registerRewriter (q : t) (rewriter : ModelTaskRewriter) : t :=
  mk (eligibleInstructions q) (latestComponentStateMap q)
     (InstructionMerger.registerRewriter (merger q) rewriter) (heap q).

(** The instructions of [ds] that the completion of [i] leaves without
    dependency, of priority [p]. *)
Definition released (h : gmap nat InstructionSets) (i : TaskInstruction) (p : Z) (ds : list TaskInstruction)
  : list TaskInstruction :=
  filter (λ j, set_remove toString (deps h j) i = [] ∧ getPriority j = p) ds.

End ModelTaskQueue.

(** ** Traces of scheduler operations

    The operations a producer and a consumer apply to a queue.  A world is
    the queue together with two logs kept for the statements below: the
    instructions [enqueue] has made, oldest first, and the instructions
    [dequeue] has returned, oldest first. *)

Inductive Op :=
| Enqueue (task : ModelTask)
| Dequeue
| RegisterRewriter (rewriter : ModelTaskRewriter).

Record World := {
  queue : ModelTaskQueue.t;
  created : list TaskInstruction;
  returned : list TaskInstruction
}.

Definition initialWorld : World :=
  Build_World ModelTaskQueue.new [] [].

Definition step (fuel : nat) (w : World) (op : Op) : option World :=
  match op with
  | Enqueue task =>
      Some (Build_World
              (ModelTaskQueue.enqueue (queue w) task)
              (created w ++ [Build_TaskInstruction
                               (fresh (ModelTaskQueue.heap (queue w))) task])
              (returned w))
  | Dequeue =>
      match ModelTaskQueue.dequeueInstruction fuel (queue w) with
      | None => None
      | Some (None, q) => Some (Build_World q (created w) (returned w))
      | Some (Some instr, q) =>
          Some (Build_World q (created w) (returned w ++ [instr]))
      end
  | RegisterRewriter rewriter =>
      Some (Build_World
              (ModelTaskQueue.registerRewriter (queue w) rewriter)
              (created w) (returned w))
  end.

Fixpoint run (fuel : nat) (w : World) (ops : list Op) : option World :=
  match ops with
  | [] => Some w
  | op :: ops' =>
      match step fuel w op with
      | None => None
      | Some w' => run fuel w' ops'
      end
  end.

(** The tasks a trace enqueues, and the instructions that are live in a
    world: made and not yet dequeued. *)
Definition enqueuedTasks (ops : list Op) : list ModelTask :=
  flat_map (λ op, match op with Enqueue t => [t] | _ => [] end) ops.

Definition live (w : World) : list TaskInstruction :=
  filter (λ i, i ∉ returned w) (created w).

(** The tasks of a trace are told apart by their index. *)
Definition distinctTasks (ops : list Op) : Prop :=
  NoDup (index <$> enqueuedTasks ops).

(** The index of a task identifies it: tasks of the trace with one index
    are one task, which the trace may enqueue more than once.  The key of
    an instruction in the dependency sets, its [toString], is made of this
    index. *)
Definition indexedTasks (ops : list Op) : Prop :=
  ∀ t t', t ∈ enqueuedTasks ops → t' ∈ enqueuedTasks ops →
          index t = index t' → t = t'.

#[global] Instance indexedTasks_dec (ops : list Op) : Decision (indexedTasks ops).
Proof.
  unfold indexedTasks.
  destruct (decide (Forall (λ t, Forall (λ t', index t = index t' → t = t')
                                   (enqueuedTasks ops)) (enqueuedTasks ops)))
    as [H|H].
  - left. intros t t' Ht Ht'. rewrite Forall_forall in H.
    specialize (H t Ht). rewrite Forall_forall in H. by apply H.
  - right. intros Hall. apply H. apply Forall_forall. intros t Ht.
    apply Forall_forall. intros t' Ht'. by apply Hall.
Defined.

(** The priorities of the tasks of a trace lie from [-2^53] to [2^53],
    where the decrement of the generator is exact. *)
Definition boundedPriorities (ops : list Op) : Prop :=
  Forall (λ t, Double.bounded (priority (metadata t))) (enqueuedTasks ops).

#[global] Instance boundedPriorities_dec (ops : list Op) :
  Decision (boundedPriorities ops).
Proof. unfold boundedPriorities. apply _. Defined.

(** The traces when the loop of [dequeue] runs on doubles:
    [ModelTaskQueue.dequeue] up to the instruction it picks, with
    [Double.dequeue] for the priority-partitioned queue, and the steps and
    runs of a world with it. *)
Module DoubleTrace.

Definition dequeueInstruction (fuel : nat) (q : ModelTaskQueue.t)
  : option (option TaskInstruction * ModelTaskQueue.t) :=
  match Double.dequeue fuel (ModelTaskQueue.eligibleInstructions q) with
  | None => None
  | Some (None, eligible) =>
      Some (None,
            ModelTaskQueue.mk eligible (ModelTaskQueue.latestComponentStateMap q)
              (ModelTaskQueue.merger q) (ModelTaskQueue.heap q))
  | Some (Some instr, eligible) =>
      Some (Some instr,
            ModelTaskQueue.complete
              (ModelTaskQueue.mk eligible
                 (ModelTaskQueue.latestComponentStateMap q)
                 (ModelTaskQueue.merger q) (ModelTaskQueue.heap q)) instr)
  end.

Definition step (fuel : nat) (w : World) (op : Op) : option World :=
  match op with
  | Enqueue task =>
      Some (Build_World
              (ModelTaskQueue.enqueue (queue w) task)
              (created w ++ [Build_TaskInstruction
                               (fresh (ModelTaskQueue.heap (queue w))) task])
              (returned w))
  | Dequeue =>
      match dequeueInstruction fuel (queue w) with
      | None => None
      | Some (None, q) => Some (Build_World q (created w) (returned w))
      | Some (Some instr, q) =>
          Some (Build_World q (created w) (returned w ++ [instr]))
      end
  | RegisterRewriter rewriter =>
      Some (Build_World
              (ModelTaskQueue.registerRewriter (queue w) rewriter)
              (created w) (returned w))
  end.

Fixpoint run (fuel : nat) (w : World) (ops : list Op) : option World :=
  match ops with
  | [] => Some w
  | op :: ops' =>
      match step fuel w op with
      | None => None
      | Some w' => run fuel w' ops'
      end
  end.

End DoubleTrace.

(** The invariant of the worlds a trace reaches when the index of a task
    identifies it; a task may be enqueued more than once. *)
Record Coherent (w : World) : Prop := {
  coh_fresh :
    fresh (ModelTaskQueue.heap (queue w)) = length (created w);
  coh_iid :
    ∀ k x, created w !! k = Some x → iid x = k;
  coh_index :
    ∀ x y, x ∈ created w → y ∈ created w →
      TaskInstruction.toString x = TaskInstruction.toString y →
      task x = task y;
  coh_returned :
    ∀ x, x ∈ returned w → x ∈ created w;
  coh_returned_nodup :
    NoDup (returned w);
  coh_deps :
    ∀ x y, x ∈ created w →
      y ∈ TaskInstruction.deps (cells (ModelTaskQueue.heap (queue w))) x →
      y ∈ created w ∧ (x ∉ returned w);
  coh_deps_keys :
    ∀ x y y', x ∈ created w →
      y ∈ TaskInstruction.deps (cells (ModelTaskQueue.heap (queue w))) x →
      y' ∈ TaskInstruction.deps (cells (ModelTaskQueue.heap (queue w))) x →
      TaskInstruction.toString y = TaskInstruction.toString y' → y = y';
  coh_deps_older :
    ∀ x y, x ∈ created w →
      y ∈ TaskInstruction.deps (cells (ModelTaskQueue.heap (queue w))) x →
      (iid y < iid x)%nat;
  coh_invDeps :
    ∀ x y, y ∈ created w →
      x ∈ TaskInstruction.invDeps (cells (ModelTaskQueue.heap (queue w))) y →
      x ∈ created w ∧ (y ∉ returned w) ∧
      y ∈ TaskInstruction.deps (cells (ModelTaskQueue.heap (queue w))) x;
  coh_invDeps_nodup :
    ∀ y, y ∈ created w →
      NoDup (TaskInstruction.invDeps (cells (ModelTaskQueue.heap (queue w))) y);
  coh_ppq_wf :
    PriorityPartitionedQueue.wf TaskInstruction.getPriority
      (ModelTaskQueue.eligibleInstructions (queue w));
  coh_ppq_nodup :
    ∀ p, NoDup (PriorityPartitionedQueue.subQueue
                  (ModelTaskQueue.eligibleInstructions (queue w)) p);
  coh_ppq :
    ∀ p x,
      x ∈ PriorityPartitionedQueue.subQueue
            (ModelTaskQueue.eligibleInstructions (queue w)) p
      ↔ x ∈ created w ∧ (x ∉ returned w) ∧
        TaskInstruction.deps (cells (ModelTaskQueue.heap (queue w))) x = [] ∧
        TaskInstruction.getPriority x = p;
  coh_latest :
    ∀ c x, ModelTaskQueue.latestComponentStateMap (queue w) !! c = Some x →
      x ∈ created w ∧ (x ∉ returned w) ∧ c ∈ writeSet (metadata (task x));
  coh_latest_index :
    ∀ c c' x x',
      ModelTaskQueue.latestComponentStateMap (queue w) !! c = Some x →
      ModelTaskQueue.latestComponentStateMap (queue w) !! c' = Some x' →
      TaskInstruction.toString x = TaskInstruction.toString x' → x = x';
  coh_merger :
    ∀ s x,
      s ∈ InstructionMerger.interestSets (ModelTaskQueue.merger (queue w)) →
      x ∈ s → x ∈ created w ∧ (x ∉ returned w);
  coh_mirror :
    ∀ x y, x ∈ created w →
      y ∈ TaskInstruction.deps (cells (ModelTaskQueue.heap (queue w))) x →
      y ∉ returned w →
      set_contains TaskInstruction.toString
        (TaskInstruction.invDeps (cells (ModelTaskQueue.heap (queue w))) y) x
      = true
}.

(** Either [B] still waits for [A], or [A] has been returned and [B] was
    not returned before it. *)
Definition ordered (A B : TaskInstruction) (w : World) : Prop :=
  (A ∈ TaskInstruction.deps (cells (ModelTaskQueue.heap (queue w))) B
   ∧ B ∉ returned w)
  ∨ (A ∈ returned w ∧ ∀ l1 l2, returned w = l1 ++ B :: l2 → A ∈ l1).

(** A task from its index, read set, write set and priority. *)
Definition mkTask (i : nat) (rs ws : list ModelComponent) (p : Z) : ModelTask :=
  Build_ModelTask i (Build_ModelTaskMetadata rs ws p).

(** The rewriter of the merge scenario: interested in every task, it
    rewrites every pair of tasks to [t12]. *)
Definition fusingRewriter (t12 : ModelTask) : ModelTaskRewriter :=
  Build_ModelTaskRewriter (λ _, true) (λ _ _, Some t12).

(** The instruction made last among those that write component [c]. *)
Definition lastWriter (c : ModelComponent) (l : list TaskInstruction)
  : option TaskInstruction :=
  last (filter (λ x, c ∈ writeSet (metadata (task x))) l).

(** A trace without its calls of [registerRewriter], and the rewriters a
    trace registers, in order. *)
Definition withoutRewriters (ops : list Op) : list Op :=
  flat_map (λ op, match op with RegisterRewriter _ => [] | _ => [op] end) ops.

Definition registeredRewriters (ops : list Op) : list ModelTaskRewriter :=
  flat_map (λ op, match op with RegisterRewriter r => [r] | _ => [] end) ops.

(** * Properties *)

(** ** Collections.Set *)

Section CollectionsSetFacts.
Context {A K : Type} `{EqDecision K} (toStr : A → K).

Lemma set_contains_true s x :
  set_contains toStr s x = true ↔ ∃ y, y ∈ s ∧ toStr y = toStr x.
Proof.
  unfold set_contains. rewrite existsb_exists. split.
  - intros (y & Hy & Hk). exists y. split; [by apply list_elem_of_In|].
    by apply bool_decide_eq_true in Hk.
  - intros (y & Hy & Hk). exists y. split; [by apply list_elem_of_In|].
    by apply bool_decide_eq_true.
Qed.

Lemma set_contains_false s x :
  set_contains toStr s x = false ↔ ∀ y, y ∈ s → toStr y ≠ toStr x.
Proof.
  split.
  - intros Hc y Hy Hk.
    assert (set_contains toStr s x = true) as Ht by (apply set_contains_true; eauto).
    congruence.
  - intros Hall. destruct (set_contains toStr s x) eqn:Hc; [|done].
    apply set_contains_true in Hc as (y & Hy & Hk). by destruct (Hall y Hy).
Qed.

Lemma elem_of_set_add s x y :
  y ∈ set_add toStr s x ↔ y ∈ s ∨ (y = x ∧ set_contains toStr s x = false).
Proof.
  unfold set_add. destruct (set_contains toStr s x) eqn:Hc.
  - naive_solver.
  - rewrite elem_of_app, list_elem_of_singleton. naive_solver.
Qed.

Lemma elem_of_set_remove s x y :
  y ∈ set_remove toStr s x ↔ y ∈ s ∧ toStr y ≠ toStr x.
Proof. unfold set_remove. rewrite list_elem_of_filter. naive_solver. Qed.

Lemma set_isEmpty_true (s : list A) : set_isEmpty s = true ↔ s = [].
Proof. by destruct s. Qed.
Lemma set_contains_add_same s x : set_contains toStr (set_add toStr s x) x = true.
Proof.
  unfold set_add. destruct (set_contains toStr s x) eqn:Hc; [done|].
  apply set_contains_true. exists x. split; [|done].
  rewrite elem_of_app, list_elem_of_singleton. auto.
Qed.

Lemma set_contains_add_mono s x y :
  set_contains toStr s y = true → set_contains toStr (set_add toStr s x) y = true.
Proof.
  rewrite !set_contains_true. intros (z & Hz & Hk). exists z. split; [|done].
  apply elem_of_set_add. auto.
Qed.

End CollectionsSetFacts.

(** ** The priority generator *)

Module PriorityGeneratorFacts.
Import PriorityGenerator.

Lemma generator_new_wf : wf new.
Proof. unfold wf, new; simpl; lia. Qed.

Lemma notifyPriorityExists_wf g p : wf g → wf (notifyPriorityExists g p).
Proof.
  unfold wf, notifyPriorityExists. intros (H1 & H2 & H3).
  case_bool_decide; simpl; lia.
Qed.

Lemma notifyPriorityExists_window g p :
  let g' := notifyPriorityExists g p in
  min g' ≤ p ≤ max g' ∧ min g' ≤ min g ∧ max g ≤ max g'.
Proof. unfold notifyPriorityExists. case_bool_decide; simpl; lia. Qed.

Lemma next_wf g : wf g → wf (next g).2.
Proof.
  unfold wf, next, nextFrontier. intros (H1 & H2 & H3).
  repeat case_bool_decide; simpl; lia.
Qed.

Lemma next_window g : min (next g).2 = min g ∧ max (next g).2 = max g.
Proof. unfold next, nextFrontier. repeat case_bool_decide; simpl; done. Qed.

Lemma next_result g : (next g).1 = current g.
Proof. unfold next. case_bool_decide; done. Qed.

Lemma nexts_app a b g :
  nexts (a + b) g =
    ((nexts a g).1 ++ (nexts b (nexts a g).2).1, (nexts b (nexts a g).2).2).
Proof.
  revert g. induction a as [|a IH]; intros g; simpl.
  - by destruct (nexts b g).
  - destruct (next g) as [p g1]. rewrite IH.
    destruct (nexts a g1) as [l1 g2]; simpl.
    by destruct (nexts b g2).
Qed.

Lemma nexts_length n g : length (nexts n g).1 = n.
Proof.
  revert g. induction n as [|n IH]; intros g; simpl; [done|].
  destruct (next g) as [p g1]. specialize (IH g1).
  destruct (nexts n g1); simpl in *. by rewrite IH.
Qed.

Lemma nexts_wf n g : wf g → wf (nexts n g).2.
Proof.
  revert g. induction n as [|n IH]; intros g Hg; simpl; [done|].
  pose proof (next_wf g Hg) as Hn. destruct (next g) as [p g1].
  specialize (IH g1 Hn). by destruct (nexts n g1).
Qed.

Lemma sweepSteps_closed k n :
  (2 * sweepSteps k n = n * (2 * k + n + 1))%nat.
Proof. revert k. induction n as [|n IH]; intros k; simpl; [lia|]. specialize (IH (S k)). nia. Qed.

Lemma nexts_S n g :
  nexts (S n) g =
    ((next g).1 :: (nexts n (next g).2).1, (nexts n (next g).2).2).
Proof.
  change (nexts (S n) g) with
    (let '(p, g') := next g in
     let '(ps, g'') := nexts n g' in (p :: ps, g'')).
  destruct (next g) as [p g1]. cbn [fst snd].
  by destruct (nexts n g1).
Qed.

Lemma nexts_window n g :
  min (nexts n g).2 = min g ∧ max (nexts n g).2 = max g.
Proof.
  revert g. induction n as [|n IH]; intros g; [done|].
  rewrite nexts_S. cbn [snd]. destruct (IH (next g).2) as [-> ->].
  apply next_window.
Qed.

Lemma nexts_descend g d :
  frontier g + Z.of_nat d = current g →
  nexts (S d) g = (descend (current g) d, nextFrontier g).
Proof.
  revert g. induction d as [|d IH]; intros g Hd.
  - simpl. unfold next. rewrite bool_decide_eq_true_2 by lia. done.
  - rewrite nexts_S. unfold next. rewrite bool_decide_eq_false_2 by lia.
    cbn [fst snd]. rewrite IH by (simpl; lia). done.
Qed.

Lemma count_occ_descend i c d :
  count_occ Z.eq_dec (descend c d) i =
    if bool_decide (c - Z.of_nat d ≤ i ≤ c) then 1%nat else 0%nat.
Proof.
  revert c. induction d as [|d IH]; intros c; simpl.
  - destruct (Z.eq_dec c i); case_bool_decide; lia.
  - rewrite IH. destruct (Z.eq_dec c i); repeat case_bool_decide; lia.
Qed.

Lemma count_occ_sweeps i mx k n :
  i ≤ mx →
  count_occ Z.eq_dec (sweeps mx k n) i =
    (k + n - Nat.max (Z.to_nat (mx - i)) k)%nat.
Proof.
  intros Hi. revert k. induction n as [|n IH]; intros k; simpl; [lia|].
  rewrite count_occ_app, count_occ_descend, IH.
  case_bool_decide; lia.
Qed.

Lemma In_descend i c d : In i (descend c d) → c - Z.of_nat d ≤ i ≤ c.
Proof.
  revert c. induction d as [|d IH]; intros c; simpl.
  - intros [<-|[]]. lia.
  - intros [<-|Hin]; [lia|]. apply IH in Hin. lia.
Qed.

Lemma In_sweeps i mx k n :
  In i (sweeps mx k n) → mx - Z.of_nat (k + n) < i ≤ mx.
Proof.
  revert k. induction n as [|n IH]; intros k; simpl; [done|].
  rewrite in_app_iff. intros [Hin|Hin].
  - apply In_descend in Hin. lia.
  - apply IH in Hin. lia.
Qed.

(** [n] full sweeps from the start of the sweep of depth [k], none of
    them the last of the cycle. *)
Lemma nexts_sweeps mn mx k n :
  mn ≤ mx - Z.of_nat (k + n) →
  nexts (sweepSteps k n) (sweepStart mn mx k) =
    (sweeps mx k n, sweepStart mn mx (k + n)).
Proof.
  revert k. induction n as [|n IH]; intros k Hk.
  - simpl. by replace (k + 0)%nat with k by lia.
  - cbn [sweepSteps sweeps]. rewrite nexts_app.
    rewrite (nexts_descend (sweepStart mn mx k) k) by (simpl; lia).
    cbn [fst snd].
    replace (nextFrontier (sweepStart mn mx k)) with (sweepStart mn mx (S k)).
    2:{ unfold nextFrontier, sweepStart; simpl.
        rewrite bool_decide_eq_true_2 by lia. f_equal; lia. }
    rewrite IH by lia. cbn [fst snd current sweepStart].
    by replace (S k + n)%nat with (k + S n)%nat by lia.
Qed.

Lemma sweeps_snoc mx k n :
  sweeps mx k (S n) = sweeps mx k n ++ descend mx (k + n).
Proof.
  revert k. induction n as [|n IH]; intros k.
  - cbn [sweeps]. rewrite app_nil_r. by replace (k + 0)%nat with k by lia.
  - change (sweeps mx k (S (S n))) with (descend mx k ++ sweeps mx (S k) (S n)).
    rewrite IH. cbn [sweeps]. rewrite <- app_assoc.
    by replace (S k + n)%nat with (k + S n)%nat by lia.
Qed.

(** The whole cycle, from the state a new maximum leaves. *)
Lemma nexts_cycle_start mn mx (w : nat) :
  mx - Z.of_nat w = mn →
  nexts (sweepSteps 0 (S w)) (sweepStart mn mx 0) =
    (sweeps mx 0 (S w), sweepStart mn mx 0).
Proof.
  intros Hw.
  assert (sweepSteps 0 (S w) = sweepSteps 0 w + S w)%nat as ->.
  { pose proof (sweepSteps_closed 0 (S w)). pose proof (sweepSteps_closed 0 w). nia. }
  rewrite nexts_app, nexts_sweeps by lia. cbn [fst snd].
  rewrite (nexts_descend (sweepStart mn mx (0 + w)) w) by (simpl; lia).
  cbn [fst snd]. f_equal.
  - by rewrite sweeps_snoc.
  - unfold nextFrontier, sweepStart; simpl.
    rewrite bool_decide_eq_false_2 by lia. f_equal; lia.
Qed.

Lemma nexts_partial mn mx c f (j : nat) :
  f ≤ c - Z.of_nat j →
  (nexts j (mk mn mx c f)).2 = mk mn mx (c - Z.of_nat j) f.
Proof.
  revert c. induction j as [|j IH]; intros c Hc.
  - simpl. f_equal; lia.
  - rewrite nexts_S. unfold next.
    rewrite bool_decide_eq_false_2 by (simpl; lia).
    cbn [fst snd current min max frontier].
    rewrite IH by lia. f_equal; lia.
Qed.

(** Every state of the invariant is met in the cycle. *)
Lemma nexts_reach g :
  wf g → ∃ k, (nexts k (sweepStart (min g) (max g) 0)).2 = g.
Proof.
  intros (H1 & H2 & H3). destruct g as [mn mx c f]; simpl in *.
  exists (sweepSteps 0 (Z.to_nat (mx - f)) + Z.to_nat (mx - c))%nat.
  rewrite nexts_app. cbn [snd].
  rewrite nexts_sweeps by lia. cbn [snd].
  unfold sweepStart. rewrite nexts_partial by lia.
  f_equal; lia.
Qed.

Lemma nexts_cycle g :
  wf g →
  let n := sweepSteps 0 (S (Z.to_nat (max g - min g))) in
  (nexts n g).2 = g ∧
  ∀ i, count_occ Z.eq_dec (nexts n g).1 i =
       count_occ Z.eq_dec (sweeps (max g) 0 (S (Z.to_nat (max g - min g)))) i.
Proof.
  intros Hg n. destruct (nexts_reach g Hg) as [k Hk].
  pose proof Hg as (H1 & H2 & H3).
  set (g0 := sweepStart (min g) (max g) 0) in *.
  assert (nexts n g0 = (sweeps (max g) 0 (S (Z.to_nat (max g - min g))), g0))
    as Hc by (apply nexts_cycle_start; lia).
  clearbody n.
  set (cyc := sweeps (max g) 0 (S (Z.to_nat (max g - min g)))) in *.
  clearbody cyc.
  pose proof (nexts_app k n g0) as Ha. rewrite Hk in Ha.
  pose proof (nexts_app n k g0) as Hb. rewrite Hc in Hb. cbn [fst snd] in Hb.
  rewrite Hk in Hb. replace (n + k)%nat with (k + n)%nat in Hb by lia.
  rewrite Ha in Hb.
  pose proof (f_equal fst Hb) as Hl. pose proof (f_equal snd Hb) as Hs.
  cbn [fst snd] in Hl, Hs. split; [done|].
  intros i. apply (f_equal (λ l, count_occ Z.eq_dec l i)) in Hl.
  rewrite !count_occ_app in Hl. lia.
Qed.

Lemma distance_bounds p g :
  wf g → min g ≤ p ≤ max g →
  0 ≤ distance p g ≤ (max g - min g + 1) * (max g - min g + 1)
                      + 2 * (max g - min g + 1).
Proof.
  intros (H1 & H2 & H3) Hp. unfold distance.
  repeat case_bool_decide; nia.
Qed.

Lemma distance_next p g :
  wf g → min g ≤ p ≤ max g → current g ≠ p →
  distance p (next g).2 < distance p g.
Proof.
  intros (H1 & H2 & H3) Hp Hne. unfold distance, next, nextFrontier.
  destruct g as [mn mx c f]; simpl in *.
  repeat (case_bool_decide; simpl in *); try lia; nia.
Qed.

End PriorityGeneratorFacts.

(** ** The priority-partitioned queue *)

Module PriorityPartitionedQueueFacts.
Import PriorityPartitionedQueue.

Section QueueFacts.
Context {T : Type}.

Implicit Types (q : t T) (sq : gmap Z (list T)).

Lemma lookup_nonEmptyQueues sq p l :
  nonEmptyQueues sq !! p = Some l ↔ sq !! p = Some l ∧ l ≠ [].
Proof.
  unfold nonEmptyQueues. rewrite map_lookup_filter_Some. simpl.
  destruct l; naive_solver.
Qed.

Lemma nonEmptyQueues_insert_nil sq p :
  default [] (sq !! p) = [] →
  nonEmptyQueues (<[p := []]> sq) = nonEmptyQueues sq.
Proof.
  intros Hp. apply map_eq. intros p'. apply option_eq. intros l.
  rewrite !lookup_nonEmptyQueues.
  destruct (decide (p = p')) as [<-|Hne].
  - rewrite lookup_insert_eq. destruct (sq !! p) as [l'|]; simpl in Hp |- *; naive_solver.
  - by rewrite lookup_insert_ne.
Qed.

Lemma size_nonEmptyQueues_insert sq p l :
  l ≠ [] →
  size (nonEmptyQueues (<[p := l]> sq)) =
    if set_isEmpty (default [] (sq !! p))
    then S (size (nonEmptyQueues sq))
    else size (nonEmptyQueues sq).
Proof.
  intros Hl. unfold nonEmptyQueues at 1.
  rewrite map_filter_insert_True by (by destruct l).
  fold (nonEmptyQueues sq). rewrite map_size_insert.
  destruct (nonEmptyQueues sq !! p) as [l'|] eqn:E.
  - apply lookup_nonEmptyQueues in E as [-> E]. simpl. by destruct l'.
  - destruct (sq !! p) as [l'|] eqn:E'; simpl; [|done].
    destruct l' as [|y l']; [done|].
    assert (nonEmptyQueues sq !! p = Some (y :: l')) as E2
      by (by apply lookup_nonEmptyQueues).
    congruence.
Qed.

Lemma size_nonEmptyQueues_insert_nil sq p x :
  sq !! p = Some [x] →
  size (nonEmptyQueues (<[p := []]> sq)) = pred (size (nonEmptyQueues sq)).
Proof.
  intros Hp. unfold nonEmptyQueues at 1.
  rewrite map_filter_insert_False by done.
  rewrite map_filter_delete. fold (nonEmptyQueues sq).
  rewrite map_size_delete.
  assert (nonEmptyQueues sq !! p = Some [x]) as ->
    by (by apply lookup_nonEmptyQueues).
  done.
Qed.

Lemma getValue_fst sq p : (getValue sq p).1 = default [] (sq !! p).
Proof. unfold getValue. by destruct (sq !! p). Qed.

Lemma getValue_self sq p : (getValue sq p).2 !! p = Some (getValue sq p).1.
Proof.
  unfold getValue. destruct (sq !! p) eqn:E; simpl; [done|].
  by rewrite lookup_insert_eq.
Qed.

Lemma getValue_default sq p p' :
  default [] ((getValue sq p).2 !! p') = default [] (sq !! p').
Proof.
  unfold getValue. destruct (sq !! p) eqn:E; simpl; [done|].
  destruct (decide (p = p')) as [<-|Hne].
  - by rewrite lookup_insert_eq, E.
  - by rewrite lookup_insert_ne.
Qed.

Lemma getValue_nonEmptyQueues sq p :
  nonEmptyQueues (getValue sq p).2 = nonEmptyQueues sq.
Proof.
  unfold getValue. destruct (sq !! p) eqn:E; simpl; [done|].
  apply nonEmptyQueues_insert_nil. by rewrite E.
Qed.

Lemma pick_spec fuel sq gen p l sq' gen' :
  pick fuel sq gen = Some (p, l, sq', gen') →
  l ≠ [] ∧ default [] (sq !! p) = l ∧ sq' !! p = Some l ∧
  (∀ p', default [] (sq' !! p') = default [] (sq !! p')) ∧
  nonEmptyQueues sq' = nonEmptyQueues sq ∧
  ∃ n ps, (n < fuel)%nat ∧
          PriorityGenerator.nexts (S n) gen = (ps ++ [p], gen') ∧
          ∀ p', p' ∈ ps → default [] (sq !! p') = [].
Proof.
  revert sq gen. induction fuel as [|fuel IH]; intros sq gen; [done|].
  cbn [pick].
  pose proof (PriorityGeneratorFacts.nexts_S 0 gen) as Hn0.
  destruct (PriorityGenerator.next gen) as [pr gen1] eqn:Hnext.
  pose proof (getValue_fst sq pr) as H1.
  pose proof (getValue_self sq pr) as H2.
  pose proof (getValue_default sq pr) as H3.
  pose proof (getValue_nonEmptyQueues sq pr) as H4.
  destruct (getValue sq pr) as [l1 sq1]. cbn [fst snd] in H1, H2, H3, H4.
  destruct (set_isEmpty l1) eqn:He.
  - intros Hpick. apply IH in Hpick as (Hl & Hd & Hs & Hall & Hne & n & ps & Hlt & Hnx & Hps).
    split; [done|]. split; [by rewrite <- H3|]. split; [done|].
    split; [intros p'; by rewrite Hall|]. split; [by rewrite Hne|].
    exists (S n), (pr :: ps). split; [lia|]. split.
    + rewrite PriorityGeneratorFacts.nexts_S, Hnext. cbn [fst snd].
      by rewrite Hnx.
    + intros p' [->|Hin]%elem_of_cons.
      * rewrite <- H1. by destruct l1.
      * rewrite <- H3. by apply Hps.
  - intros [= <- <- <- <-].
    split; [by destruct l1|]. split; [done|]. split; [done|].
    split; [done|]. split; [done|].
    exists 0%nat, []. split; [lia|]. split; [done|].
    by intros p' ?%elem_of_nil.
Qed.

Lemma pick_mono fuel fuel' sq gen r :
  pick fuel sq gen = Some r → (fuel ≤ fuel')%nat → pick fuel' sq gen = Some r.
Proof.
  revert fuel' sq gen. induction fuel as [|fuel IH]; intros fuel' sq gen; [done|].
  destruct fuel' as [|fuel']; [lia|]. cbn [pick].
  destruct (PriorityGenerator.next gen) as [pr gen1].
  destruct (getValue sq pr) as [l1 sq1].
  destruct (set_isEmpty l1); [|done].
  intros Hp Hle. apply IH; [done|lia].
Qed.

Lemma pick_terminates fuel sq gen p :
  PriorityGenerator.wf gen →
  PriorityGenerator.min gen ≤ p ≤ PriorityGenerator.max gen →
  default [] (sq !! p) ≠ [] →
  (Z.to_nat (PriorityGenerator.distance p gen) < fuel)%nat →
  is_Some (pick fuel sq gen).
Proof.
  revert sq gen. induction fuel as [|fuel IH]; intros sq gen Hg Hp Hne Hlt; [lia|].
  cbn [pick].
  pose proof (PriorityGeneratorFacts.next_result gen) as Hr.
  pose proof (PriorityGeneratorFacts.next_wf gen Hg) as Hg1.
  pose proof (PriorityGeneratorFacts.next_window gen) as [Hmin Hmax].
  pose proof (PriorityGeneratorFacts.distance_next p gen Hg Hp) as Hd.
  pose proof (PriorityGeneratorFacts.distance_bounds p _ Hg1) as Hb.
  destruct (PriorityGenerator.next gen) as [pr gen1].
  cbn [fst snd] in Hr, Hg1, Hmin, Hmax, Hd, Hb.
  pose proof (getValue_fst sq pr) as H1.
  pose proof (getValue_default sq pr p) as H3.
  destruct (getValue sq pr) as [l1 sq1]. cbn [fst snd] in H1, H3.
  destruct (set_isEmpty l1) eqn:He; [|done].
  assert (PriorityGenerator.current gen ≠ p) as Hcp.
  { intros Hcp. apply Hne. rewrite <- Hcp, <- Hr, <- H1. by destruct l1. }
  apply IH; [done|lia|by rewrite H3|]. specialize (Hd Hcp). lia.
Qed.

Lemma dequeue_empty fuel q :
  isEmpty q = true → dequeue fuel q = Some (None, q).
Proof. unfold dequeue. by intros ->. Qed.

Lemma dequeue_inv fuel q r q' :
  dequeue fuel q = Some (r, q') → isEmpty q = false →
  ∃ p x rest sq' gen',
    pick fuel (subQueues q) (priorityGen q) = Some (p, x :: rest, sq', gen') ∧
    r = Some x ∧
    q' = mk (<[p := rest]> sq')
            (if set_isEmpty rest then nonEmptySubQueueCount q - 1
             else nonEmptySubQueueCount q)
            gen'.
Proof.
  unfold dequeue. intros Hd He. rewrite He in Hd.
  destruct (pick fuel (subQueues q) (priorityGen q))
    as [[[[p l] sq'] gen']|] eqn:Hpick; [|done].
  pose proof (pick_spec _ _ _ _ _ _ _ Hpick) as (Hl & _).
  destruct l as [|x rest]; [done|]. simpl in Hd.
  injection Hd as <- <-. by exists p, x, rest, sq', gen'.
Qed.

Lemma dequeue_spec fuel q r q' :
  dequeue fuel q = Some (r, q') →
  if isEmpty q then r = None ∧ q' = q
  else ∃ x p rest,
      r = Some x ∧ subQueue q p = x :: rest ∧
      (∀ p', subQueue q' p' = if decide (p' = p) then rest else subQueue q p') ∧
      ∃ n ps,
        PriorityGenerator.nexts (S n) (priorityGen q)
          = (ps ++ [p], priorityGen q') ∧
        ∀ p', p' ∈ ps → subQueue q p' = [].
Proof.
  intros Hd. destruct (isEmpty q) eqn:He.
  - rewrite dequeue_empty in Hd by done. by injection Hd as <- <-.
  - apply dequeue_inv in Hd as (p & x & rest & sq' & gen' & Hpick & -> & ->); [|done].
    apply pick_spec in Hpick as (_ & Hp & Hs & Hall & _ & n & ps & _ & Hn & Hps).
    exists x, p, rest. split; [done|]. split; [done|]. split.
    + intros p'. unfold subQueue at 1. simpl. case_decide as Hpp.
      * subst p'. by rewrite lookup_insert_eq.
      * rewrite lookup_insert_ne by done. apply Hall.
    + by exists n, ps.
Qed.

Lemma dequeue_mono fuel fuel' q r :
  dequeue fuel q = Some r → (fuel ≤ fuel')%nat → dequeue fuel' q = Some r.
Proof.
  unfold dequeue. destruct (isEmpty q); [done|].
  destruct (pick fuel (subQueues q) (priorityGen q)) as [r'|] eqn:Hp; [|done].
  intros Hr Hle. by rewrite (pick_mono _ _ _ _ _ Hp Hle).
Qed.

End QueueFacts.

Section Facts.
Context {T : Type} (getPriority : T → Z).

Implicit Types (q : t T) (sq : gmap Z (list T)).

Lemma queue_new_wf : wf getPriority new.
Proof.
  unfold wf, new, subQueue; simpl. split; [apply PriorityGeneratorFacts.generator_new_wf|].
  split; [intros p; by rewrite lookup_empty|].
  split; [done|]. intros p x. rewrite lookup_empty. simpl. by intros ?%elem_of_nil.
Qed.

Lemma subQueue_enqueue q v p :
  subQueue (enqueue getPriority q v) p =
    if decide (p = getPriority v) then subQueue q p ++ [v] else subQueue q p.
Proof.
  unfold enqueue, subQueue.
  pose proof (getValue_fst (subQueues q) (getPriority v)) as H1.
  pose proof (getValue_default (subQueues q) (getPriority v) p) as H2.
  destruct (getValue (subQueues q) (getPriority v)) as [l sq'].
  simpl in *. subst l.
  destruct (set_isEmpty _); simpl; case_decide as Hp.
  all: try (subst p; by rewrite lookup_insert_eq).
  all: by rewrite lookup_insert_ne.
Qed.

Lemma priorityGen_enqueue q v :
  priorityGen (enqueue getPriority q v) =
    if set_isEmpty (subQueue q (getPriority v))
    then PriorityGenerator.notifyPriorityExists (priorityGen q) (getPriority v)
    else priorityGen q.
Proof.
  unfold enqueue, subQueue.
  pose proof (getValue_fst (subQueues q) (getPriority v)) as H1.
  destruct (getValue (subQueues q) (getPriority v)) as [l sq'].
  simpl in *. subst l. by destruct (set_isEmpty _).
Qed.

Lemma enqueue_wf q v : wf getPriority q → wf getPriority (enqueue getPriority q v).
Proof.
  intros (Hg & Hw & Hc & Hp). unfold wf.
  split; [|split; [|split]].
  - rewrite priorityGen_enqueue. destruct (set_isEmpty _); [|done].
    by apply PriorityGeneratorFacts.notifyPriorityExists_wf.
  - intros p. rewrite subQueue_enqueue, priorityGen_enqueue.
    pose proof (PriorityGeneratorFacts.notifyPriorityExists_window
                  (priorityGen q) (getPriority v)) as Hn. simpl in Hn.
    destruct (set_isEmpty (subQueue q (getPriority v))) eqn:He.
    + case_decide as Hpv; [subst p; intros _; lia|].
      intros Hne. specialize (Hw p Hne). lia.
    + case_decide as Hpv; [subst p; intros _|by apply Hw].
      apply Hw. by destruct (subQueue q (getPriority v)).
  - unfold enqueue.
    pose proof (getValue_fst (subQueues q) (getPriority v)) as H1.
    pose proof (getValue_nonEmptyQueues (subQueues q) (getPriority v)) as H2.
    pose proof (getValue_self (subQueues q) (getPriority v)) as H3.
    destruct (getValue (subQueues q) (getPriority v)) as [l sq'].
    simpl in *.
    assert (nonEmptySubQueueCount
              (let '(count, gen) :=
                 if set_isEmpty l
                 then (nonEmptySubQueueCount q + 1,
                       PriorityGenerator.notifyPriorityExists (priorityGen q)
                         (getPriority v))
                 else (nonEmptySubQueueCount q, priorityGen q) in
               mk (<[getPriority v := l ++ [v]]> sq') count gen)
            = if set_isEmpty l then nonEmptySubQueueCount q + 1
              else nonEmptySubQueueCount q) as -> by (by destruct (set_isEmpty l)).
    assert (subQueues
              (let '(count, gen) :=
                 if set_isEmpty l
                 then (nonEmptySubQueueCount q + 1,
                       PriorityGenerator.notifyPriorityExists (priorityGen q)
                         (getPriority v))
                 else (nonEmptySubQueueCount q, priorityGen q) in
               mk (<[getPriority v := l ++ [v]]> sq') count gen)
            = <[getPriority v := l ++ [v]]> sq') as -> by (by destruct (set_isEmpty l)).
    rewrite size_nonEmptyQueues_insert by (by destruct l).
    rewrite H3. simpl. rewrite H2, Hc. destruct (set_isEmpty l); lia.
  - intros p x. rewrite subQueue_enqueue. case_decide as Hpv; [|by apply Hp].
    subst p. rewrite elem_of_app, list_elem_of_singleton.
    intros [Hx| ->]; [by apply Hp|done].
Qed.

Lemma dequeue_wf fuel q r q' :
  wf getPriority q → dequeue fuel q = Some (r, q') → wf getPriority q'.
Proof.
  intros Hwf Hd. destruct (isEmpty q) eqn:He.
  { rewrite dequeue_empty in Hd by done. by injection Hd as <- <-. }
  pose proof (dequeue_spec _ _ _ _ Hd) as Hs. rewrite He in Hs.
  destruct Hs as (x & p & rest & _ & Hp & Hall & n & ps & Hn & _).
  apply dequeue_inv in Hd as (p2 & x2 & rest2 & sq' & gen' & Hpick & _ & Hq'); [|done].
  destruct Hwf as (Hg & Hw & Hc & Hpr).
  pose proof (PriorityGeneratorFacts.nexts_wf (S n) _ Hg) as Hg'.
  pose proof (PriorityGeneratorFacts.nexts_window (S n) (priorityGen q))
    as [Hmin Hmax].
  rewrite Hn in Hg', Hmin, Hmax. cbn [snd] in Hg', Hmin, Hmax.
  assert (∀ p' y, y ∈ subQueue q' p' → y ∈ subQueue q p') as Hsub.
  { intros p' y. rewrite Hall. case_decide as Hpp; [|done].
    subst p'. rewrite Hp, elem_of_cons. by right. }
  split; [done|]. split; [|split].
  - intros p' Hne. rewrite Hmin, Hmax. apply Hw.
    destruct (subQueue q' p') as [|y l] eqn:E; [done|].
    assert (y ∈ subQueue q p') as Hy by (apply Hsub; rewrite E, elem_of_cons; by left).
    intros Hnil. rewrite Hnil in Hy. by apply elem_of_nil in Hy.
  - apply pick_spec in Hpick as (_ & _ & Hs & _ & Hne & _).
    subst q'. cbn [subQueues nonEmptySubQueueCount].
    assert (nonEmptyQueues sq' !! p2 = Some (x2 :: rest2)) as Hin
      by (by apply lookup_nonEmptyQueues).
    assert (size (nonEmptyQueues sq') ≠ 0%nat) as Hsz.
    { intros Hz. apply map_size_empty_iff in Hz. rewrite Hz in Hin.
      by rewrite lookup_empty in Hin. }
    rewrite Hc, <- Hne. destruct rest2 as [|y rest2]; cbn [set_isEmpty].
    + rewrite (size_nonEmptyQueues_insert_nil _ _ x2) by done. lia.
    + rewrite size_nonEmptyQueues_insert by done. by rewrite Hs.
  - intros p' y Hy. apply Hpr. by apply Hsub.
Qed.

Lemma nonEmpty_exists q :
  wf getPriority q → isEmpty q = false → ∃ p, subQueue q p ≠ [].
Proof.
  intros (_ & _ & Hc & _) He. unfold isEmpty in He.
  apply bool_decide_eq_false in He.
  assert (nonEmptyQueues (subQueues q) ≠ ∅) as Hne.
  { intros Hz. rewrite Hz, map_size_empty in Hc. done. }
  apply map_choose in Hne as (p & l & Hl).
  apply lookup_nonEmptyQueues in Hl as [Hl Hnil].
  exists p. unfold subQueue. by rewrite Hl.
Qed.

Lemma dequeue_terminates fuel q :
  wf getPriority q → (enoughFuel q ≤ fuel)%nat →
  ∃ r q', dequeue fuel q = Some (r, q') ∧ (isEmpty q = false → is_Some r).
Proof.
  intros Hwf Hfuel. destruct (isEmpty q) eqn:He.
  { exists None, q. by rewrite dequeue_empty. }
  destruct (nonEmpty_exists q Hwf He) as [p Hp].
  pose proof Hwf as (Hg & Hw & _ & _).
  pose proof (PriorityGeneratorFacts.distance_bounds p _ Hg (Hw p Hp)) as Hb.
  destruct (pick_terminates fuel (subQueues q) (priorityGen q) p Hg (Hw p Hp) Hp)
    as [[[[p1 l] sq'] gen'] Hpick].
  { unfold enoughFuel in Hfuel. lia. }
  pose proof (pick_spec _ _ _ _ _ _ _ Hpick) as (Hl & _).
  unfold dequeue. rewrite He, Hpick. destruct l as [|x rest]; [done|].
  eexists _, _. split; [done|]. intros _. by eexists.
Qed.

End Facts.
End PriorityPartitionedQueueFacts.

(** ** Numbers: where the exact decrement is the decrement of doubles

    While the window of the generator lies from [-2^53] to [2^53], the
    generator and the loop of the queue on doubles are the generator and
    the loop with the exact decrement. *)

Module DoubleFacts.

Lemma decrement_exact x : - 2 ^ 53 < x ≤ 2 ^ 53 → Double.decrement x = x - 1.
Proof.
  intros Hx. unfold Double.decrement, Double.roundToNearest.
  rewrite bool_decide_eq_true_2; [done|]. lia.
Qed.

Lemma double_next_exact g :
  PriorityGenerator.wf g →
  Double.bounded (PriorityGenerator.min g) →
  Double.bounded (PriorityGenerator.max g) →
  Double.next g = PriorityGenerator.next g.
Proof.
  unfold PriorityGenerator.wf, Double.bounded.
  intros (H1 & H2 & H3) Hmin Hmax.
  unfold Double.next, PriorityGenerator.next, Double.nextFrontier,
    PriorityGenerator.nextFrontier.
  repeat case_bool_decide; try done.
  all: rewrite decrement_exact; [done|lia].
Qed.

Lemma double_nexts_exact n g :
  PriorityGenerator.wf g →
  Double.bounded (PriorityGenerator.min g) →
  Double.bounded (PriorityGenerator.max g) →
  Double.nexts n g = PriorityGenerator.nexts n g.
Proof.
  revert g. induction n as [|n IH]; intros g Hg Hmin Hmax; [done|].
  cbn [Double.nexts PriorityGenerator.nexts].
  rewrite double_next_exact by done.
  pose proof (PriorityGeneratorFacts.next_wf g Hg) as Hg1.
  pose proof (PriorityGeneratorFacts.next_window g) as [Hmin1 Hmax1].
  destruct (PriorityGenerator.next g) as [p g1]. cbn [fst snd] in *.
  rewrite IH; [done|done|by rewrite Hmin1|by rewrite Hmax1].
Qed.

Lemma double_pick_exact {T} fuel (sq : gmap Z (list T)) gen :
  PriorityGenerator.wf gen →
  Double.bounded (PriorityGenerator.min gen) →
  Double.bounded (PriorityGenerator.max gen) →
  Double.pick fuel sq gen = PriorityPartitionedQueue.pick fuel sq gen.
Proof.
  revert sq gen. induction fuel as [|fuel IH]; intros sq gen Hg Hmin Hmax;
    [done|].
  cbn [Double.pick PriorityPartitionedQueue.pick].
  rewrite double_next_exact by done.
  pose proof (PriorityGeneratorFacts.next_wf gen Hg) as Hg1.
  pose proof (PriorityGeneratorFacts.next_window gen) as [Hmin1 Hmax1].
  destruct (PriorityGenerator.next gen) as [p gen1]. cbn [fst snd] in *.
  destruct (PriorityPartitionedQueue.getValue sq p) as [l sq1].
  destruct (set_isEmpty l); [|done].
  apply IH; [done|by rewrite Hmin1|by rewrite Hmax1].
Qed.

Lemma double_dequeue_exact {T} fuel (q : PriorityPartitionedQueue.t T) :
  PriorityGenerator.wf (PriorityPartitionedQueue.priorityGen q) →
  Double.bounded (PriorityGenerator.min (PriorityPartitionedQueue.priorityGen q)) →
  Double.bounded (PriorityGenerator.max (PriorityPartitionedQueue.priorityGen q)) →
  Double.dequeue fuel q = PriorityPartitionedQueue.dequeue fuel q.
Proof.
  intros Hg Hmin Hmax.
  unfold Double.dequeue, PriorityPartitionedQueue.dequeue.
  by rewrite double_pick_exact.
Qed.

End DoubleFacts.

(** ** The store of instruction objects *)

Module TaskInstructionFacts.
Import TaskInstruction.

Implicit Types (h : gmap nat InstructionSets) (x i : TaskInstruction).

Lemma deps_setDeps h i d x :
  deps (setDeps h i d) x = if decide (iid x = iid i) then d else deps h x.
Proof.
  unfold deps, setDeps, getSets. case_decide as E.
  - by rewrite E, lookup_insert_eq.
  - by rewrite lookup_insert_ne.
Qed.

Lemma invDeps_setDeps h i d x : invDeps (setDeps h i d) x = invDeps h x.
Proof.
  unfold invDeps, setDeps, getSets.
  destruct (decide (iid x = iid i)) as [E|E].
  - by rewrite E, lookup_insert_eq.
  - by rewrite lookup_insert_ne.
Qed.

Lemma deps_setInvDeps h i d x : deps (setInvDeps h i d) x = deps h x.
Proof.
  unfold deps, setInvDeps, getSets.
  destruct (decide (iid x = iid i)) as [E|E].
  - by rewrite E, lookup_insert_eq.
  - by rewrite lookup_insert_ne.
Qed.

Lemma invDeps_setInvDeps h i d x :
  invDeps (setInvDeps h i d) x =
    if decide (iid x = iid i) then d else invDeps h x.
Proof.
  unfold invDeps, setInvDeps, getSets. case_decide as E.
  - by rewrite E, lookup_insert_eq.
  - by rewrite lookup_insert_ne.
Qed.

Lemma deps_new (hp : Heap) t x :
  deps (cells (newTaskInstruction hp t).2) x =
    if decide (iid x = fresh hp) then [] else deps (cells hp) x.
Proof.
  unfold deps, getSets, newTaskInstruction. simpl. case_decide as E.
  - by rewrite E, lookup_insert_eq.
  - by rewrite lookup_insert_ne.
Qed.

Lemma invDeps_new (hp : Heap) t x :
  invDeps (cells (newTaskInstruction hp t).2) x =
    if decide (iid x = fresh hp) then [] else invDeps (cells hp) x.
Proof.
  unfold invDeps, getSets, newTaskInstruction. simpl. case_decide as E.
  - by rewrite E, lookup_insert_eq.
  - by rewrite lookup_insert_ne.
Qed.

Lemma isEligibleForExecution_true h x :
  isEligibleForExecution h x = true ↔ deps h x = [].
Proof. unfold isEligibleForExecution. by destruct (deps h x). Qed.

End TaskInstructionFacts.

(** ** The loops of the task queue *)

Section FoldLeft.
Context {A B : Type} (f : B → A → B).

(** Induction over a loop, with the part of the list already visited. *)
Lemma fold_left_prefix_ind (P : list A → B → Prop) (l : list A) (b : B) :
  P [] b →
  (∀ done x todo b', l = done ++ x :: todo → P done b' → P (done ++ [x]) (f b' x)) →
  P l (fold_left f l b).
Proof.
  intros Hb Hstep.
  assert (∀ done todo, l = done ++ todo → P done (fold_left f done b)) as H.
  { intros done. induction done as [|x done IH] using rev_ind; intros todo Hl.
    - done.
    - rewrite fold_left_app. simpl. rewrite <- app_assoc in Hl.
      apply (Hstep done x todo); [done|]. by apply (IH (x :: todo)). }
  apply (H l []). by rewrite app_nil_r.
Qed.

Lemma fold_left_ind (P : B → Prop) (l : list A) (b : B) :
  P b → (∀ x b', x ∈ l → P b' → P (f b' x)) → P (fold_left f l b).
Proof.
  intros Hb Hstep.
  apply (fold_left_prefix_ind (λ _, P)); [done|].
  intros done x todo b' -> Hb'. apply Hstep; [|done].
  rewrite elem_of_app, elem_of_cons. auto.
Qed.
End FoldLeft.

Module ModelTaskQueueFacts.
Import TaskInstruction TaskInstructionFacts ModelTaskQueue.

Implicit Types (h : gmap nat InstructionSets) (x y i : TaskInstruction).
Implicit Types (latest : gmap nat TaskInstruction).

Lemma recordWrites_lookup i ws latest c x :
  recordWrites i ws latest !! c = Some x →
  (x = i ∧ c ∈ ws) ∨ latest !! c = Some x.
Proof.
  unfold recordWrites. revert latest.
  induction ws as [|c' ws IH]; intros latest; simpl; [auto|].
  intros [[-> Hc]|Hl]%IH.
  - left. split; [done|]. rewrite elem_of_cons. auto.
  - destruct (decide (c' = c)) as [->|Hne].
    + rewrite lookup_insert_eq in Hl. injection Hl as <-.
      left. split; [done|]. rewrite elem_of_cons. auto.
    + rewrite lookup_insert_ne in Hl by done. auto.
Qed.

Lemma recordWrites_member i ws latest c :
  c ∈ ws → recordWrites i ws latest !! c = Some i.
Proof.
  unfold recordWrites.
  induction ws as [|c' ws IH] using rev_ind; [by intros ?%elem_of_nil|].
  rewrite fold_left_app. simpl.
  intros [Hc|Hc%list_elem_of_singleton]%elem_of_app.
  - destruct (decide (c' = c)) as [->|Hne].
    + by rewrite lookup_insert_eq.
    + rewrite lookup_insert_ne by done. by apply IH.
  - subst c'. by rewrite lookup_insert_eq.
Qed.

Lemma forgetWrites_lookup i ws latest c x :
  forgetWrites i ws latest !! c = Some x ↔
  latest !! c = Some x ∧ ¬ (c ∈ ws ∧ iid x = iid i).
Proof.
  unfold forgetWrites. revert latest.
  induction ws as [|c' ws IH]; intros latest; simpl.
  { split; [|naive_solver]. intros H. split; [done|].
    intros [?%elem_of_nil _]. done. }
  rewrite IH, elem_of_cons. clear IH.
  destruct (latest !! c') as [wr|] eqn:E.
  - unfold same. case_bool_decide as Hs.
    + destruct (decide (c = c')) as [->|Hne].
      * rewrite lookup_delete_eq, E. naive_solver.
      * rewrite lookup_delete_ne by done. naive_solver.
    + destruct (decide (c = c')) as [->|Hne]; [rewrite E|]; naive_solver.
  - destruct (decide (c = c')) as [->|Hne]; [rewrite E|]; naive_solver.
Qed.

Lemma length_introduceInto rs sets i :
  length (InstructionMerger.introduceInto rs sets i) = length sets.
Proof.
  revert sets. induction rs as [|r rs IH]; intros [|s sets]; simpl; try done.
  by rewrite IH.
Qed.

Lemma elem_of_introduceInto rs sets i s' x :
  s' ∈ InstructionMerger.introduceInto rs sets i → x ∈ s' →
  x = i ∨ ∃ s, s ∈ sets ∧ x ∈ s.
Proof.
  revert sets. induction rs as [|r rs IH]; intros [|s sets]; simpl.
  1-3: intros Hs Hx; right; by exists s'.
  rewrite elem_of_cons. intros [->|Hs] Hx.
  - destruct (isOfInterest r (task i)).
    + apply elem_of_set_add in Hx as [Hx|[-> _]]; [|by left].
      right. exists s. rewrite elem_of_cons. auto.
    + right. exists s. rewrite elem_of_cons. auto.
  - destruct (IH _ Hs Hx) as [->|(s0 & Hs0 & Hx0)]; [by left|].
    right. exists s0. rewrite elem_of_cons. auto.
Qed.

Lemma elem_of_completeInstruction m i s' x :
  s' ∈ InstructionMerger.interestSets (InstructionMerger.completeInstruction m i) →
  x ∈ s' →
  toString x ≠ toString i ∧
  ∃ s, s ∈ InstructionMerger.interestSets m ∧ x ∈ s.
Proof.
  simpl. rewrite list_elem_of_In, in_map_iff.
  intros (s & <- & Hs%list_elem_of_In) Hx.
  apply elem_of_set_remove in Hx as [Hx Hne]. split; [done|]. by exists s.
Qed.

Lemma iid_inj (C : list TaskInstruction) x y :
  (∀ k z, C !! k = Some z → iid z = k) →
  x ∈ C → y ∈ C → iid x = iid y → x = y.
Proof.
  intros Hid [kx Hx]%list_elem_of_lookup [ky Hy]%list_elem_of_lookup Hxy.
  pose proof (Hid _ _ Hx). pose proof (Hid _ _ Hy). congruence.
Qed.

Lemma key_inj (C : list TaskInstruction) x y :
  NoDup (toString <$> C) →
  x ∈ C → y ∈ C → toString x = toString y → x = y.
Proof.
  intros Hnd [kx Hx]%list_elem_of_lookup [ky Hy]%list_elem_of_lookup Hxy.
  assert (kx = ky) as ->; [|congruence].
  eapply NoDup_lookup; [done| |].
  - rewrite list_lookup_fmap, Hx. done.
  - rewrite list_lookup_fmap, Hy. simpl. by rewrite Hxy.
Qed.

Lemma iid_lt (C : list TaskInstruction) x :
  (∀ k z, C !! k = Some z → iid z = k) → x ∈ C → (iid x < length C)%nat.
Proof.
  intros Hid [kx Hx]%list_elem_of_lookup. rewrite (Hid _ _ Hx).
  by eapply lookup_lt_Some.
Qed.

Lemma deps_addDependencies_step latest n c h :
  deps (addDependencies latest n [c] h) n =
    match latest !! c with
    | Some d => set_add toString (deps h n) d
    | None => deps h n
    end.
Proof.
  unfold addDependencies. simpl. destruct (latest !! c) as [d|]; [|done].
  rewrite deps_setInvDeps, deps_setDeps. by rewrite decide_True.
Qed.

Lemma addDependencies_contains latest n rs h c d :
  c ∈ rs → latest !! c = Some d →
  set_contains toString (deps (addDependencies latest n rs h) n) d = true.
Proof.
  revert h. induction rs as [|c' rs IH] using rev_ind; intros h Hc Hl.
  - by apply elem_of_nil in Hc.
  - unfold addDependencies. rewrite fold_left_app.
    fold (addDependencies latest n rs h).
    change (fold_left _ [c'] ?h') with (addDependencies latest n [c'] h').
    rewrite deps_addDependencies_step.
    apply elem_of_app in Hc as [Hc|Hc%list_elem_of_singleton].
    + specialize (IH h Hc Hl). destruct (latest !! c'); [|done].
      by apply set_contains_add_mono.
    + subst c'. rewrite Hl. apply set_contains_add_same.
Qed.

Lemma addDependencies_inverted latest n rs h :
  (∀ y, y ∈ deps h n → set_contains toString (invDeps h y) n = true) →
  ∀ y, y ∈ deps (addDependencies latest n rs h) n →
       set_contains toString (invDeps (addDependencies latest n rs h) y) n
       = true.
Proof.
  intros H0. induction rs as [|c rs IH] using rev_ind; [done|].
  unfold addDependencies. rewrite fold_left_app.
  fold (addDependencies latest n rs h). cbn [fold_left].
  destruct (latest !! c) as [d|]; [|done].
  intros y. rewrite deps_setInvDeps, deps_setDeps.
  rewrite (decide_True (P := iid n = iid n)) by done.
  rewrite invDeps_setInvDeps, !invDeps_setDeps.
  intros Hy. case_decide as E.
  - apply set_contains_add_same.
  - apply IH. apply elem_of_set_add in Hy as [Hy|[-> _]]; done.
Qed.

Lemma complete_unfold q i :
  complete q i =
    let rel := releaseDependents i (invDeps (cells (heap q)) i)
                 (cells (heap q), eligibleInstructions q) in
    mk rel.2
       (forgetWrites i (writeSet (metadata (task i)))
          (latestComponentStateMap q))
       (InstructionMerger.completeInstruction (merger q) i)
       (Build_Heap (setInvDeps rel.1 i []) (fresh (heap q))).
Proof. unfold complete. by destruct (releaseDependents _ _ _). Qed.

Lemma releaseDependents_spec (C : list TaskInstruction) h E i ds :
  (∀ k z, C !! k = Some z → iid z = k) →
  (∀ x, x ∈ ds → x ∈ C) →
  NoDup ds →
  PriorityPartitionedQueue.wf getPriority E →
  let rel := releaseDependents i ds (h, E) in
  (∀ x, x ∈ C →
     deps rel.1 x = if bool_decide (x ∈ ds)
                    then set_remove toString (deps h x) i else deps h x) ∧
  (∀ x, invDeps rel.1 x = invDeps h x) ∧
  PriorityPartitionedQueue.wf getPriority rel.2 ∧
  (∀ p, PriorityPartitionedQueue.subQueue rel.2 p =
        PriorityPartitionedQueue.subQueue E p ++ released h i p ds).
Proof.
  intros Hid HdsC Hnd Hwf. unfold releaseDependents.
  pose (P :=
    (λ (done : list TaskInstruction)
       (b : gmap nat InstructionSets * PriorityPartitionedQueue.t TaskInstruction),
       (∀ x, x ∈ C →
          deps b.1 x = if bool_decide (x ∈ done)
                       then set_remove toString (deps h x) i else deps h x) ∧
       (∀ x, invDeps b.1 x = invDeps h x) ∧
       PriorityPartitionedQueue.wf getPriority b.2 ∧
       (∀ p, PriorityPartitionedQueue.subQueue b.2 p =
             PriorityPartitionedQueue.subQueue E p ++ released h i p done))).
  apply (fold_left_prefix_ind _ P); unfold P; clear P.
  - simpl. split; [|split; [|split]]; try done.
    intros p. unfold released. by rewrite app_nil_r.
  - intros done x todo [h1 E1] Hds (H1 & H2 & H3 & H4). cbn [fst snd] in *.
    assert (x ∈ C) as HxC.
    { apply HdsC. rewrite Hds, elem_of_app, elem_of_cons. auto. }
    assert (x ∉ done) as Hxd.
    { rewrite Hds in Hnd. apply NoDup_app in Hnd as (_ & Hdisj & _).
      intros Hx. apply (Hdisj x Hx). rewrite elem_of_cons. auto. }
    assert (deps h1 x = deps h x) as Hx1.
    { rewrite (H1 x HxC). by rewrite bool_decide_eq_false_2. }
    set (h2 := setDeps h1 x (set_remove toString (deps h1 x) i)).
    assert (∀ z, z ∈ C →
              deps h2 z = if bool_decide (z ∈ done ++ [x])
                          then set_remove toString (deps h z) i else deps h z)
      as Hdeps2.
    { intros z Hz. unfold h2. rewrite deps_setDeps, Hx1.
      destruct (decide (iid z = iid x)) as [Hzx|Hzx].
      - assert (z = x) as -> by (by eapply iid_inj).
        rewrite bool_decide_eq_true_2; [done|].
        rewrite elem_of_app, list_elem_of_singleton. auto.
      - rewrite (H1 z Hz).
        rewrite (bool_decide_ext (z ∈ done) (z ∈ done ++ [x])); [done|].
        rewrite elem_of_app, list_elem_of_singleton.
        split; [auto|]. intros [?| ->]; done. }
    assert (∀ p, released h i p (done ++ [x]) =
                 released h i p done ++
                 if bool_decide (deps h2 x = [] ∧ getPriority x = p)
                 then [x] else []) as Hrel.
    { intros p. unfold released. rewrite filter_app. f_equal.
      assert (deps h2 x = set_remove toString (deps h x) i) as ->.
      { rewrite (Hdeps2 x HxC). rewrite bool_decide_eq_true_2; [done|].
        rewrite elem_of_app, list_elem_of_singleton. auto. }
      rewrite filter_cons, filter_nil.
      case_decide; case_bool_decide; done. }
    destruct (isEligibleForExecution h2 x) eqn:He; cbn [fst snd].
    + apply isEligibleForExecution_true in He.
      split; [done|]. split; [intros z; unfold h2; by rewrite invDeps_setDeps|].
      split; [by apply PriorityPartitionedQueueFacts.enqueue_wf|].
      intros p. rewrite PriorityPartitionedQueueFacts.subQueue_enqueue, Hrel.
      case_decide as Hp.
      * rewrite bool_decide_eq_true_2 by done. by rewrite H4, app_assoc.
      * rewrite bool_decide_eq_false_2 by (by intros [_ ?]).
        rewrite app_nil_r. apply H4.
    + split; [done|]. split; [intros z; unfold h2; by rewrite invDeps_setDeps|].
      split; [done|].
      intros p. rewrite H4, Hrel.
      rewrite bool_decide_eq_false_2; [by rewrite app_nil_r|].
      intros [Hd _]. apply isEligibleForExecution_true in Hd. congruence.
Qed.

End ModelTaskQueueFacts.

(** ** Traces *)

Module TraceFacts.
Import TaskInstruction ModelTaskQueue ModelTaskQueueFacts.

(** What [dequeue] does to the queue, by cases. *)
Lemma dequeueInstruction_inv fuel q r q' :
  dequeueInstruction fuel q = Some (r, q') →
  (isEmpty q = true ∧ r = None ∧ q' = q) ∨
  (isEmpty q = false ∧
   ∃ i E1,
     PriorityPartitionedQueue.dequeue fuel (eligibleInstructions q)
       = Some (Some i, E1) ∧
     r = Some i ∧
     q' = complete (mk E1 (latestComponentStateMap q) (merger q) (heap q)) i).
Proof.
  unfold dequeueInstruction, isEmpty.
  destruct (PriorityPartitionedQueue.dequeue fuel (eligibleInstructions q))
    as [[[i|] E1]|] eqn:Hd; [| |done].
  - intros [= <- <-]. right.
    pose proof (PriorityPartitionedQueueFacts.dequeue_spec _ _ _ _ Hd) as Hs.
    destruct (PriorityPartitionedQueue.isEmpty (eligibleInstructions q)).
    + by destruct Hs.
    + split; [done|]. by exists i, E1.
  - intros [= <- <-]. left.
    pose proof (PriorityPartitionedQueueFacts.dequeue_spec _ _ _ _ Hd) as Hs.
    destruct (PriorityPartitionedQueue.isEmpty (eligibleInstructions q)).
    + destruct Hs as [_ ->]. by destruct q.
    + by destruct Hs as (x & p & rest & ? & _).
Qed.

Lemma step_created fuel w op w' :
  step fuel w op = Some w' →
  task <$> created w' =
    (task <$> created w) ++ enqueuedTasks [op].
Proof.
  destruct op as [t| |r]; simpl.
  - intros [= <-]. simpl. by rewrite fmap_app.
  - destruct (dequeueInstruction fuel (queue w)) as [[[i|] q]|]; [| |done].
    all: intros [= <-]; simpl; by rewrite app_nil_r.
  - intros [= <-]. simpl. by rewrite app_nil_r.
Qed.

Lemma run_app fuel w ops1 ops2 :
  run fuel w (ops1 ++ ops2) =
    match run fuel w ops1 with
    | Some w1 => run fuel w1 ops2
    | None => None
    end.
Proof.
  revert w. induction ops1 as [|op ops1 IH]; intros w; simpl; [done|].
  destruct (step fuel w op); [apply IH|done].
Qed.

Lemma enqueuedTasks_app ops1 ops2 :
  enqueuedTasks (ops1 ++ ops2) = enqueuedTasks ops1 ++ enqueuedTasks ops2.
Proof. unfold enqueuedTasks. by rewrite flat_map_app. Qed.

Lemma run_created fuel w ops w' :
  run fuel w ops = Some w' →
  task <$> created w' = (task <$> created w) ++ enqueuedTasks ops.
Proof.
  revert w. induction ops as [|op ops IH]; intros w; simpl.
  - intros [= <-]. by rewrite app_nil_r.
  - destruct (step fuel w op) as [w1|] eqn:Hs; [|done].
    intros Hr. rewrite (IH _ Hr), (step_created _ _ _ _ Hs).
    rewrite <- app_assoc. f_equal.
    unfold enqueuedTasks. simpl. by rewrite app_nil_r.
Qed.

Lemma toString_fmap (l : list TaskInstruction) :
  toString <$> l = index <$> (task <$> l).
Proof. by rewrite <- list_fmap_compose. Qed.

End TraceFacts.

(** ** The invariant of the worlds *)

Module CoherenceFacts.
Import TaskInstruction TaskInstructionFacts ModelTaskQueue ModelTaskQueueFacts.

Implicit Types (h : gmap nat InstructionSets) (x y i : TaskInstruction).

Lemma elem_of_set_add_same (s : list TaskInstruction) d :
  (∀ y, y ∈ s → toString y = toString d → y = d) →
  d ∈ set_add toString s d.
Proof.
  intros Hs. unfold set_add. destruct (set_contains toString s d) eqn:Hc.
  - apply set_contains_true in Hc as (y & Hy & Hk). by rewrite <- (Hs y Hy Hk).
  - rewrite elem_of_app, list_elem_of_singleton. auto.
Qed.

Section CohEnqueue.
Context (w : World) (t : ModelTask).
Context (Hcoh : Coherent w).
Context (Hfun : ∀ x, x ∈ created w → toString x = index t → task x = t).

Let n := Build_TaskInstruction (fresh (heap (queue w))) t.
Let h0 := cells (newTaskInstruction (heap (queue w)) t).2.

Lemma coh_new_not_created x : x ∈ created w → iid x ≠ iid n.
Proof.
  intros Hx%(iid_lt _ _ (coh_iid w Hcoh)). simpl.
  rewrite (coh_fresh w Hcoh). lia.
Qed.

Lemma coh_new_not_in_created : n ∉ created w.
Proof. intros Hn. by apply (coh_new_not_created n Hn). Qed.

Lemma coh_new_not_in_returned : n ∉ returned w.
Proof.
  intros Hn. apply coh_new_not_in_created. by apply (coh_returned w Hcoh).
Qed.

Lemma coh_addDependencies_spec rs :
  let h' := addDependencies (latestComponentStateMap (queue w)) n rs h0 in
  (∀ x, x ∈ created w → deps h' x = deps (cells (heap (queue w))) x) ∧
  (∀ y, y ∈ deps h' n →
        ∃ c, c ∈ rs ∧ latestComponentStateMap (queue w) !! c = Some y) ∧
  (∀ y, y ∈ created w →
     invDeps h' y = invDeps (cells (heap (queue w))) y ∨
     (invDeps h' y = invDeps (cells (heap (queue w))) y ++ [n] ∧
      y ∈ deps h' n)) ∧
  invDeps h' n = [].
Proof.
  unfold addDependencies. apply fold_left_ind.
  - split; [|split; [|split]].
    + intros x Hx. unfold h0. rewrite deps_new.
      rewrite decide_False; [done|]. by apply coh_new_not_created.
    + intros y. unfold h0. rewrite deps_new.
      rewrite (decide_True (P := iid n = _)) by done. by intros ?%elem_of_nil.
    + intros y Hy. left. unfold h0. rewrite invDeps_new.
      rewrite decide_False; [done|]. by apply coh_new_not_created.
    + unfold h0. rewrite invDeps_new. by rewrite decide_True.
  - intros c h1 Hc (H1 & H2 & H3 & H4).
    destruct (latestComponentStateMap (queue w) !! c) as [d|] eqn:HL; [|done].
    destruct (coh_latest w Hcoh _ _ HL) as (HdC & HdR & _).
    pose proof (coh_new_not_created d HdC) as Hdn.
    assert (∀ x, deps (setInvDeps
                   (setDeps h1 n (set_add toString (deps h1 n) d)) d
                   (set_add toString
                      (invDeps (setDeps h1 n (set_add toString (deps h1 n) d)) d)
                      n)) x
                 = if decide (iid x = iid n)
                   then set_add toString (deps h1 n) d else deps h1 x) as Hdeps.
    { intros x. by rewrite deps_setInvDeps, deps_setDeps. }
    assert (∀ y, invDeps (setInvDeps
                   (setDeps h1 n (set_add toString (deps h1 n) d)) d
                   (set_add toString
                      (invDeps (setDeps h1 n (set_add toString (deps h1 n) d)) d)
                      n)) y
                 = if decide (iid y = iid d)
                   then set_add toString (invDeps h1 d) n else invDeps h1 y) as Hinvd.
    { intros y. by rewrite invDeps_setInvDeps, !invDeps_setDeps. }
    assert (d ∈ set_add toString (deps h1 n) d) as Hdin.
    { apply elem_of_set_add_same. intros y Hy Hk.
      destruct (H2 y Hy) as (c' & _ & HL').
      by apply (coh_latest_index w Hcoh c' c y d). }
    split; [|split; [|split]].
    + intros x Hx. rewrite Hdeps, decide_False by (by apply coh_new_not_created).
      by apply H1.
    + intros y. rewrite Hdeps. rewrite (decide_True (P := iid n = iid n)) by done.
      intros [Hy|[-> _]]%elem_of_set_add; [by apply H2|by exists c].
    + intros y Hy. rewrite Hinvd, Hdeps.
      rewrite (decide_True (P := iid n = iid n)) by done.
      destruct (decide (iid y = iid d)) as [Hyd|Hyd].
      * assert (y = d) as -> by (by eapply iid_inj; [apply (coh_iid w Hcoh)|..]).
        destruct (H3 d HdC) as [Ha|[Ha Hb]]; rewrite Ha.
        -- destruct (set_contains toString
                       (invDeps (cells (heap (queue w))) d) n) eqn:Hcn.
           ++ left. unfold set_add. by rewrite Hcn.
           ++ right. split; [|done]. unfold set_add. by rewrite Hcn.
        -- right. split; [|done].
           assert (set_contains toString
                     (invDeps (cells (heap (queue w))) d ++ [n]) n = true) as Hcn.
           { apply set_contains_true. exists n. split; [|done].
             rewrite elem_of_app, list_elem_of_singleton. auto. }
           unfold set_add. by rewrite Hcn.
      * destruct (H3 y Hy) as [Ha|[Ha Hb]]; [by left|].
        right. split; [done|]. apply elem_of_set_add. auto.
    + rewrite Hinvd, decide_False by (simpl in *; congruence). done.
Qed.

Lemma coh_enqueue_unfold :
  enqueue (queue w) t =
    let h' := addDependencies (latestComponentStateMap (queue w)) n
                (readSet (metadata t)) h0 in
    mk (if isEligibleForExecution h' n
        then PriorityPartitionedQueue.enqueue getPriority
               (eligibleInstructions (queue w)) n
        else eligibleInstructions (queue w))
       (recordWrites n (writeSet (metadata t))
          (latestComponentStateMap (queue w)))
       (InstructionMerger.introduceInstruction (merger (queue w)) n)
       (Build_Heap h' (S (fresh (heap (queue w))))).
Proof. reflexivity. Qed.

Lemma coh_enqueue :
  Coherent (Build_World (enqueue (queue w) t) (created w ++ [n]) (returned w)).
Proof.
  rewrite coh_enqueue_unfold. cbv zeta.
  destruct (coh_addDependencies_spec (readSet (metadata t))) as (H1 & H2 & H3 & H4).
  set (h' := addDependencies (latestComponentStateMap (queue w)) n
               (readSet (metadata t)) h0) in *.
  pose proof coh_new_not_in_created as HnC.
  pose proof coh_new_not_in_returned as HnR.
  assert (∀ x, x ∈ created w ++ [n] ↔ x ∈ created w ∨ x = n) as Hcr.
  { intros x. by rewrite elem_of_app, list_elem_of_singleton. }
  assert (∀ y, y ∈ deps h' n → y ∈ created w ∧ y ∉ returned w) as H2'.
  { intros y Hy. destruct (H2 y Hy) as (c & _ & HL).
    by destruct (coh_latest w Hcoh c y HL) as (? & ? & _). }
  assert (∀ y, y ∈ created w → ∀ x, x ∈ invDeps h' y →
            x ∈ invDeps (cells (heap (queue w))) y ∨ (x = n ∧ y ∈ deps h' n))
    as Hinv'.
  { intros y Hy x. destruct (H3 y Hy) as [->|[-> Hd]]; [auto|].
    rewrite elem_of_app, list_elem_of_singleton. naive_solver. }
  constructor; cbn [queue created returned heap cells fresh
                     eligibleInstructions latestComponentStateMap merger].
  - rewrite length_app. simpl. rewrite (coh_fresh w Hcoh). lia.
  - intros k x Hk. apply lookup_app_Some in Hk as [Hk|[Hlen Hk]].
    + by apply (coh_iid w Hcoh).
    + apply list_lookup_singleton_Some in Hk as [Hk <-]. simpl.
      rewrite (coh_fresh w Hcoh). lia.
  - intros x y [Hx| ->]%Hcr [Hy| ->]%Hcr Hk.
    + by apply (coh_index w Hcoh).
    + by apply Hfun.
    + symmetry. by apply Hfun.
    + done.
  - intros x Hx. apply Hcr. left. by apply (coh_returned w Hcoh).
  - apply (coh_returned_nodup w Hcoh).
  - intros x y [Hx| ->]%Hcr Hy.
    + rewrite (H1 x Hx) in Hy.
      destruct (coh_deps w Hcoh x y Hx Hy) as (? & ?). rewrite Hcr. auto.
    + destruct (H2' y Hy). rewrite Hcr. auto.
  - intros x y y' [Hx| ->]%Hcr Hy Hy' Hk.
    + rewrite (H1 x Hx) in Hy, Hy'. by apply (coh_deps_keys w Hcoh x).
    + destruct (H2 y Hy) as (c & _ & HL). destruct (H2 y' Hy') as (c' & _ & HL').
      by apply (coh_latest_index w Hcoh c c').
  - intros x y [Hx| ->]%Hcr Hy.
    + rewrite (H1 x Hx) in Hy. by apply (coh_deps_older w Hcoh x y).
    + destruct (H2' y Hy) as [HyC _].
      pose proof (iid_lt _ _ (coh_iid w Hcoh) HyC) as Hlt.
      simpl. rewrite (coh_fresh w Hcoh). done.
  - intros x y [Hy| ->]%Hcr Hx.
    + apply (Hinv' y Hy) in Hx as [Hx|[-> Hd]].
      * destruct (coh_invDeps w Hcoh x y Hy Hx) as (HxC & HyR & Hyx).
        rewrite Hcr. split; [auto|]. split; [done|]. by rewrite (H1 x HxC).
      * rewrite Hcr. split; [auto|]. split; [|done]. by destruct (H2' y Hd).
    + rewrite H4 in Hx. by apply elem_of_nil in Hx.
  - intros y [Hy| ->]%Hcr.
    + destruct (H3 y Hy) as [->|[-> _]]; [by apply (coh_invDeps_nodup w Hcoh)|].
      apply NoDup_app. split; [by apply (coh_invDeps_nodup w Hcoh)|].
      split; [|apply NoDup_singleton].
      intros x Hx. rewrite list_elem_of_singleton. intros ->.
      destruct HnC. by destruct (coh_invDeps w Hcoh n y Hy Hx).
    + rewrite H4. apply NoDup_nil_2.
  - destruct (isEligibleForExecution h' n); [|apply (coh_ppq_wf w Hcoh)].
    apply PriorityPartitionedQueueFacts.enqueue_wf, (coh_ppq_wf w Hcoh).
  - intros p. destruct (isEligibleForExecution h' n);
      [|apply (coh_ppq_nodup w Hcoh)].
    rewrite PriorityPartitionedQueueFacts.subQueue_enqueue.
    case_decide; [|apply (coh_ppq_nodup w Hcoh)].
    apply NoDup_app. split; [apply (coh_ppq_nodup w Hcoh)|].
    split; [|apply NoDup_singleton].
    intros x Hx. rewrite list_elem_of_singleton. intros ->.
    apply (coh_ppq w Hcoh) in Hx as (? & _). by destruct HnC.
  - intros p x.
    assert (x ∈ PriorityPartitionedQueue.subQueue
                  (eligibleInstructions (queue w)) p
            ↔ x ∈ created w ∧ (x ∉ returned w) ∧ deps h' x = [] ∧ getPriority x = p)
      as Hold.
    { rewrite (coh_ppq w Hcoh). split.
      - intros (Hx & ? & ? & ?). by rewrite (H1 x Hx).
      - intros (Hx & ? & ? & ?). by rewrite <- (H1 x Hx). }
    destruct (isEligibleForExecution h' n) eqn:He.
    + apply isEligibleForExecution_true in He.
      rewrite PriorityPartitionedQueueFacts.subQueue_enqueue.
      case_decide as Hp.
      * rewrite elem_of_app, list_elem_of_singleton, Hold, Hcr. naive_solver.
      * rewrite Hold, Hcr. naive_solver.
    + rewrite Hold, Hcr. split; [naive_solver|].
      intros ([Hx| ->] & ? & Hd & ?); [done|].
      apply isEligibleForExecution_true in Hd. congruence.
  - intros c x [[-> Hc]|Hl]%recordWrites_lookup.
    + rewrite Hcr. auto.
    + destruct (coh_latest w Hcoh c x Hl) as (? & ? & ?). rewrite Hcr. auto.
  - assert (∀ c x, recordWrites n (writeSet (metadata t))
                     (latestComponentStateMap (queue w)) !! c = Some x →
                   x ≠ n →
                   latestComponentStateMap (queue w) !! c = Some x ∧
                   c ∉ writeSet (metadata t)) as Hold.
    { intros c x Hl Hne. split.
      - by apply recordWrites_lookup in Hl as [[-> _]|Hl].
      - intros Hc. apply Hne.
        pose proof (recordWrites_member n (writeSet (metadata t))
                      (latestComponentStateMap (queue w)) c Hc) as Hn.
        congruence. }
    intros c c' x x' Hl Hl' Hk.
    destruct (decide (x = n)) as [->|Hxn]; destruct (decide (x' = n)) as [->|Hxn'].
    + done.
    + destruct (Hold c' x' Hl' Hxn') as [HL' Hnw].
      destruct (coh_latest w Hcoh c' x' HL') as (Hx'C & _ & Hw'). destruct Hnw.
      rewrite (Hfun x' Hx'C) in Hw'; [done|]. by rewrite <- Hk.
    + destruct (Hold c x Hl Hxn) as [HL Hnw].
      destruct (coh_latest w Hcoh c x HL) as (HxC & _ & Hw'). destruct Hnw.
      rewrite (Hfun x HxC) in Hw'; [done|]. by rewrite Hk.
    + destruct (Hold c x Hl Hxn) as [HL _]. destruct (Hold c' x' Hl' Hxn') as [HL' _].
      by apply (coh_latest_index w Hcoh c c').
  - simpl. intros s x Hs Hx.
    destruct (elem_of_introduceInto _ _ _ _ _ Hs Hx) as [->|(s0 & Hs0 & Hx0)].
    + rewrite Hcr. auto.
    + destruct (coh_merger w Hcoh s0 x Hs0 Hx0). rewrite Hcr. auto.
  - intros x y [Hx| ->]%Hcr Hy HyR.
    + rewrite (H1 x Hx) in Hy.
      destruct (coh_deps w Hcoh x y Hx Hy) as (HyC & _).
      pose proof (coh_mirror w Hcoh x y Hx Hy HyR) as Hm.
      destruct (H3 y HyC) as [->|[-> _]]; [done|].
      apply set_contains_true in Hm as (z & Hz & Hk). apply set_contains_true.
      exists z. rewrite elem_of_app. auto.
    + apply (addDependencies_inverted _ n _ h0); [|done].
      intros z. unfold h0. rewrite deps_new.
      rewrite (decide_True (P := iid n = _)) by done. by intros ?%elem_of_nil.
Qed.

Lemma coh_enqueue_deps x :
  x ∈ created w →
  deps (cells (heap (enqueue (queue w) t))) x = deps (cells (heap (queue w))) x.
Proof.
  intros Hx. rewrite coh_enqueue_unfold. cbv zeta. cbn [heap cells].
  destruct (coh_addDependencies_spec (readSet (metadata t))) as (H1 & _).
  by apply H1.
Qed.

Lemma coh_enqueue_new_deps c d :
  c ∈ readSet (metadata t) →
  latestComponentStateMap (queue w) !! c = Some d →
  d ∈ deps (cells (heap (enqueue (queue w) t))) n.
Proof.
  intros Hc Hl. rewrite coh_enqueue_unfold. cbv zeta. cbn [heap cells].
  destruct (coh_addDependencies_spec (readSet (metadata t))) as (_ & H2 & _).
  pose proof (addDependencies_contains _ n _ h0 c d Hc Hl) as Hcont.
  apply set_contains_true in Hcont as (y & Hy & Hk).
  assert (y = d) as <-; [|done].
  destruct (H2 y Hy) as (c' & _ & HL').
  by apply (coh_latest_index w Hcoh c' c).
Qed.

Lemma coh_enqueue_new_deps_latest y :
  y ∈ deps (cells (heap (enqueue (queue w) t))) n →
  ∃ c, c ∈ readSet (metadata t) ∧
       latestComponentStateMap (queue w) !! c = Some y.
Proof.
  rewrite coh_enqueue_unfold. cbv zeta. cbn [heap cells].
  destruct (coh_addDependencies_spec (readSet (metadata t))) as (_ & H2 & _).
  apply H2.
Qed.

End CohEnqueue.

Section CohDequeue.
Context (w : World) (Hcoh : Coherent w).
Context (i : TaskInstruction) (E1 : PriorityPartitionedQueue.t TaskInstruction).
Context (p : Z) (rest : list TaskInstruction).
Context (Hhead : PriorityPartitionedQueue.subQueue
                   (eligibleInstructions (queue w)) p = i :: rest).
Context (Htail : ∀ p', PriorityPartitionedQueue.subQueue E1 p' =
                       if decide (p' = p) then rest
                       else PriorityPartitionedQueue.subQueue
                              (eligibleInstructions (queue w)) p').
Context (Hwf1 : PriorityPartitionedQueue.wf getPriority E1).

Let q1 := mk E1 (latestComponentStateMap (queue w)) (merger (queue w))
             (heap (queue w)).

Lemma coh_picked :
  i ∈ created w ∧ (i ∉ returned w) ∧
  deps (cells (heap (queue w))) i = [] ∧ getPriority i = p.
Proof. apply (coh_ppq w Hcoh). rewrite Hhead, elem_of_cons. auto. Qed.

Lemma coh_dependent j :
  j ∈ invDeps (cells (heap (queue w))) i →
  j ∈ created w ∧ (j ∉ returned w) ∧ j ≠ i ∧
  i ∈ deps (cells (heap (queue w))) j.
Proof.
  intros Hj. destruct coh_picked as (HiC & HiR & Hid & _).
  destruct (coh_invDeps w Hcoh j i HiC Hj) as (HjC & _ & Hij).
  destruct (coh_deps w Hcoh j i HjC Hij) as (_ & HjR).
  split; [done|]. split; [done|]. split; [|done].
  intros ->. rewrite Hid in Hij. by apply elem_of_nil in Hij.
Qed.

Lemma coh_tail_elem_of p' x :
  x ∈ PriorityPartitionedQueue.subQueue E1 p' ↔
  x ∈ PriorityPartitionedQueue.subQueue (eligibleInstructions (queue w)) p'
  ∧ x ≠ i.
Proof.
  destruct coh_picked as (_ & _ & _ & Hp).
  rewrite Htail. case_decide as Hpp.
  - subst p'. rewrite Hhead, elem_of_cons.
    pose proof (coh_ppq_nodup w Hcoh p) as Hnd. rewrite Hhead in Hnd.
    apply NoDup_cons in Hnd as [Hni _]. split; [|naive_solver].
    intros Hx. split; [auto|]. by intros ->.
  - split; [|naive_solver]. intros Hx. split; [done|]. intros ->.
    apply (coh_ppq w Hcoh) in Hx as (_ & _ & _ & ?). congruence.
Qed.

(** The dependency sets after the completion of [i]: nothing is added,
    and only [i] is removed. *)
Lemma coh_complete_deps x :
  x ∈ created w →
  (∀ y, y ∈ deps (cells (heap (complete q1 i))) x →
        y ∈ deps (cells (heap (queue w))) x) ∧
  (∀ y, y ∈ deps (cells (heap (queue w))) x → y ≠ i →
        y ∈ deps (cells (heap (complete q1 i))) x) ∧
  (x ∈ invDeps (cells (heap (queue w))) i →
   i ∉ deps (cells (heap (complete q1 i))) x) ∧
  (deps (cells (heap (complete q1 i))) x = [] →
   x ∉ invDeps (cells (heap (queue w))) i →
   deps (cells (heap (queue w))) x = []) ∧
  (x ∈ invDeps (cells (heap (queue w))) i →
   deps (cells (heap (complete q1 i))) x =
     set_remove toString (deps (cells (heap (queue w))) x) i).
Proof.
  intros Hx. rewrite complete_unfold. cbv zeta.
  destruct coh_picked as (HiC & HiR & Hid & Hip).
  pose proof coh_dependent as Hdep.
  unfold q1. cbn [heap eligibleInstructions latestComponentStateMap merger cells].
  destruct (releaseDependents_spec (created w) (cells (heap (queue w))) E1 i
              (invDeps (cells (heap (queue w))) i)
              (coh_iid w Hcoh)
              (λ x Hx, proj1 (Hdep x Hx))
              (coh_invDeps_nodup w Hcoh i HiC) Hwf1) as (H1 & _).
  rewrite deps_setInvDeps, (H1 x Hx). case_bool_decide as Hds.
  - destruct (Hdep x Hds) as (_ & _ & _ & Hix).
    split; [|split; [|split; [|split]]].
    + intros y [Hy _]%elem_of_set_remove. done.
    + intros y Hy Hne. apply elem_of_set_remove. split; [done|].
      intros Hk. apply Hne. by apply (coh_deps_keys w Hcoh x y i).
    + intros _ [_ Hne]%elem_of_set_remove. done.
    + done.
    + done.
  - split; [|split; [|split; [|split]]]; done.
Qed.

Lemma coh_complete :
  Coherent (Build_World (complete q1 i) (created w) (returned w ++ [i])).
Proof.
  destruct coh_picked as (HiC & HiR & Hid & Hip).
  pose proof coh_dependent as Hdep.
  pose proof coh_complete_deps as Hk. revert Hk.
  rewrite complete_unfold. cbv zeta.
  unfold q1. cbn [heap eligibleInstructions latestComponentStateMap merger cells].
  destruct (releaseDependents_spec (created w) (cells (heap (queue w))) E1 i
              (invDeps (cells (heap (queue w))) i)
              (coh_iid w Hcoh)
              (λ x Hx, proj1 (Hdep x Hx))
              (coh_invDeps_nodup w Hcoh i HiC) Hwf1) as (_ & H2 & H3 & H4).
  set (rel := releaseDependents i (invDeps (cells (heap (queue w))) i)
                (cells (heap (queue w)), E1)) in *.
  intros Hk.
  assert (∀ x, x ∈ returned w ++ [i] ↔ x ∈ returned w ∨ x = i) as Hret.
  { intros x. by rewrite elem_of_app, list_elem_of_singleton. }
  constructor; cbn [queue created returned heap cells fresh
                     eligibleInstructions latestComponentStateMap merger].
  - apply (coh_fresh w Hcoh).
  - apply (coh_iid w Hcoh).
  - apply (coh_index w Hcoh).
  - intros x [Hx| ->]%Hret; [by apply (coh_returned w Hcoh)|done].
  - apply NoDup_app. split; [apply (coh_returned_nodup w Hcoh)|].
    split; [|apply NoDup_singleton].
    intros x Hx. rewrite list_elem_of_singleton. by intros ->.
  - intros x y Hx Hy. destruct (Hk x Hx) as (Hsub & _).
    apply Hsub in Hy. destruct (coh_deps w Hcoh x y Hx Hy) as (? & ?).
    split; [done|]. rewrite Hret. intros [?| ->]; [done|].
    rewrite Hid in Hy. by apply elem_of_nil in Hy.
  - intros x y y' Hx Hy Hy' Hkey. destruct (Hk x Hx) as (Hsub & _).
    apply (coh_deps_keys w Hcoh x y y' Hx); [by apply Hsub|by apply Hsub|done].
  - intros x y Hx Hy. destruct (Hk x Hx) as (Hsub & _).
    apply (coh_deps_older w Hcoh x y Hx). by apply Hsub.
  - intros x y Hy. rewrite invDeps_setInvDeps, H2. case_decide as Hyi.
    { by intros ?%elem_of_nil. }
    intros Hxy. destruct (coh_invDeps w Hcoh x y Hy Hxy) as (HxC & HyR & Hyx).
    assert (y ≠ i) as Hne by (by intros ->).
    split; [done|]. split; [rewrite Hret; naive_solver|].
    destruct (Hk x HxC) as (_ & Hkeep & _). by apply Hkeep.
  - intros y Hy. rewrite invDeps_setInvDeps, H2. case_decide.
    + apply NoDup_nil_2.
    + by apply (coh_invDeps_nodup w Hcoh).
  - done.
  - intros p'. rewrite H4. apply NoDup_app. split; [|split].
    + rewrite Htail. case_decide.
      * pose proof (coh_ppq_nodup w Hcoh p) as Hnd. rewrite Hhead in Hnd.
        by apply NoDup_cons in Hnd as [_ ?].
      * apply (coh_ppq_nodup w Hcoh).
    + intros x [Hx _]%coh_tail_elem_of [_ Hds]%list_elem_of_filter.
      apply (coh_ppq w Hcoh) in Hx as (_ & _ & Hd & _).
      destruct (Hdep x Hds) as (_ & _ & _ & Hix).
      rewrite Hd in Hix. by apply elem_of_nil in Hix.
    + apply NoDup_filter, (coh_invDeps_nodup w Hcoh i HiC).
  - intros p' x. rewrite H4, elem_of_app, coh_tail_elem_of, (coh_ppq w Hcoh).
    unfold released. rewrite list_elem_of_filter, Hret.
    split.
    + intros [((Hx & HxR & Hd & Hp) & Hne)|((Hd & Hp) & Hds)].
      * split; [done|]. split; [naive_solver|]. split; [|done].
        destruct (deps (setInvDeps rel.1 i []) x) as [|y l] eqn:E; [done|].
        destruct (Hk x Hx) as (Hsub & _).
        assert (y ∈ deps (cells (heap (queue w))) x) as Hy.
        { apply Hsub. rewrite E, elem_of_cons. auto. }
        rewrite Hd in Hy. by apply elem_of_nil in Hy.
      * destruct (Hdep x Hds) as (Hx & HxR & Hne & _).
        split; [done|]. split; [naive_solver|]. split; [|done].
        destruct (Hk x Hx) as (_ & _ & _ & _ & Heq).
        rewrite (Heq Hds). done.
    + intros (Hx & HxR & Hd & Hp).
      destruct (Hk x Hx) as (_ & _ & _ & Hnil & Heq).
      destruct (decide (x ∈ invDeps (cells (heap (queue w))) i)) as [Hds|Hds].
      * right. split; [|done]. split; [|done]. by rewrite <- (Heq Hds).
      * left. assert (x ≠ i) as Hne by naive_solver.
        split; [|done]. split; [done|]. split; [naive_solver|].
        split; [|done]. by apply Hnil.
  - intros c x [Hl Hn]%forgetWrites_lookup.
    destruct (coh_latest w Hcoh c x Hl) as (HxC & HxR & Hc).
    split; [done|]. split; [|done]. rewrite Hret. intros [?| ->]; [done|].
    by apply Hn.
  - intros c c' x x' [Hl _]%forgetWrites_lookup [Hl' _]%forgetWrites_lookup.
    by apply (coh_latest_index w Hcoh c c').
  - intros s x Hs Hx.
    destruct (elem_of_completeInstruction _ _ _ _ Hs Hx)
      as (Hne & s0 & Hs0 & Hx0).
    destruct (coh_merger w Hcoh s0 x Hs0 Hx0) as [HxC HxR].
    split; [done|]. rewrite Hret. intros [?| ->]; done.
  - intros x y Hx Hy HyR. destruct (Hk x Hx) as (Hsub & _). apply Hsub in Hy.
    destruct (coh_deps w Hcoh x y Hx Hy) as (HyC & _).
    rewrite invDeps_setInvDeps, H2. rewrite Hret in HyR.
    rewrite decide_False.
    + apply (coh_mirror w Hcoh x y Hx Hy). naive_solver.
    + intros Hyi. apply HyR. right.
      by eapply iid_inj; [apply (coh_iid w Hcoh)|..].
Qed.

End CohDequeue.

Lemma coh_initial : Coherent initialWorld.
Proof.
  constructor; simpl; try done.
  - by intros x y ?%elem_of_nil.
  - apply NoDup_nil_2.
  - by intros x y ?%elem_of_nil.
  - by intros x y y' ?%elem_of_nil.
  - by intros x y ?%elem_of_nil.
  - by intros x y ?%elem_of_nil.
  - by intros y ?%elem_of_nil.
  - apply PriorityPartitionedQueueFacts.queue_new_wf.
  - intros p. apply NoDup_nil_2.
  - intros p x. unfold PriorityPartitionedQueue.subQueue. simpl.
    rewrite lookup_empty. simpl. split; [by intros ?%elem_of_nil|].
    by intros [?%elem_of_nil _].
  - by intros s x ?%elem_of_nil.
Qed.

Lemma coh_step fuel w op w' :
  Coherent w → step fuel w op = Some w' →
  (∀ x y, x ∈ created w' → y ∈ created w' →
          toString x = toString y → task x = task y) →
  Coherent w'.
Proof.
  intros Hcoh Hs Hfun. destruct op as [t| |r]; simpl in Hs.
  - injection Hs as <-. apply coh_enqueue; [done|].
    intros x Hx Hk. simpl in Hfun.
    apply (Hfun x (Build_TaskInstruction (fresh (heap (queue w))) t)).
    + rewrite elem_of_app. auto.
    + rewrite elem_of_app, list_elem_of_singleton. auto.
    + done.
  - destruct (dequeueInstruction fuel (queue w)) as [[r q]|] eqn:Hd; [|done].
    apply TraceFacts.dequeueInstruction_inv in Hd
      as [(_ & -> & ->)|(He & i & E1 & Hd & -> & ->)].
    + injection Hs as <-. by destruct w.
    + injection Hs as <-.
      pose proof (PriorityPartitionedQueueFacts.dequeue_spec _ _ _ _ Hd) as Hsp.
      unfold isEmpty in He. rewrite He in Hsp.
      destruct Hsp as (x & p & rest & [= <-] & Hhead & Htail & _).
      eapply coh_complete; [done|apply Hhead|apply Htail|].
      eapply PriorityPartitionedQueueFacts.dequeue_wf;
        [apply (coh_ppq_wf w Hcoh)|apply Hd].
  - injection Hs as <-. destruct Hcoh. constructor; simpl; try done.
    intros s x [Hs|Hs]%elem_of_app Hx; [by eapply coh_merger0|].
    apply list_elem_of_singleton in Hs as ->. by apply elem_of_nil in Hx.
Qed.

Lemma step_created_incl fuel w op w' x :
  step fuel w op = Some w' → x ∈ created w → x ∈ created w'.
Proof.
  destruct op as [t| |r]; simpl.
  - intros [= <-] Hx. simpl. rewrite elem_of_app. auto.
  - destruct (dequeueInstruction fuel (queue w))
      as [[[j|] q]|]; [| |done]; by intros [= <-].
  - by intros [= <-].
Qed.

Lemma run_created_incl fuel w ops w' x :
  run fuel w ops = Some w' → x ∈ created w → x ∈ created w'.
Proof.
  revert w. induction ops as [|op ops IH]; intros w Hr Hx; simpl in Hr.
  - by injection Hr as <-.
  - destruct (step fuel w op) as [w1|] eqn:Hs; [|done].
    apply (IH w1); [done|]. by eapply step_created_incl.
Qed.

Lemma coh_run fuel w ops w' :
  Coherent w → run fuel w ops = Some w' →
  (∀ x y, x ∈ created w' → y ∈ created w' →
          toString x = toString y → task x = task y) →
  Coherent w'.
Proof.
  revert w. induction ops as [|op ops IH]; intros w Hcoh; simpl.
  - by intros [= <-].
  - destruct (step fuel w op) as [w1|] eqn:Hs; [|done]. intros Hr Hfun.
    apply (IH w1); [|done|done].
    apply (coh_step fuel w op); [done|done|].
    intros x y Hx Hy. apply Hfun; by eapply run_created_incl.
Qed.

Lemma created_indexed fuel ops w :
  run fuel initialWorld ops = Some w → indexedTasks ops →
  ∀ x y, x ∈ created w → y ∈ created w →
         toString x = toString y → task x = task y.
Proof.
  intros Hr Hi x y Hx Hy Hk.
  pose proof (TraceFacts.run_created _ _ _ _ Hr) as Hc. simpl in Hc.
  apply Hi; [| |done]; rewrite <- Hc; apply list_elem_of_fmap; eauto.
Qed.

Lemma coh_reachable fuel ops w :
  run fuel initialWorld ops = Some w → indexedTasks ops → Coherent w.
Proof.
  intros Hr Hi. apply (coh_run fuel initialWorld ops); [apply coh_initial|done|].
  by eapply created_indexed.
Qed.

End CoherenceFacts.

(** ** The elements of the priority-partitioned queue *)

Section Elements.
Context {T : Type} (getPriority : T → Z).

Lemma elem_of_elements (q : PriorityPartitionedQueue.t T) x :
  x ∈ PriorityPartitionedQueue.elements q ↔
  ∃ p, x ∈ PriorityPartitionedQueue.subQueue q p.
Proof.
  unfold PriorityPartitionedQueue.elements, PriorityPartitionedQueue.subQueue.
  rewrite list_elem_of_join. split.
  - intros (l & Hx & Hl). apply list_elem_of_fmap in Hl as ([p l'] & -> & Hpl).
    apply elem_of_map_to_list in Hpl. exists p. by rewrite Hpl.
  - intros (p & Hx).
    destruct (PriorityPartitionedQueue.subQueues q !! p) as [l|] eqn:E;
      simpl in Hx; [|by apply elem_of_nil in Hx].
    exists l. split; [done|]. apply list_elem_of_fmap. exists (p, l).
    split; [done|]. by apply elem_of_map_to_list.
Qed.

Lemma NoDup_join_keyed (kls : list (Z * list T)) :
  NoDup kls.*1 →
  (∀ k l, (k, l) ∈ kls → NoDup l ∧ ∀ x, x ∈ l → getPriority x = k) →
  NoDup (mjoin kls.*2).
Proof.
  induction kls as [|[k l] kls IH]; simpl; intros Hk Hall.
  - apply NoDup_nil_2.
  - apply NoDup_cons in Hk as [Hk Hks].
    apply NoDup_app. split; [|split].
    + apply (Hall k l). rewrite elem_of_cons. auto.
    + intros x Hx Hx'. apply list_elem_of_join in Hx' as (l' & Hx' & Hl').
      apply list_elem_of_fmap in Hl' as ([k' l''] & -> & Hkl).
      assert (getPriority x = k) as Hxk.
      { eapply (Hall k l); [rewrite elem_of_cons; auto|done]. }
      assert (getPriority x = k') as Hxk'.
      { eapply (Hall k' l''); [rewrite elem_of_cons; auto|done]. }
      apply Hk. apply list_elem_of_fmap. exists (k', l''). split; [|done].
      simpl. congruence.
    + apply IH; [done|]. intros k' l' Hkl. apply Hall.
      rewrite elem_of_cons. auto.
Qed.

Lemma NoDup_elements (q : PriorityPartitionedQueue.t T) :
  (∀ p, NoDup (PriorityPartitionedQueue.subQueue q p)) →
  (∀ p x, x ∈ PriorityPartitionedQueue.subQueue q p → getPriority x = p) →
  NoDup (PriorityPartitionedQueue.elements q).
Proof.
  intros Hnd Hp. unfold PriorityPartitionedQueue.elements.
  apply NoDup_join_keyed; [apply NoDup_fst_map_to_list|].
  intros k l Hkl%elem_of_map_to_list.
  specialize (Hnd k). specialize (Hp k).
  unfold PriorityPartitionedQueue.subQueue in Hnd, Hp.
  rewrite Hkl in Hnd, Hp. done.
Qed.

End Elements.

(** * The claims *)

(** ** The priority generator's cycle *)

Lemma runCalls_wf history g :
  PriorityGenerator.wf g →
  PriorityGenerator.wf (PriorityGenerator.runCalls history g).2.
Proof.
  revert g. induction history as [|[p|] history IH]; intros g Hg; simpl.
  - done.
  - apply IH. by apply PriorityGeneratorFacts.notifyPriorityExists_wf.
  - pose proof (PriorityGeneratorFacts.next_wf g Hg) as Hn.
    destruct (PriorityGenerator.next g) as [p g1].
    specialize (IH g1 Hn). by destruct (PriorityGenerator.runCalls history g1).
Qed.

Lemma cycle_length (n : Z) :
  0 ≤ n →
  Z.to_nat ((n + 1) * (n + 2) / 2) =
    PriorityGenerator.sweepSteps 0 (S (Z.to_nat n)).
Proof.
  intros Hn.
  pose proof (PriorityGeneratorFacts.sweepSteps_closed 0 (S (Z.to_nat n))) as Hc.
  assert ((n + 1) * (n + 2) =
          Z.of_nat (PriorityGenerator.sweepSteps 0 (S (Z.to_nat n))) * 2) as ->
    by nia.
  rewrite Z.div_mul by done. lia.
Qed.

Lemma runCalls_bounded history g :
  Double.bounded (PriorityGenerator.min g) →
  Double.bounded (PriorityGenerator.max g) →
  Forall Double.bounded (PriorityGenerator.notifiedPriorities history) →
  Double.bounded (PriorityGenerator.min (PriorityGenerator.runCalls history g).2) ∧
  Double.bounded (PriorityGenerator.max (PriorityGenerator.runCalls history g).2).
Proof.
  revert g. induction history as [|[p|] history IH]; intros g Hmin Hmax Hall.
  - done.
  - cbn [PriorityGenerator.notifiedPriorities flat_map app] in Hall.
    apply Forall_cons in Hall as [Hp Hall].
    cbn [PriorityGenerator.runCalls]. apply IH; [| |done].
    all: unfold PriorityGenerator.notifyPriorityExists, Double.bounded in *.
    all: case_bool_decide; simpl; lia.
  - cbn [PriorityGenerator.runCalls].
    pose proof (PriorityGeneratorFacts.next_window g) as [Hmin1 Hmax1].
    destruct (PriorityGenerator.next g) as [p g1]. cbn [fst snd] in *.
    specialize (IH g1). rewrite Hmin1, Hmax1 in IH.
    specialize (IH Hmin Hmax Hall).
    by destruct (PriorityGenerator.runCalls history g1).
Qed.

(** C5, as the code has it.  Whatever calls a generator has received, as
    long as every priority it was notified of lies from [-2^53] to [2^53],
    [length] successive calls of [next], with
    [length = (max - min + 1) * (max - min + 2) / 2], bring the generator
    back to its state, return each priority [i] of [min .. max] exactly
    [i - min + 1] times and return no other priority; the calls on doubles
    are the calls with the exact decrement.  The generator's state and the
    priorities it returns are functions of the history of calls
    ([runCalls]). *)
Theorem priority_generator_cycle (history : list PriorityGenerator.Call) :
  Forall Double.bounded (PriorityGenerator.notifiedPriorities history) →
  let g := PriorityGenerator.after history in
  let min := PriorityGenerator.min g in
  let max := PriorityGenerator.max g in
  let length := (max - min + 1) * (max - min + 2) / 2 in
  ∃ ps,
    Double.nexts (Z.to_nat length) g = (ps, g) ∧
    PriorityGenerator.nexts (Z.to_nat length) g = (ps, g) ∧
    Z.of_nat (List.length ps) = length ∧
    (∀ i, min ≤ i ≤ max →
          Z.of_nat (count_occ Z.eq_dec ps i) = i - min + 1) ∧
    (∀ i, i ∈ ps → min ≤ i ≤ max).
Proof.
  intros Hbounded g mn mx len.
  assert (PriorityGenerator.wf g) as Hg
    by apply runCalls_wf, PriorityGeneratorFacts.generator_new_wf.
  destruct (runCalls_bounded history PriorityGenerator.new) as [Hbmin Hbmax];
    [by compute|by compute|done|]. fold (PriorityGenerator.after history) in *.
  fold g in Hbmin, Hbmax.
  pose proof Hg as (H1 & H2 & H3). fold mn mx in H1, H3.
  assert (0 ≤ mx - mn) as Hn by lia.
  unfold len. rewrite (cycle_length (mx - mn) Hn).
  destruct (PriorityGeneratorFacts.nexts_cycle g Hg) as [Hst Hcount].
  fold mn mx in Hst, Hcount.
  set (n := PriorityGenerator.sweepSteps 0 (S (Z.to_nat (mx - mn)))) in *.
  exists (PriorityGenerator.nexts n g).1.
  assert (PriorityGenerator.nexts n g = ((PriorityGenerator.nexts n g).1, g))
    as Hcycle.
  { rewrite <- Hst at 3. by destruct (PriorityGenerator.nexts n g). }
  split; [|split; [|split; [|split]]].
  - by rewrite DoubleFacts.double_nexts_exact.
  - done.
  - rewrite PriorityGeneratorFacts.nexts_length. unfold n.
    rewrite <- (cycle_length (mx - mn) Hn). rewrite Z2Nat.id; [done|].
    apply Z.div_pos; nia.
  - intros i Hi. rewrite Hcount.
    rewrite PriorityGeneratorFacts.count_occ_sweeps by lia. lia.
  - intros i Hin.
    assert (count_occ Z.eq_dec (PriorityGenerator.nexts n g).1 i > 0)%nat as Hc.
    { apply count_occ_In. by apply list_elem_of_In. }
    rewrite Hcount in Hc. apply count_occ_In in Hc.
    apply PriorityGeneratorFacts.In_sweeps in Hc. lia.
Qed.

Lemma priority_generator_cycle_witness :
  let history :=
    [PriorityGenerator.NotifyPriorityExists 2; PriorityGenerator.Next;
     PriorityGenerator.NotifyPriorityExists (-1); PriorityGenerator.Next] in
  let g := PriorityGenerator.after history in
  ∃ ps,
    Double.nexts 10 g = (ps, g) ∧
    PriorityGenerator.nexts 10 g = (ps, g) ∧
    Z.of_nat (List.length ps) = 10 ∧
    (∀ i, -1 ≤ i ≤ 2 → Z.of_nat (count_occ Z.eq_dec ps i) = i - -1 + 1) ∧
    (∀ i, i ∈ ps → -1 ≤ i ≤ 2).
Proof.
  intros history g.
  apply (priority_generator_cycle history).
  unfold history. cbn [PriorityGenerator.notifiedPriorities flat_map app].
  repeat constructor; unfold Double.bounded; lia.
Defined.

(** C5 as stated fails when a priority lies beyond [2^53]: after
    [notifyPriorityExists (2^53 + 4)] the window is [0 .. 2^53 + 4];
    [frontier--] leaves [2^53 + 4], the double nearest to [2^53 + 3], so
    that every call of [next] returns [2^53 + 4] and leaves the state as it
    was: whatever the number of calls, priority 0 of the window is not
    returned once. *)
Lemma priority_generator_cycle_fails_beyond_2_53 :
  let g := PriorityGenerator.after
             [PriorityGenerator.NotifyPriorityExists (2 ^ 53 + 4)] in
  PriorityGenerator.min g = 0 ∧
  PriorityGenerator.max g = 2 ^ 53 + 4 ∧
  ∀ n, Double.nexts n g = (replicate n (2 ^ 53 + 4), g) ∧
       count_occ Z.eq_dec (Double.nexts n g).1 0 = 0%nat.
Proof.
  intros g. split; [reflexivity|]. split; [reflexivity|].
  assert (Double.next g = (2 ^ 53 + 4, g)) as Hnext by (vm_compute; reflexivity).
  assert (∀ n, Double.nexts n g = (replicate n (2 ^ 53 + 4), g)) as Hall.
  { induction n as [|n IH]; [done|].
    cbn [Double.nexts replicate]. by rewrite Hnext, IH. }
  intros n. split; [done|]. rewrite Hall. cbn [fst].
  induction n as [|n IH]; [done|].
  cbn [replicate]. rewrite count_occ_cons_neq; [done|].
  by vm_compute.
Qed.

(** ** Termination of the loop of the priority-partitioned queue *)

Lemma reachable_wf {T} (getPriority : T → Z) (q : PriorityPartitionedQueue.t T) :
  PriorityPartitionedQueue.reachable getPriority q →
  PriorityPartitionedQueue.wf getPriority q.
Proof.
  induction 1 as [|q v _ IH|q fuel r q' _ IH Hd].
  - apply PriorityPartitionedQueueFacts.queue_new_wf.
  - by apply PriorityPartitionedQueueFacts.enqueue_wf.
  - by eapply PriorityPartitionedQueueFacts.dequeue_wf.
Qed.

(** C8, as the code has it.  In every state a priority-partitioned queue
    reaches through [enqueue] and [dequeue], as long as the window of its
    generator lies from [-2^53] to [2^53] (every priority enqueued so far
    does), if [isEmpty] is false then the loop of [dequeue] ends: with
    [enoughFuel q] iterations or more, [dequeue] returns an element and a
    new state, on doubles as with the exact decrement. *)
Theorem ppq_dequeue_terminates {T} (getPriority : T → Z)
    (q : PriorityPartitionedQueue.t T) :
  PriorityPartitionedQueue.reachable getPriority q →
  Double.bounded
    (PriorityGenerator.min (PriorityPartitionedQueue.priorityGen q)) →
  Double.bounded
    (PriorityGenerator.max (PriorityPartitionedQueue.priorityGen q)) →
  PriorityPartitionedQueue.isEmpty q = false →
  ∀ fuel, (PriorityPartitionedQueue.enoughFuel q ≤ fuel)%nat →
    ∃ x q', Double.dequeue fuel q = Some (Some x, q') ∧
            PriorityPartitionedQueue.dequeue fuel q = Some (Some x, q').
Proof.
  intros Hreach Hmin Hmax He fuel Hfuel.
  pose proof (reachable_wf _ _ Hreach) as Hwf.
  destruct (PriorityPartitionedQueueFacts.dequeue_terminates getPriority fuel q
              Hwf Hfuel) as (r & q' & Hd & Hr).
  destruct (Hr He) as [x ->]. exists x, q'. split; [|done].
  destruct Hwf as (Hg & _). by rewrite DoubleFacts.double_dequeue_exact.
Qed.

Lemma ppq_dequeue_terminates_witness :
  let q := PriorityPartitionedQueue.enqueue id
             (PriorityPartitionedQueue.enqueue id PriorityPartitionedQueue.new 0) 3 in
  ∃ x q', Double.dequeue (PriorityPartitionedQueue.enoughFuel q) q
            = Some (Some x, q') ∧
          PriorityPartitionedQueue.dequeue
            (PriorityPartitionedQueue.enoughFuel q) q = Some (Some x, q').
Proof.
  intros q.
  apply (ppq_dequeue_terminates id q).
  - do 2 apply PriorityPartitionedQueue.reachable_enqueue.
    apply PriorityPartitionedQueue.reachable_new.
  - by vm_compute.
  - by vm_compute.
  - vm_compute. reflexivity.
  - lia.
Defined.

(** C8 as stated fails when a priority lies beyond [2^53]: after
    [enqueue] of a value of priority [2^53 + 4], [dequeue], which returns
    it, and [enqueue] of a value of priority 0, the queue is not empty and
    the loop of [dequeue] does not end: [frontier--] leaves [2^53 + 4], so
    that [next] returns [2^53 + 4] for ever, and the sub-queue of that
    priority is empty. *)
Lemma ppq_dequeue_diverges_beyond_2_53 :
  let big := 2 ^ 53 + 4 in
  ∃ q1 q,
    Double.dequeue 1
      (PriorityPartitionedQueue.enqueue id PriorityPartitionedQueue.new big)
      = Some (Some big, q1) ∧
    q = PriorityPartitionedQueue.enqueue id q1 0 ∧
    PriorityPartitionedQueue.subQueue q 0 = [0] ∧
    PriorityPartitionedQueue.isEmpty q = false ∧
    ∀ fuel, Double.dequeue fuel q = None.
Proof.
  intros big. eexists. eexists.
  split; [vm_compute; reflexivity|]. split; [reflexivity|].
  split; [vm_compute; reflexivity|]. split; [vm_compute; reflexivity|].
  intros fuel. unfold Double.dequeue.
  match goal with
  | |- context [PriorityPartitionedQueue.isEmpty ?q] =>
      replace (PriorityPartitionedQueue.isEmpty q) with false
        by (vm_compute; reflexivity);
      set (sq := PriorityPartitionedQueue.subQueues q);
      set (gen := PriorityPartitionedQueue.priorityGen q)
  end.
  assert (Double.next gen = (big, gen)) as Hnext by (vm_compute; reflexivity).
  assert (PriorityPartitionedQueue.getValue sq big = ([], sq)) as Hget
    by (vm_compute; reflexivity).
  assert (Double.pick fuel sq gen = None) as ->; [|done].
  induction fuel as [|fuel IH]; [done|].
  cbn [Double.pick]. by rewrite Hnext, Hget.
Qed.

(** ** Dequeue on an empty queue *)

(** C10.  When [isEmpty] holds, [dequeue] returns [undefined] and the
    queue it leaves is the queue it was given: sub-queues, counter,
    priority generator, instruction objects, latest-writer map and
    interest sets are the same. *)
Theorem dequeue_empty_unchanged (fuel : nat) (q : ModelTaskQueue.t) :
  ModelTaskQueue.isEmpty q = true →
  ModelTaskQueue.dequeue fuel q = Some (None, q).
Proof.
  intros He. unfold ModelTaskQueue.dequeue, ModelTaskQueue.dequeueInstruction.
  unfold ModelTaskQueue.isEmpty in He.
  rewrite PriorityPartitionedQueueFacts.dequeue_empty by done.
  by destruct q.
Qed.

Lemma dequeue_empty_unchanged_witness :
  ModelTaskQueue.isEmpty ModelTaskQueue.new = true ∧
  ModelTaskQueue.dequeue 0 ModelTaskQueue.new = Some (None, ModelTaskQueue.new).
Proof.
  split; [reflexivity|]. apply dequeue_empty_unchanged. reflexivity.
Defined.

(** ** Invariants of the dependency graph and of the ready queue *)

Lemma NoDup_created w : Coherent w → NoDup (created w).
Proof.
  intros Hcoh. apply NoDup_alt. intros k k' x Hk Hk'.
  rewrite <- (coh_iid w Hcoh k x Hk). by apply (coh_iid w Hcoh).
Qed.

Lemma elem_of_live w x : x ∈ live w ↔ x ∈ created w ∧ x ∉ returned w.
Proof. unfold live. rewrite list_elem_of_filter. naive_solver. Qed.

Lemma distinctTasks_indexedTasks ops : distinctTasks ops → indexedTasks ops.
Proof.
  unfold distinctTasks. intros Hnd t t' Ht Ht' Hi.
  apply list_elem_of_lookup in Ht as [k Hk], Ht' as [k' Hk'].
  assert (k = k') as ->; [|congruence].
  eapply NoDup_lookup; [done| |].
  - rewrite list_lookup_fmap, Hk. done.
  - rewrite list_lookup_fmap, Hk'. simpl. by rewrite Hi.
Qed.

Lemma created_keys fuel ops w :
  run fuel initialWorld ops = Some w → distinctTasks ops →
  NoDup (TaskInstruction.toString <$> created w).
Proof.
  intros Hrun Hd. pose proof (TraceFacts.run_created _ _ _ _ Hrun) as Hc.
  simpl in Hc. by rewrite TraceFacts.toString_fmap, Hc.
Qed.

(** C3.  After every trace of enqueue, dequeue and registerRewriter (the
    index of a task identifying it, a task being enqueued any number of
    times), the instructions stored in the priority-partitioned queue are,
    as a multiset, the live instructions (made and not yet dequeued) whose
    dependency set is empty. *)
Theorem ready_set_equals_eligibility (fuel : nat) (ops : list Op) (w : World) :
  run fuel initialWorld ops = Some w →
  indexedTasks ops →
  PriorityPartitionedQueue.elements
    (ModelTaskQueue.eligibleInstructions (queue w))
  ≡ₚ filter (λ i, TaskInstruction.deps
                    (cells (ModelTaskQueue.heap (queue w))) i = [])
            (live w).
Proof.
  intros Hrun Hd.
  pose proof (CoherenceFacts.coh_reachable fuel ops w Hrun Hd) as Hcoh.
  apply NoDup_Permutation.
  - apply (NoDup_elements TaskInstruction.getPriority).
    + apply (coh_ppq_nodup w Hcoh).
    + intros p x Hx. by apply (coh_ppq w Hcoh) in Hx as (_ & _ & _ & ?).
  - apply NoDup_filter. unfold live. apply NoDup_filter. by apply NoDup_created.
  - intros x. rewrite elem_of_elements, list_elem_of_filter, elem_of_live. split.
    + intros (p & Hx). apply (coh_ppq w Hcoh) in Hx. naive_solver.
    + intros (Hdeps & Hc & Hr). exists (TaskInstruction.getPriority x).
      by apply (coh_ppq w Hcoh).
Qed.

Lemma ready_set_equals_eligibility_witness :
  ∃ w,
    run 8 initialWorld
      [Enqueue (mkTask 0 [] [7%nat] 0); Enqueue (mkTask 1 [7%nat] [] 5);
       Enqueue (mkTask 2 [] [] 3); Enqueue (mkTask 1 [7%nat] [] 5);
       Dequeue] = Some w ∧
    PriorityPartitionedQueue.elements
      (ModelTaskQueue.eligibleInstructions (queue w))
    ≡ₚ filter (λ i, TaskInstruction.deps
                      (cells (ModelTaskQueue.heap (queue w))) i = [])
              (live w).
Proof.
  eexists. split; [vm_compute; reflexivity|].
  apply (ready_set_equals_eligibility 8
           [Enqueue (mkTask 0 [] [7%nat] 0); Enqueue (mkTask 1 [7%nat] [] 5);
            Enqueue (mkTask 2 [] [] 3); Enqueue (mkTask 1 [7%nat] [] 5);
            Dequeue]).
  - vm_compute. reflexivity.
  - compute_done.
Defined.

(** Where the mirror of the two sets holds.  After every trace of enqueue,
    dequeue and registerRewriter (the index of a task identifying it), for
    live instructions [I] and [J]: if [I] is in the inverted dependency set
    of [J] then [J] is in the dependency set of [I]; if [J] is in the
    dependency set of [I] then the inverted dependency set of [J]
    [contains] [I], that is, holds an instruction of the key of [I]; and
    when the trace enqueues no task twice, [J] is in the dependency set of
    [I] exactly when [I] is in the inverted dependency set of [J]. *)
Theorem dependency_mirror (fuel : nat) (ops : list Op) (w : World) :
  run fuel initialWorld ops = Some w →
  indexedTasks ops →
  ∀ I J, I ∈ live w → J ∈ live w →
    (I ∈ TaskInstruction.invDeps (cells (ModelTaskQueue.heap (queue w))) J →
     J ∈ TaskInstruction.deps (cells (ModelTaskQueue.heap (queue w))) I) ∧
    (J ∈ TaskInstruction.deps (cells (ModelTaskQueue.heap (queue w))) I →
     set_contains TaskInstruction.toString
       (TaskInstruction.invDeps (cells (ModelTaskQueue.heap (queue w))) J) I
     = true) ∧
    (distinctTasks ops →
     J ∈ TaskInstruction.deps (cells (ModelTaskQueue.heap (queue w))) I
     ↔ I ∈ TaskInstruction.invDeps (cells (ModelTaskQueue.heap (queue w))) J).
Proof.
  intros Hrun Hd I J [HI HIr]%elem_of_live [HJ HJr]%elem_of_live.
  pose proof (CoherenceFacts.coh_reachable fuel ops w Hrun Hd) as Hcoh.
  split; [|split].
  - intros HIJ. by destruct (coh_invDeps w Hcoh I J HJ HIJ) as (_ & _ & ?).
  - intros HJI. by apply (coh_mirror w Hcoh).
  - intros Hdist. split.
    + intros HJI.
      pose proof (coh_mirror w Hcoh I J HI HJI HJr) as Hm.
      apply set_contains_true in Hm as (z & Hz & Hk).
      destruct (coh_invDeps w Hcoh z J HJ Hz) as (HzC & _ & _).
      assert (z = I) as <-; [|done].
      by eapply ModelTaskQueueFacts.key_inj; [eapply created_keys|..].
    + intros HIJ. by destruct (coh_invDeps w Hcoh I J HJ HIJ) as (_ & _ & ?).
Qed.

Lemma dependency_mirror_witness :
  let I := Build_TaskInstruction 1 (mkTask 1 [7%nat] [] 5) in
  let J := Build_TaskInstruction 0 (mkTask 0 [] [7%nat] 0) in
  ∃ w,
    run 8 initialWorld
      [Enqueue (mkTask 0 [] [7%nat] 0); Enqueue (mkTask 1 [7%nat] [] 5)]
      = Some w ∧
    I ∈ live w ∧ J ∈ live w ∧
    J ∈ TaskInstruction.deps (cells (ModelTaskQueue.heap (queue w))) I ∧
    (I ∈ TaskInstruction.invDeps (cells (ModelTaskQueue.heap (queue w))) J →
     J ∈ TaskInstruction.deps (cells (ModelTaskQueue.heap (queue w))) I) ∧
    (J ∈ TaskInstruction.deps (cells (ModelTaskQueue.heap (queue w))) I →
     set_contains TaskInstruction.toString
       (TaskInstruction.invDeps (cells (ModelTaskQueue.heap (queue w))) J) I
     = true) ∧
    (J ∈ TaskInstruction.deps (cells (ModelTaskQueue.heap (queue w))) I
     ↔ I ∈ TaskInstruction.invDeps (cells (ModelTaskQueue.heap (queue w))) J).
Proof.
  intros I J. eexists. split; [vm_compute; reflexivity|].
  split; [compute_done|]. split; [compute_done|]. split; [compute_done|].
  destruct (dependency_mirror 8
              [Enqueue (mkTask 0 [] [7%nat] 0); Enqueue (mkTask 1 [7%nat] [] 5)]
              _ eq_refl ltac:(compute_done) I J
              ltac:(compute_done) ltac:(compute_done))
    as (Hinv & Hkey & Hboth).
  split; [exact Hinv|]. split; [exact Hkey|].
  apply Hboth. unfold distinctTasks. compute_done.
Defined.

(** C4.  The mirror of the two sets is lost when a task is enqueued
    again: the sets are keyed by the index of the task.  After [tA]
    (writes 7) and then [tB] (reads 7) twice, the second instruction [B2]
    of [tB] has the instruction [A] of [tA] in its dependency set, and the
    inverted dependency set of [A] holds the first instruction of [tB]
    only; both [A] and [B2] are live.  Three calls of dequeue then return
    [tA] and [tB] and leave the queue empty with [B2] live: [B2] keeps [A]
    in its dependency set.  And by the [contains] of the sets: after [tC]
    (reads 7, writes 7) is enqueued twice, the dependency set of its second
    instruction [C2] holds an instruction of the key of [C2], its inverted
    dependency set holds none. *)
Lemma dependency_mirror_broken_by_reenqueue :
  let tA := mkTask 0 [] [7%nat] 0 in
  let tB := mkTask 1 [7%nat] [] 0 in
  let tC := mkTask 2 [7%nat] [7%nat] 0 in
  let A := Build_TaskInstruction 0 tA in
  let B2 := Build_TaskInstruction 2 tB in
  let C2 := Build_TaskInstruction 1 tC in
  (∃ w w',
     run 8 initialWorld [Enqueue tA; Enqueue tB; Enqueue tB] = Some w ∧
     indexedTasks [Enqueue tA; Enqueue tB; Enqueue tB] ∧
     A ∈ live w ∧ B2 ∈ live w ∧
     A ∈ TaskInstruction.deps (cells (ModelTaskQueue.heap (queue w))) B2 ∧
     (B2 ∉ TaskInstruction.invDeps (cells (ModelTaskQueue.heap (queue w))) A) ∧
     run 8 w [Dequeue; Dequeue; Dequeue] = Some w' ∧
     task <$> returned w' = [tA; tB] ∧
     ModelTaskQueue.isEmpty (queue w') = true ∧
     B2 ∈ live w') ∧
  (∃ w,
     run 8 initialWorld [Enqueue tC; Enqueue tC] = Some w ∧
     indexedTasks [Enqueue tC; Enqueue tC] ∧
     C2 ∈ live w ∧
     set_contains TaskInstruction.toString
       (TaskInstruction.deps (cells (ModelTaskQueue.heap (queue w))) C2) C2 = true ∧
     set_contains TaskInstruction.toString
       (TaskInstruction.invDeps (cells (ModelTaskQueue.heap (queue w))) C2) C2
       = false).
Proof.
  intros tA tB tC A B2 C2. split.
  - eexists. eexists. split; [vm_compute; reflexivity|].
    split; [compute_done|]. split; [compute_done|]. split; [compute_done|].
    split; [compute_done|]. split; [compute_done|].
    split; [vm_compute; reflexivity|]. split; [vm_compute; reflexivity|].
    split; [vm_compute; reflexivity|]. compute_done.
  - eexists. split; [vm_compute; reflexivity|].
    split; [compute_done|]. split; [compute_done|].
    split; vm_compute; reflexivity.
Qed.

(** C9.  After every trace of enqueue and dequeue (and registerRewriter;
    the index of a task identifying it), no instruction occurs twice among
    those [dequeue] has returned, so that a task is returned at most as
    many times as it has been enqueued, and at most once when the trace
    enqueues no task twice; no instruction waits twice in the
    priority-partitioned queue, and none that waits there has been
    returned before. *)
Theorem dequeued_duplicate_free (fuel : nat) (ops : list Op) (w : World) :
  run fuel initialWorld ops = Some w →
  indexedTasks ops →
  NoDup (returned w) ∧
  task <$> returned w ⊆+ enqueuedTasks ops ∧
  (NoDup (enqueuedTasks ops) → NoDup (task <$> returned w)) ∧
  NoDup (returned w ++
         PriorityPartitionedQueue.elements
           (ModelTaskQueue.eligibleInstructions (queue w))).
Proof.
  intros Hrun Hd.
  pose proof (CoherenceFacts.coh_reachable fuel ops w Hrun Hd) as Hcoh.
  assert (task <$> returned w ⊆+ enqueuedTasks ops) as Hsub.
  { pose proof (TraceFacts.run_created _ _ _ _ Hrun) as Hc. simpl in Hc.
    rewrite <- Hc. apply fmap_submseteq.
    apply NoDup_submseteq; [apply (coh_returned_nodup w Hcoh)|].
    apply (coh_returned w Hcoh). }
  split; [apply (coh_returned_nodup w Hcoh)|]. split; [done|]. split.
  - intros Hnd. apply submseteq_Permutation in Hsub as [k Hk].
    rewrite Hk in Hnd. by apply NoDup_app in Hnd as (? & _).
  - apply NoDup_app. split; [apply (coh_returned_nodup w Hcoh)|]. split.
    + intros x Hx [p Hp]%elem_of_elements.
      by apply (coh_ppq w Hcoh) in Hp as (_ & ? & _).
    + apply (NoDup_elements TaskInstruction.getPriority).
      * apply (coh_ppq_nodup w Hcoh).
      * intros p x Hx. by apply (coh_ppq w Hcoh) in Hx as (_ & _ & _ & ?).
Qed.

Lemma dequeued_duplicate_free_witness :
  ∃ w,
    run 30 initialWorld
      [Enqueue (mkTask 0 [] [7%nat] 0); Enqueue (mkTask 1 [7%nat] [] 5);
       Dequeue; Enqueue (mkTask 0 [] [7%nat] 0); Dequeue; Dequeue] = Some w ∧
    task <$> returned w
      = [mkTask 0 [] [7%nat] 0; mkTask 1 [7%nat] [] 5; mkTask 0 [] [7%nat] 0] ∧
    NoDup (returned w) ∧
    task <$> returned w
      ⊆+ [mkTask 0 [] [7%nat] 0; mkTask 1 [7%nat] [] 5; mkTask 0 [] [7%nat] 0] ∧
    NoDup (returned w ++
           PriorityPartitionedQueue.elements
             (ModelTaskQueue.eligibleInstructions (queue w))).
Proof.
  eexists. split; [vm_compute; reflexivity|].
  split; [vm_compute; reflexivity|].
  edestruct (dequeued_duplicate_free 30
               [Enqueue (mkTask 0 [] [7%nat] 0); Enqueue (mkTask 1 [7%nat] [] 5);
                Dequeue; Enqueue (mkTask 0 [] [7%nat] 0); Dequeue; Dequeue])
    as (Hnd & Hsub & _ & Hall).
  - vm_compute. reflexivity.
  - compute_done.
  - split; [exact Hnd|]. split; [exact Hsub|exact Hall].
Defined.

(** ** The safety predicate of the merger *)

Lemma hasEmptyIntersection_true (first second : list ModelComponent) :
  InstructionMerger.hasEmptyIntersection first second = true ↔
  ∀ c, c ∈ first → c ∉ second.
Proof.
  unfold InstructionMerger.hasEmptyIntersection.
  assert (∀ b, fold_left
            (λ (acc : bool) (element : nat),
               if set_contains id second element then false else acc)
            first b = true
          ↔ b = true ∧ ∀ c, c ∈ first → c ∉ second) as H.
  { induction first as [|e first IH]; intros b; simpl.
    - split; [|naive_solver]. intros ->. split; [done|].
      by intros c ?%elem_of_nil.
    - rewrite IH. destruct (set_contains id second e) eqn:Hc.
      + split; [naive_solver|]. intros [_ Hall].
        apply set_contains_true in Hc as (y & Hy & Hye). simpl in Hye. subst y.
        destruct (Hall e); [rewrite elem_of_cons; auto|done].
      + rewrite set_contains_false in Hc. split.
        * intros [-> Hall]. split; [done|].
          intros c [->|Hin]%elem_of_cons; [|by apply Hall].
          intros He. by apply (Hc e He).
        * intros [-> Hall]. split; [done|]. intros c Hin. apply Hall.
          rewrite elem_of_cons. auto. }
  rewrite H. naive_solver.
Qed.

(** The predicate on any store, in the terms of the code: [===] on
    instructions and [contains] of the dependency set. *)
Lemma canMergeReadAfterWrite_true (h : gmap nat InstructionSets)
    (first second : TaskInstruction) :
  InstructionMerger.canMergeReadAfterWrite h first second = true ↔
  ∀ K, K ∈ TaskInstruction.invDeps h first → iid K ≠ iid second →
    InstructionMerger.hasEmptyIntersection
      (readSet (metadata (task K))) (writeSet (metadata (task second))) = true ∧
    set_contains TaskInstruction.toString (TaskInstruction.deps h second) K = false.
Proof.
  unfold InstructionMerger.canMergeReadAfterWrite.
  generalize (TaskInstruction.invDeps h first) as l.
  assert (∀ l b, fold_left
            (λ (canMerge : bool) (dependentInstr : TaskInstruction),
               if TaskInstruction.same dependentInstr second then canMerge
               else if negb (InstructionMerger.hasEmptyIntersection
                               (readSet (metadata (task dependentInstr)))
                               (writeSet (metadata (task second))))
                       || set_contains TaskInstruction.toString
                            (TaskInstruction.deps h second) dependentInstr
                    then false else canMerge) l b = true
          ↔ b = true ∧
            ∀ K, K ∈ l → iid K ≠ iid second →
              InstructionMerger.hasEmptyIntersection
                (readSet (metadata (task K)))
                (writeSet (metadata (task second))) = true ∧
              set_contains TaskInstruction.toString
                (TaskInstruction.deps h second) K = false) as H.
  { induction l as [|e l IH]; intros b; simpl.
    - split; [|naive_solver]. intros ->. split; [done|].
      by intros K ?%elem_of_nil.
    - rewrite IH. clear IH. unfold TaskInstruction.same.
      case_bool_decide as Hs.
      + split; intros [-> Hall]; (split; [done|]).
        * intros K [->|Hin]%elem_of_cons Hne; [done|by apply Hall].
        * intros K Hin. apply Hall. rewrite elem_of_cons. auto.
      + destruct (InstructionMerger.hasEmptyIntersection _ _) eqn:He;
          destruct (set_contains _ _ e) eqn:Hc; simpl.
        all: split; [intros [Hb Hall]|intros [-> Hall]].
        all: try done.
        all: try (destruct (Hall e) as [? ?];
                  [rewrite elem_of_cons; auto|done|congruence]).
        * split; [done|].
          intros K [->|Hin]%elem_of_cons Hne; [done|by apply Hall].
        * split; [done|]. intros K Hin. apply Hall. rewrite elem_of_cons. auto. }
  intros l. rewrite H. naive_solver.
Qed.

(** C7, as the code has it.  In every world a trace reaches (the index
    of a task identifying it), for instructions [first] and [second] with
    a read-after-write edge from [first] to [second]:
    [canMergeReadAfterWrite first second] is true exactly when every [K]
    of the inverted dependency set of [first] other than [second] has a
    read set disjoint from the write set of [second] and the dependency
    set of [second] does not [contains] it, which is by the key of the
    instruction, the index of its task.  When the trace enqueues no task
    twice, that is: [K] is not in the dependency set of [second]. *)
Theorem canMergeReadAfterWrite_spec (fuel : nat) (ops : list Op) (w : World)
    (first second : TaskInstruction) :
  run fuel initialWorld ops = Some w →
  indexedTasks ops →
  first ∈ created w →
  second ∈ TaskInstruction.invDeps (cells (ModelTaskQueue.heap (queue w))) first →
  (InstructionMerger.canMergeReadAfterWrite
     (cells (ModelTaskQueue.heap (queue w))) first second = true
   ↔ ∀ K,
       K ∈ TaskInstruction.invDeps (cells (ModelTaskQueue.heap (queue w))) first →
       K ≠ second →
       (∀ c, c ∈ readSet (metadata (task K)) →
             c ∉ writeSet (metadata (task second))) ∧
       set_contains TaskInstruction.toString
         (TaskInstruction.deps (cells (ModelTaskQueue.heap (queue w))) second) K
         = false) ∧
  (distinctTasks ops →
   InstructionMerger.canMergeReadAfterWrite
     (cells (ModelTaskQueue.heap (queue w))) first second = true
   ↔ ∀ K,
       K ∈ TaskInstruction.invDeps (cells (ModelTaskQueue.heap (queue w))) first →
       K ≠ second →
       (∀ c, c ∈ readSet (metadata (task K)) →
             c ∉ writeSet (metadata (task second))) ∧
       K ∉ TaskInstruction.deps (cells (ModelTaskQueue.heap (queue w))) second).
Proof.
  intros Hrun Hd Hf Hsf.
  pose proof (CoherenceFacts.coh_reachable fuel ops w Hrun Hd) as Hcoh.
  destruct (coh_invDeps w Hcoh second first Hf Hsf) as (Hs & _ & _).
  assert (InstructionMerger.canMergeReadAfterWrite
            (cells (ModelTaskQueue.heap (queue w))) first second = true
          ↔ ∀ K,
              K ∈ TaskInstruction.invDeps
                    (cells (ModelTaskQueue.heap (queue w))) first →
              K ≠ second →
              (∀ c, c ∈ readSet (metadata (task K)) →
                    c ∉ writeSet (metadata (task second))) ∧
              set_contains TaskInstruction.toString
                (TaskInstruction.deps
                   (cells (ModelTaskQueue.heap (queue w))) second) K
                = false) as Hkey.
  { rewrite canMergeReadAfterWrite_true. split.
    - intros Hall K HK Hne.
      destruct (coh_invDeps w Hcoh K first Hf HK) as (HKc & _ & _).
      destruct (Hall K HK) as [He Hc].
      { intros Hid. apply Hne.
        by eapply ModelTaskQueueFacts.iid_inj; [apply (coh_iid w Hcoh)|..]. }
      split; [by apply hasEmptyIntersection_true|done].
    - intros Hall K HK Hne.
      destruct (Hall K HK) as [He Hc]; [by intros ->|].
      split; [by apply hasEmptyIntersection_true|done]. }
  split; [done|]. intros Hdist. rewrite Hkey.
  pose proof (created_keys fuel ops w Hrun Hdist) as Hnd.
  assert (∀ K, K ∈ created w →
            set_contains TaskInstruction.toString
              (TaskInstruction.deps (cells (ModelTaskQueue.heap (queue w))) second)
              K = false
            ↔ K ∉ TaskInstruction.deps
                    (cells (ModelTaskQueue.heap (queue w))) second) as Hcont.
  { intros K HK. rewrite set_contains_false. split.
    - intros Hall Hin. by apply (Hall K Hin).
    - intros Hnin y Hy Hk. apply Hnin.
      assert (y = K) as <-; [|done].
      eapply ModelTaskQueueFacts.key_inj; [apply Hnd| |done|done].
      by destruct (coh_deps w Hcoh second y Hs Hy). }
  split; intros Hall K HK Hne;
    destruct (coh_invDeps w Hcoh K first Hf HK) as (HKc & _ & _);
    destruct (Hall K HK Hne) as [He Hc];
    (split; [done|by apply Hcont]).
Qed.

Lemma canMergeReadAfterWrite_spec_witness :
  let first := Build_TaskInstruction 0 (mkTask 0 [] [7%nat] 0) in
  let second := Build_TaskInstruction 1 (mkTask 1 [7%nat] [8%nat] 0) in
  ∃ w,
    run 8 initialWorld
      [Enqueue (mkTask 0 [] [7%nat] 0); Enqueue (mkTask 1 [7%nat] [8%nat] 0);
       Enqueue (mkTask 2 [7%nat; 8%nat] [] 0)] = Some w ∧
    second ∈ TaskInstruction.invDeps (cells (ModelTaskQueue.heap (queue w))) first ∧
    InstructionMerger.canMergeReadAfterWrite
      (cells (ModelTaskQueue.heap (queue w))) first second = false ∧
    (InstructionMerger.canMergeReadAfterWrite
       (cells (ModelTaskQueue.heap (queue w))) first second = true
     ↔ ∀ K,
         K ∈ TaskInstruction.invDeps (cells (ModelTaskQueue.heap (queue w))) first →
         K ≠ second →
         (∀ c, c ∈ readSet (metadata (task K)) →
               c ∉ writeSet (metadata (task second))) ∧
         set_contains TaskInstruction.toString
           (TaskInstruction.deps (cells (ModelTaskQueue.heap (queue w))) second) K
           = false) ∧
    (InstructionMerger.canMergeReadAfterWrite
       (cells (ModelTaskQueue.heap (queue w))) first second = true
     ↔ ∀ K,
         K ∈ TaskInstruction.invDeps (cells (ModelTaskQueue.heap (queue w))) first →
         K ≠ second →
         (∀ c, c ∈ readSet (metadata (task K)) →
               c ∉ writeSet (metadata (task second))) ∧
         K ∉ TaskInstruction.deps (cells (ModelTaskQueue.heap (queue w))) second).
Proof.
  intros first second. eexists. split; [vm_compute; reflexivity|].
  split; [compute_done|]. split; [vm_compute; reflexivity|].
  edestruct (canMergeReadAfterWrite_spec 8
               [Enqueue (mkTask 0 [] [7%nat] 0);
                Enqueue (mkTask 1 [7%nat] [8%nat] 0);
                Enqueue (mkTask 2 [7%nat; 8%nat] [] 0)]) as [Hkey Hmem].
  - vm_compute. reflexivity.
  - compute_done.
  - instantiate (1 := first). compute_done.
  - instantiate (1 := second). compute_done.
  - split; [exact Hkey|]. apply Hmem. unfold distinctTasks. compute_done.
Defined.

(** C7 as stated fails when a task is enqueued again, because the
    dependency set tells instructions apart by their key: after [tA]
    (writes 7), [tT] (reads 7, writes 8) twice and [tS] (reads 7 and 8),
    with [first] the instruction [A] of [tA] and [second] the instruction
    [S] of [tS], there is a read-after-write edge from [A] to [S], and
    the only [K] of the inverted dependency set of [A] other than [S] is
    the first instruction [T1] of [tT]; its read set is disjoint from the
    write set of [S], and it is not in the dependency set of [S], which
    holds [A] and the second instruction of [tT]; but [contains] answers
    true for [T1], which has the key of the second, and
    [canMergeReadAfterWrite] is false. *)
Lemma canMergeReadAfterWrite_not_membership :
  let tA := mkTask 0 [] [7%nat] 0 in
  let tT := mkTask 1 [7%nat] [8%nat] 0 in
  let tS := mkTask 2 [7%nat; 8%nat] [] 0 in
  let A := Build_TaskInstruction 0 tA in
  let T1 := Build_TaskInstruction 1 tT in
  let T2 := Build_TaskInstruction 2 tT in
  let S := Build_TaskInstruction 3 tS in
  ∃ w,
    run 8 initialWorld [Enqueue tA; Enqueue tT; Enqueue tT; Enqueue tS] = Some w ∧
    TaskInstruction.invDeps (cells (ModelTaskQueue.heap (queue w))) A = [T1; S] ∧
    TaskInstruction.deps (cells (ModelTaskQueue.heap (queue w))) S = [A; T2] ∧
    set_contains TaskInstruction.toString
      (TaskInstruction.deps (cells (ModelTaskQueue.heap (queue w))) S) T1 = true ∧
    InstructionMerger.canMergeReadAfterWrite
      (cells (ModelTaskQueue.heap (queue w))) A S = false ∧
    (∀ K,
       K ∈ TaskInstruction.invDeps (cells (ModelTaskQueue.heap (queue w))) A →
       K ≠ S →
       (∀ c, c ∈ readSet (metadata (task K)) →
             c ∉ writeSet (metadata (task S))) ∧
       K ∉ TaskInstruction.deps (cells (ModelTaskQueue.heap (queue w))) S) ∧
    ¬ (InstructionMerger.canMergeReadAfterWrite
         (cells (ModelTaskQueue.heap (queue w))) A S = true
       ↔ ∀ K,
           K ∈ TaskInstruction.invDeps (cells (ModelTaskQueue.heap (queue w))) A →
           K ≠ S →
           (∀ c, c ∈ readSet (metadata (task K)) →
                 c ∉ writeSet (metadata (task S))) ∧
           K ∉ TaskInstruction.deps (cells (ModelTaskQueue.heap (queue w))) S).
Proof.
  intros tA tT tS A T1 T2 S. eexists. split; [vm_compute; reflexivity|].
  match goal with
  | |- context [TaskInstruction.invDeps ?h A] => set (h0 := h)
  end.
  assert (TaskInstruction.invDeps h0 A = [T1; S]) as Hinv
    by (vm_compute; reflexivity).
  assert (TaskInstruction.deps h0 S = [A; T2]) as Hdeps
    by (vm_compute; reflexivity).
  assert (InstructionMerger.canMergeReadAfterWrite h0 A S = false) as Hcan
    by (vm_compute; reflexivity).
  assert (∀ K, K ∈ TaskInstruction.invDeps h0 A → K ≠ S →
            (∀ c, c ∈ readSet (metadata (task K)) →
                  c ∉ writeSet (metadata (task S))) ∧
            K ∉ TaskInstruction.deps h0 S) as Hall.
  { intros K HK Hne. rewrite Hinv in HK. rewrite Hdeps.
    apply elem_of_cons in HK as [->|HK].
    - split; [|compute_done]. intros c _. simpl. apply not_elem_of_nil.
    - apply list_elem_of_singleton in HK. done. }
  split; [done|]. split; [done|]. split; [vm_compute; reflexivity|].
  split; [done|]. split; [done|].
  intros [_ Hiff]. specialize (Hiff Hall). congruence.
Qed.

(** ** The order of dequeue along a data dependency *)

Section DependencyOrder.
Context (A B : TaskInstruction) (HAB : A ≠ B).

Lemma ordered_returned w i :
  A ∈ returned w → (∀ l1 l2, returned w = l1 ++ B :: l2 → A ∈ l1) →
  ∀ l1 l2, returned w ++ [i] = l1 ++ B :: l2 → A ∈ l1.
Proof.
  intros HA Hall l1 l2. destruct l2 as [|z l2 _] using rev_ind.
  - intros [<- _]%app_inj_tail. done.
  - rewrite app_comm_cons, app_assoc. intros [Heq _]%app_inj_tail.
    by apply (Hall l1 l2).
Qed.

Lemma ordered_step fuel w op w' :
  Coherent w → A ∈ created w → B ∈ created w →
  step fuel w op = Some w' → ordered A B w → ordered A B w'.
Proof.
  intros Hcoh HA HB Hs Hord. destruct op as [t| |r]; simpl in Hs.
  - injection Hs as <-. unfold ordered. cbn [queue returned].
    destruct Hord as [[Hd HBr]|Hr]; [|by right]. left. split; [|done].
    by rewrite (CoherenceFacts.coh_enqueue_deps w t Hcoh B HB).
  - destruct (ModelTaskQueue.dequeueInstruction fuel (queue w))
      as [[r q]|] eqn:Hd; [|done].
    apply TraceFacts.dequeueInstruction_inv in Hd
      as [(_ & -> & ->)|(He & i & E1 & Hd & -> & ->)].
    + injection Hs as <-. done.
    + injection Hs as <-.
      pose proof (PriorityPartitionedQueueFacts.dequeue_spec _ _ _ _ Hd) as Hsp.
      unfold ModelTaskQueue.isEmpty in He. rewrite He in Hsp.
      destruct Hsp as (x & p & rest & [= <-] & Hhead & Htail & _).
      assert (PriorityPartitionedQueue.wf TaskInstruction.getPriority E1) as Hwf1.
      { eapply PriorityPartitionedQueueFacts.dequeue_wf;
          [apply (coh_ppq_wf w Hcoh)|apply Hd]. }
      destruct (CoherenceFacts.coh_picked w Hcoh i p rest Hhead)
        as (HiC & HiR & Hid & _).
      unfold ordered. simpl.
      destruct Hord as [[HdB HBr]|[HAr Hall]].
      * destruct (decide (i = A)) as [->|HiA].
        -- right. split; [rewrite elem_of_app, list_elem_of_singleton; auto|].
           intros l1 l2 Heq.
           assert (B ∈ returned w ++ [A]) as HBin.
           { rewrite Heq, elem_of_app, elem_of_cons. auto. }
           apply elem_of_app in HBin as [?|HBin%list_elem_of_singleton]; [done|].
           by destruct HAB.
        -- left. split.
           ++ destruct (CoherenceFacts.coh_complete_deps w Hcoh i E1 p rest
                          Hhead Hwf1 B HB) as (_ & Hkeep & _).
              apply Hkeep; [done|]. by intros ->.
           ++ rewrite elem_of_app, list_elem_of_singleton.
              intros [?| ->]; [done|]. rewrite Hid in HdB.
              by apply elem_of_nil in HdB.
      * right. split; [rewrite elem_of_app; auto|].
        by apply ordered_returned.
  - injection Hs as <-. done.
Qed.

Lemma ordered_run fuel w ops w' :
  Coherent w → A ∈ created w → B ∈ created w →
  run fuel w ops = Some w' →
  (∀ x y, x ∈ created w' → y ∈ created w' →
          TaskInstruction.toString x = TaskInstruction.toString y →
          task x = task y) →
  ordered A B w → ordered A B w'.
Proof.
  revert w. induction ops as [|op ops IH]; intros w Hcoh HA HB; simpl.
  - by intros [= <-].
  - destruct (step fuel w op) as [w1|] eqn:Hs; [|done]. intros Hr Hfun Hord.
    apply (IH w1); try done.
    + apply (CoherenceFacts.coh_step fuel w op); [done|done|].
      intros x y Hx Hy. apply Hfun; by eapply CoherenceFacts.run_created_incl.
    + by eapply CoherenceFacts.step_created_incl.
    + by eapply CoherenceFacts.step_created_incl.
    + by eapply ordered_step.
Qed.

End DependencyOrder.

Lemma indexedTasks_app_l ops1 ops2 :
  indexedTasks (ops1 ++ ops2) → indexedTasks ops1.
Proof.
  unfold indexedTasks. rewrite TraceFacts.enqueuedTasks_app.
  intros Hall t t' Ht Ht'. apply Hall; rewrite elem_of_app; auto.
Qed.

(** C1, as the code has it.  If, when task [tB] is enqueued, the
    latest-writer map gives instruction [A] for a component of the read set
    of [tB] ([A] is the most recently enqueued instruction that writes the
    component and has not been dequeued), then in every continuation of the
    trace the instruction [B] made by that enqueue is returned by dequeue
    only after [A]; and when the trace enqueues no task twice, wherever
    [tB] stands in the sequence of returned tasks, the task of [A] stands
    before it. *)
Theorem latest_writer_dequeued_first (fuel : nat) (ops1 ops2 : list Op)
    (tB : ModelTask) (c : ModelComponent) (A : TaskInstruction) (w1 w2 : World) :
  run fuel initialWorld ops1 = Some w1 →
  ModelTaskQueue.latestComponentStateMap (queue w1) !! c = Some A →
  c ∈ readSet (metadata tB) →
  run fuel w1 (Enqueue tB :: ops2) = Some w2 →
  indexedTasks (ops1 ++ Enqueue tB :: ops2) →
  (∀ l1 l2,
     returned w2 =
       l1 ++ Build_TaskInstruction (fresh (ModelTaskQueue.heap (queue w1))) tB
          :: l2 →
     A ∈ l1) ∧
  (distinctTasks (ops1 ++ Enqueue tB :: ops2) →
   ∀ l1 l2, task <$> returned w2 = l1 ++ tB :: l2 → task A ∈ l1).
Proof.
  intros Hrun1 HL Hc Hrun2 Hd.
  pose proof (CoherenceFacts.coh_reachable fuel ops1 w1 Hrun1
                (indexedTasks_app_l _ _ Hd)) as Hcoh1.
  set (B := Build_TaskInstruction (fresh (ModelTaskQueue.heap (queue w1))) tB).
  set (w1' := Build_World (ModelTaskQueue.enqueue (queue w1) tB)
                (created w1 ++ [B]) (returned w1)).
  assert (run fuel w1' ops2 = Some w2) as Hrun2' by done.
  assert (run fuel initialWorld (ops1 ++ [Enqueue tB]) = Some w1') as Hrun1'.
  { rewrite TraceFacts.run_app, Hrun1. done. }
  assert (run fuel initialWorld (ops1 ++ Enqueue tB :: ops2) = Some w2) as Hrun.
  { rewrite TraceFacts.run_app, Hrun1. done. }
  pose proof (CoherenceFacts.coh_reachable fuel _ w2 Hrun Hd) as Hcoh2.
  assert (indexedTasks (ops1 ++ [Enqueue tB])) as Hd1'.
  { apply (indexedTasks_app_l _ ops2). by rewrite <- app_assoc. }
  pose proof (CoherenceFacts.coh_reachable fuel _ w1' Hrun1' Hd1') as Hcoh1'.
  destruct (coh_latest w1 Hcoh1 c A HL) as (HA & _ & _).
  assert (A ≠ B) as HAB.
  { intros ->. by apply (CoherenceFacts.coh_new_not_in_created w1 tB Hcoh1). }
  assert (ordered A B w1') as Hord1.
  { left. split.
    - by apply (CoherenceFacts.coh_enqueue_new_deps w1 tB Hcoh1 c A).
    - simpl. by apply (CoherenceFacts.coh_new_not_in_returned w1 tB Hcoh1). }
  assert (ordered A B w2) as Hord2.
  { apply (ordered_run A B HAB fuel w1' ops2 w2); try done.
    - simpl. rewrite elem_of_app. auto.
    - simpl. rewrite elem_of_app, list_elem_of_singleton. auto.
    - by apply (CoherenceFacts.created_indexed fuel _ w2 Hrun). }
  assert (∀ l1 l2, returned w2 = l1 ++ B :: l2 → A ∈ l1) as Hinstr.
  { intros l1 l2 Hret. destruct Hord2 as [[_ HBr]|[_ Hall]].
    - destruct HBr. rewrite Hret, elem_of_app, elem_of_cons. auto.
    - by apply (Hall l1 l2). }
  split; [done|]. intros Hdist l1 l2 Hret.
  pose proof (created_keys fuel _ w2 Hrun Hdist) as Hnd2.
  assert (B ∈ created w2) as HB2.
  { apply (CoherenceFacts.run_created_incl fuel w1' ops2); [done|].
    simpl. rewrite elem_of_app, list_elem_of_singleton. auto. }
  apply fmap_app_inv in Hret as (r1 & r2' & -> & Hr2 & Hret).
  symmetry in Hr2. apply fmap_cons_inv in Hr2 as (x & r2 & Hx & -> & ->).
  assert (x = B) as ->.
  { eapply ModelTaskQueueFacts.key_inj; [apply Hnd2| |done|].
    - apply (coh_returned w2 Hcoh2). rewrite Hret, elem_of_app, elem_of_cons. auto.
    - unfold TaskInstruction.toString. by rewrite <- Hx. }
  apply list_elem_of_fmap. exists A. split; [done|]. by apply (Hinstr r1 r2).
Qed.

Lemma latest_writer_dequeued_first_witness :
  let tA := mkTask 0 [] [7%nat] 0 in
  let tB := mkTask 1 [7%nat] [] 5 in
  ∃ w1 w2,
    run 8 initialWorld [Enqueue tA] = Some w1 ∧
    ModelTaskQueue.latestComponentStateMap (queue w1) !! 7%nat
      = Some (Build_TaskInstruction 0 tA) ∧
    run 8 w1 [Enqueue tB; Dequeue; Dequeue] = Some w2 ∧
    task <$> returned w2 = [tA; tB] ∧
    (∀ l1 l2,
       returned w2 =
         l1 ++ Build_TaskInstruction
                 (fresh (ModelTaskQueue.heap (queue w1))) tB :: l2 →
       Build_TaskInstruction 0 tA ∈ l1) ∧
    ∀ l1 l2, task <$> returned w2 = l1 ++ tB :: l2 → tA ∈ l1.
Proof.
  intros tA tB. eexists. eexists.
  split; [vm_compute; reflexivity|].
  split; [vm_compute; reflexivity|].
  split; [vm_compute; reflexivity|].
  split; [vm_compute; reflexivity|].
  edestruct (latest_writer_dequeued_first 8 [Enqueue tA] [Dequeue; Dequeue] tB
               7%nat (Build_TaskInstruction 0 tA)) as [Hinstr Htask].
  - vm_compute. reflexivity.
  - vm_compute. reflexivity.
  - compute_done.
  - vm_compute. reflexivity.
  - compute_done.
  - split; [exact Hinstr|]. apply Htask. unfold distinctTasks. compute_done.
Defined.

(** C1 as stated fails: a write set that meets only the write set of a
    later task makes no dependency.  With [A] (write set {7}, priority 0)
    enqueued before [B] (write set {7}, priority 1), the first dequeue
    returns [B]. *)
Lemma write_after_write_not_ordered :
  let tA := mkTask 0 [] [7%nat] 0 in
  let tB := mkTask 1 [] [7%nat] 1 in
  (7%nat ∈ writeSet (metadata tA) ∧ 7%nat ∈ writeSet (metadata tB)) ∧
  ∃ w, run 8 initialWorld [Enqueue tA; Enqueue tB; Dequeue] = Some w ∧
       task <$> returned w = [tB].
Proof.
  intros tA tB. split; [split; compute_done|].
  eexists. split; vm_compute; reflexivity.
Qed.

(** ** What dequeue returns *)

Lemma isEmpty_elements {T} (getPriority : T → Z) (q : PriorityPartitionedQueue.t T) :
  PriorityPartitionedQueue.wf getPriority q →
  PriorityPartitionedQueue.isEmpty q = true ↔
  PriorityPartitionedQueue.elements q = [].
Proof.
  intros Hwf. split.
  - intros He. destruct (PriorityPartitionedQueue.elements q) as [|x l] eqn:E;
      [done|].
    assert (x ∈ PriorityPartitionedQueue.elements q) as Hx
      by (rewrite E, elem_of_cons; auto).
    apply elem_of_elements in Hx as [p Hp].
    unfold PriorityPartitionedQueue.subQueue in Hp.
    destruct (PriorityPartitionedQueue.subQueues q !! p) as [l'|] eqn:El;
      simpl in Hp; [|by apply elem_of_nil in Hp].
    assert (PriorityPartitionedQueue.nonEmptyQueues
              (PriorityPartitionedQueue.subQueues q) !! p = Some l') as Hne.
    { apply PriorityPartitionedQueueFacts.lookup_nonEmptyQueues.
      split; [done|]. intros ->. by apply elem_of_nil in Hp. }
    destruct Hwf as (_ & _ & Hc & _).
    unfold PriorityPartitionedQueue.isEmpty in He.
    apply bool_decide_eq_true in He. rewrite He in Hc.
    assert (size (PriorityPartitionedQueue.nonEmptyQueues
                    (PriorityPartitionedQueue.subQueues q)) = 0%nat) as Hz by lia.
    apply map_size_empty_iff in Hz. rewrite Hz in Hne.
    by rewrite lookup_empty in Hne.
  - intros He. destruct (PriorityPartitionedQueue.isEmpty q) eqn:Hi; [done|].
    destruct (PriorityPartitionedQueueFacts.nonEmpty_exists getPriority q Hwf Hi)
      as [p Hp].
    destruct (PriorityPartitionedQueue.subQueue q p) as [|x l] eqn:E; [done|].
    assert (x ∈ PriorityPartitionedQueue.elements q) as Hx.
    { apply elem_of_elements. exists p. rewrite E, elem_of_cons. auto. }
    rewrite He in Hx. by apply elem_of_nil in Hx.
Qed.

Lemma dequeueInstruction_total (w : World) (fuel : nat) :
  Coherent w →
  (PriorityPartitionedQueue.enoughFuel
     (ModelTaskQueue.eligibleInstructions (queue w)) ≤ fuel)%nat →
  (ModelTaskQueue.isEmpty (queue w) = true ∧
   ModelTaskQueue.dequeueInstruction fuel (queue w) = Some (None, queue w))
  ∨
  (ModelTaskQueue.isEmpty (queue w) = false ∧
   ∃ i q' rest n ps gen',
     ModelTaskQueue.dequeueInstruction fuel (queue w) = Some (Some i, q') ∧
     PriorityPartitionedQueue.subQueue
       (ModelTaskQueue.eligibleInstructions (queue w))
       (TaskInstruction.getPriority i) = i :: rest ∧
     PriorityGenerator.nexts (S n)
       (PriorityPartitionedQueue.priorityGen
          (ModelTaskQueue.eligibleInstructions (queue w)))
       = (ps ++ [TaskInstruction.getPriority i], gen') ∧
     (∀ p, p ∈ ps →
           PriorityPartitionedQueue.subQueue
             (ModelTaskQueue.eligibleInstructions (queue w)) p = []) ∧
     (∀ x, x ∈ TaskInstruction.invDeps
                 (cells (ModelTaskQueue.heap (queue w))) i →
           i ∉ TaskInstruction.deps (cells (ModelTaskQueue.heap q')) x) ∧
     (∀ x y, x ∈ created w →
           y ∈ TaskInstruction.deps (cells (ModelTaskQueue.heap q')) x →
           y ∈ TaskInstruction.deps (cells (ModelTaskQueue.heap (queue w))) x) ∧
     Coherent (Build_World q' (created w) (returned w ++ [i]))).
Proof.
  intros Hcoh Hfuel.
  destruct (PriorityPartitionedQueueFacts.dequeue_terminates
              TaskInstruction.getPriority fuel _ (coh_ppq_wf w Hcoh) Hfuel)
    as (r & E1 & Hd & Hr).
  destruct (ModelTaskQueue.isEmpty (queue w)) eqn:He.
  - left. split; [done|]. unfold ModelTaskQueue.dequeueInstruction.
    unfold ModelTaskQueue.isEmpty in He.
    rewrite PriorityPartitionedQueueFacts.dequeue_empty by done.
    by destruct (queue w).
  - right. split; [done|]. unfold ModelTaskQueue.isEmpty in He.
    destruct (Hr He) as [i ->].
    pose proof (PriorityPartitionedQueueFacts.dequeue_spec _ _ _ _ Hd) as Hsp.
    rewrite He in Hsp.
    destruct Hsp as (x & p & rest & [= <-] & Hhead & Htail & n & ps & Hn & Hps).
    assert (PriorityPartitionedQueue.wf TaskInstruction.getPriority E1) as Hwf1.
    { eapply PriorityPartitionedQueueFacts.dequeue_wf;
        [apply (coh_ppq_wf w Hcoh)|apply Hd]. }
    destruct (CoherenceFacts.coh_picked w Hcoh i p rest Hhead)
      as (_ & _ & _ & Hp).
    pose proof (CoherenceFacts.coh_dependent w Hcoh i p rest Hhead) as Hdep.
    eexists i, _, rest, n, ps, _.
    split; [|split; [|split; [|split; [|split; [|split]]]]].
    + unfold ModelTaskQueue.dequeueInstruction. rewrite Hd. reflexivity.
    + by rewrite Hp.
    + rewrite Hp. apply Hn.
    + done.
    + intros x Hx. destruct (Hdep x Hx) as (HxC & _).
      destruct (CoherenceFacts.coh_complete_deps w Hcoh i E1 p rest
                  Hhead Hwf1 x HxC) as (_ & _ & Hcut & _).
      by apply Hcut.
    + intros x y HxC.
      destruct (CoherenceFacts.coh_complete_deps w Hcoh i E1 p rest
                  Hhead Hwf1 x HxC) as (Hsub & _).
      apply Hsub.
    + by eapply CoherenceFacts.coh_complete.
Qed.

(** The window of the generator of a world lies where the priorities of
    the tasks enqueued lie. *)
Lemma enqueue_window_bounded {T} (getPriority : T → Z)
    (q : PriorityPartitionedQueue.t T) v :
  Double.bounded (PriorityGenerator.min (PriorityPartitionedQueue.priorityGen q)) ∧
  Double.bounded (PriorityGenerator.max (PriorityPartitionedQueue.priorityGen q)) →
  Double.bounded (getPriority v) →
  Double.bounded
    (PriorityGenerator.min
       (PriorityPartitionedQueue.priorityGen
          (PriorityPartitionedQueue.enqueue getPriority q v))) ∧
  Double.bounded
    (PriorityGenerator.max
       (PriorityPartitionedQueue.priorityGen
          (PriorityPartitionedQueue.enqueue getPriority q v))).
Proof.
  intros [Hmin Hmax] Hv.
  rewrite PriorityPartitionedQueueFacts.priorityGen_enqueue.
  destruct (set_isEmpty _); [|done].
  unfold PriorityGenerator.notifyPriorityExists, Double.bounded in *.
  case_bool_decide; simpl; lia.
Qed.

Lemma dequeue_window {T} fuel (q : PriorityPartitionedQueue.t T) r q' :
  PriorityPartitionedQueue.dequeue fuel q = Some (r, q') →
  PriorityGenerator.min (PriorityPartitionedQueue.priorityGen q')
    = PriorityGenerator.min (PriorityPartitionedQueue.priorityGen q) ∧
  PriorityGenerator.max (PriorityPartitionedQueue.priorityGen q')
    = PriorityGenerator.max (PriorityPartitionedQueue.priorityGen q).
Proof.
  intros Hd. apply PriorityPartitionedQueueFacts.dequeue_spec in Hd.
  destruct (PriorityPartitionedQueue.isEmpty q).
  - by destruct Hd as [_ ->].
  - destruct Hd as (x & p & rest & _ & _ & _ & n & ps & Hn & _).
    pose proof (PriorityGeneratorFacts.nexts_window (S n)
                  (PriorityPartitionedQueue.priorityGen q)) as Hw.
    by rewrite Hn in Hw.
Qed.

Lemma complete_window_bounded q i :
  Double.bounded
    (PriorityGenerator.min
       (PriorityPartitionedQueue.priorityGen
          (ModelTaskQueue.eligibleInstructions q))) ∧
  Double.bounded
    (PriorityGenerator.max
       (PriorityPartitionedQueue.priorityGen
          (ModelTaskQueue.eligibleInstructions q))) →
  (∀ x, x ∈ TaskInstruction.invDeps (cells (ModelTaskQueue.heap q)) i →
        Double.bounded (TaskInstruction.getPriority x)) →
  Double.bounded
    (PriorityGenerator.min
       (PriorityPartitionedQueue.priorityGen
          (ModelTaskQueue.eligibleInstructions (ModelTaskQueue.complete q i)))) ∧
  Double.bounded
    (PriorityGenerator.max
       (PriorityPartitionedQueue.priorityGen
          (ModelTaskQueue.eligibleInstructions (ModelTaskQueue.complete q i)))).
Proof.
  intros Hb Hall. rewrite ModelTaskQueueFacts.complete_unfold. cbv zeta.
  cbn [ModelTaskQueue.eligibleInstructions].
  unfold ModelTaskQueue.releaseDependents.
  apply (fold_left_ind _
           (λ b : gmap nat InstructionSets * PriorityPartitionedQueue.t TaskInstruction,
              Double.bounded
                (PriorityGenerator.min (PriorityPartitionedQueue.priorityGen b.2)) ∧
              Double.bounded
                (PriorityGenerator.max (PriorityPartitionedQueue.priorityGen b.2))));
    [done|].
  intros x [h E] Hx HE. cbn [snd] in HE.
  destruct (TaskInstruction.isEligibleForExecution _ x); cbn [snd]; [|done].
  apply enqueue_window_bounded; [done|by apply Hall].
Qed.

Lemma run_window_bounded fuel ops w :
  run fuel initialWorld ops = Some w →
  indexedTasks ops →
  boundedPriorities ops →
  Double.bounded
    (PriorityGenerator.min
       (PriorityPartitionedQueue.priorityGen
          (ModelTaskQueue.eligibleInstructions (queue w)))) ∧
  Double.bounded
    (PriorityGenerator.max
       (PriorityPartitionedQueue.priorityGen
          (ModelTaskQueue.eligibleInstructions (queue w)))).
Proof.
  revert w. induction ops as [|op ops IH] using rev_ind; intros w Hr Hi Hb.
  - injection Hr as <-. by compute.
  - rewrite TraceFacts.run_app in Hr.
    destruct (run fuel initialWorld ops) as [w1|] eqn:Hr1; [|done].
    cbn [run] in Hr.
    destruct (step fuel w1 op) as [w2|] eqn:Hs; [|done]. injection Hr as ->.
    pose proof (indexedTasks_app_l _ _ Hi) as Hi1.
    unfold boundedPriorities in Hb. rewrite TraceFacts.enqueuedTasks_app in Hb.
    apply Forall_app in Hb as [Hb1 Hbop].
    specialize (IH w1 eq_refl Hi1 Hb1).
    pose proof (CoherenceFacts.coh_reachable fuel ops w1 Hr1 Hi1) as Hcoh.
    assert (∀ x, x ∈ created w1 →
              Double.bounded (TaskInstruction.getPriority x)) as Hcreated.
    { intros x Hx. rewrite Forall_forall in Hb1. apply Hb1.
      pose proof (TraceFacts.run_created _ _ _ _ Hr1) as Hc. simpl in Hc.
      rewrite <- Hc. apply list_elem_of_fmap. by exists x. }
    destruct op as [t| |r]; simpl in Hs.
    + injection Hs as <-. cbn [queue].
      rewrite CoherenceFacts.coh_enqueue_unfold. cbv zeta.
      cbn [ModelTaskQueue.eligibleInstructions].
      destruct (TaskInstruction.isEligibleForExecution _ _); [|done].
      apply enqueue_window_bounded; [done|].
      simpl in Hbop. by apply Forall_cons in Hbop as [? _].
    + destruct (ModelTaskQueue.dequeueInstruction fuel (queue w1))
        as [[r q]|] eqn:Hd; [|done].
      apply TraceFacts.dequeueInstruction_inv in Hd
        as [(_ & -> & ->)|(He & i & E1 & Hd & -> & ->)].
      * by injection Hs as <-.
      * injection Hs as <-. cbn [queue].
        pose proof (dequeue_window _ _ _ _ Hd) as [Hmin Hmax].
        pose proof (PriorityPartitionedQueueFacts.dequeue_spec _ _ _ _ Hd) as Hsp.
        unfold ModelTaskQueue.isEmpty in He. rewrite He in Hsp.
        destruct Hsp as (x & p & rest & [= <-] & Hhead & _).
        destruct (CoherenceFacts.coh_picked w1 Hcoh i p rest Hhead)
          as (HiC & _).
        apply complete_window_bounded;
          cbn [ModelTaskQueue.eligibleInstructions ModelTaskQueue.heap].
        -- by rewrite Hmin, Hmax.
        -- intros x Hx. apply Hcreated.
           by destruct (coh_invDeps w1 Hcoh x i HiC Hx).
    + by injection Hs as <-.
Qed.

(** C6, as the code has it.  In every world a trace reaches (the index of
    a task identifying it, the priorities of its tasks from [-2^53] to
    [2^53]), with fuel enough for the loop, [dequeue] returns, its loop on
    doubles being the loop with the exact decrement; it returns
    [undefined] exactly when [isEmpty] holds, which is when the
    priority-partitioned queue holds no instruction.  Otherwise
    the instruction it picks is live, stands at the front of the sub-queue
    of its priority, and that priority is the first one the generator
    gives whose sub-queue is not empty (not the highest priority that
    waits); the instruction is then completed: its inverted dependency set
    is empty, the instructions that were in it no longer have it in their
    dependency set and no dependency set has grown, every other live
    instruction left without dependency is in the priority-partitioned
    queue, no component has it as latest writer and no interest set holds
    it; the task returned is the task of that instruction. *)
Theorem dequeue_returns_generated_front (fuel0 : nat) (ops : list Op) (w : World) :
  run fuel0 initialWorld ops = Some w →
  indexedTasks ops →
  boundedPriorities ops →
  ∀ fuel,
    (PriorityPartitionedQueue.enoughFuel
       (ModelTaskQueue.eligibleInstructions (queue w)) ≤ fuel)%nat →
    ∃ r q',
      ModelTaskQueue.dequeue fuel (queue w) = Some (r, q') ∧
      Double.dequeue fuel (ModelTaskQueue.eligibleInstructions (queue w))
        = PriorityPartitionedQueue.dequeue fuel
            (ModelTaskQueue.eligibleInstructions (queue w)) ∧
      (r = None ↔ ModelTaskQueue.isEmpty (queue w) = true) ∧
      (r = None ↔
       PriorityPartitionedQueue.elements
         (ModelTaskQueue.eligibleInstructions (queue w)) = []) ∧
      ∀ t, r = Some t →
        ∃ i rest n ps gen',
          t = task i ∧
          i ∈ live w ∧
          PriorityPartitionedQueue.subQueue
            (ModelTaskQueue.eligibleInstructions (queue w))
            (TaskInstruction.getPriority i) = i :: rest ∧
          PriorityGenerator.nexts (S n)
            (PriorityPartitionedQueue.priorityGen
               (ModelTaskQueue.eligibleInstructions (queue w)))
            = (ps ++ [TaskInstruction.getPriority i], gen') ∧
          Double.nexts (S n)
            (PriorityPartitionedQueue.priorityGen
               (ModelTaskQueue.eligibleInstructions (queue w)))
            = (ps ++ [TaskInstruction.getPriority i], gen') ∧
          (∀ p, p ∈ ps →
                PriorityPartitionedQueue.subQueue
                  (ModelTaskQueue.eligibleInstructions (queue w)) p = []) ∧
          TaskInstruction.invDeps (cells (ModelTaskQueue.heap q')) i = [] ∧
          (∀ x, x ∈ TaskInstruction.invDeps
                      (cells (ModelTaskQueue.heap (queue w))) i →
                i ∉ TaskInstruction.deps (cells (ModelTaskQueue.heap q')) x) ∧
          (∀ x y, x ∈ created w →
                y ∈ TaskInstruction.deps (cells (ModelTaskQueue.heap q')) x →
                y ∈ TaskInstruction.deps
                      (cells (ModelTaskQueue.heap (queue w))) x) ∧
          (∀ x, x ∈ live w → x ≠ i →
                TaskInstruction.deps (cells (ModelTaskQueue.heap q')) x = [] →
                x ∈ PriorityPartitionedQueue.elements
                      (ModelTaskQueue.eligibleInstructions q')) ∧
          (∀ c, ModelTaskQueue.latestComponentStateMap q' !! c ≠ Some i) ∧
          (∀ s, s ∈ InstructionMerger.interestSets (ModelTaskQueue.merger q') →
                i ∉ s).
Proof.
  intros Hrun Hd Hbounded fuel Hfuel.
  pose proof (CoherenceFacts.coh_reachable fuel0 ops w Hrun Hd) as Hcoh.
  pose proof (isEmpty_elements TaskInstruction.getPriority _ (coh_ppq_wf w Hcoh))
    as Hel.
  pose proof (run_window_bounded fuel0 ops w Hrun Hd Hbounded) as [Hbmin Hbmax].
  pose proof (coh_ppq_wf w Hcoh) as (Hgen & _).
  pose proof (DoubleFacts.double_dequeue_exact fuel _ Hgen Hbmin Hbmax) as Hdouble.
  destruct (dequeueInstruction_total w fuel Hcoh Hfuel)
    as [[He Hdq]|(He & i & q' & rest & n & ps & gen' & Hdq & Hhead & Hn & Hps
                  & Hcut & Hsub & Hcoh')].
  - exists None, (queue w). unfold ModelTaskQueue.dequeue. rewrite Hdq.
    split; [done|]. split; [done|]. split; [done|]. split; [|done].
    unfold ModelTaskQueue.isEmpty in He. rewrite <- Hel. done.
  - exists (Some (task i)), q'. unfold ModelTaskQueue.dequeue. rewrite Hdq.
    split; [done|]. split; [done|]. split; [by rewrite He|]. split.
    { unfold ModelTaskQueue.isEmpty in He. rewrite <- Hel, He. done. }
    intros t [= <-].
    assert (i ∈ returned w ++ [i]) as Hir
      by (rewrite elem_of_app, list_elem_of_singleton; auto).
    destruct (CoherenceFacts.coh_picked w Hcoh i _ rest Hhead)
      as (HiC & HiR & _ & _).
    exists i, rest, n, ps, gen'.
    split; [done|]. split; [by apply elem_of_live|].
    split; [done|]. split; [done|].
    split; [by rewrite DoubleFacts.double_nexts_exact|]. split; [done|].
    split; [|split; [|split; [|split; [|split]]]].
    + destruct (TaskInstruction.invDeps (cells (ModelTaskQueue.heap q')) i)
        as [|x l] eqn:E; [done|].
      assert (x ∈ TaskInstruction.invDeps (cells (ModelTaskQueue.heap q')) i) as Hx
        by (rewrite E, elem_of_cons; auto).
      by destruct (coh_invDeps _ Hcoh' x i HiC Hx) as (_ & ? & _).
    + done.
    + done.
    + intros x [HxC HxR]%elem_of_live Hne Hdeps.
      apply elem_of_elements. exists (TaskInstruction.getPriority x).
      apply (coh_ppq _ Hcoh'). simpl. split; [done|]. split; [|done].
      rewrite elem_of_app, list_elem_of_singleton. naive_solver.
    + intros c Hc. by destruct (coh_latest _ Hcoh' c i Hc) as (_ & ? & _).
    + intros s Hs Hi. by destruct (coh_merger _ Hcoh' s i Hs Hi) as (_ & ?).
Qed.

Lemma dequeue_returns_generated_front_witness :
  ∃ w,
    run 8 initialWorld
      [Enqueue (mkTask 0 [] [7%nat] 0); Enqueue (mkTask 1 [7%nat] [] 5);
       Enqueue (mkTask 1 [7%nat] [] 5)]
      = Some w ∧
    ∃ r q',
      ModelTaskQueue.dequeue 20 (queue w) = Some (r, q') ∧
      Double.dequeue 20 (ModelTaskQueue.eligibleInstructions (queue w))
        = PriorityPartitionedQueue.dequeue 20
            (ModelTaskQueue.eligibleInstructions (queue w)) ∧
      (r = None ↔ ModelTaskQueue.isEmpty (queue w) = true) ∧
      (r = None ↔
       PriorityPartitionedQueue.elements
         (ModelTaskQueue.eligibleInstructions (queue w)) = []) ∧
      ∀ t, r = Some t →
        ∃ i rest n ps gen',
          t = task i ∧
          i ∈ live w ∧
          PriorityPartitionedQueue.subQueue
            (ModelTaskQueue.eligibleInstructions (queue w))
            (TaskInstruction.getPriority i) = i :: rest ∧
          PriorityGenerator.nexts (S n)
            (PriorityPartitionedQueue.priorityGen
               (ModelTaskQueue.eligibleInstructions (queue w)))
            = (ps ++ [TaskInstruction.getPriority i], gen') ∧
          Double.nexts (S n)
            (PriorityPartitionedQueue.priorityGen
               (ModelTaskQueue.eligibleInstructions (queue w)))
            = (ps ++ [TaskInstruction.getPriority i], gen') ∧
          (∀ p, p ∈ ps →
                PriorityPartitionedQueue.subQueue
                  (ModelTaskQueue.eligibleInstructions (queue w)) p = []) ∧
          TaskInstruction.invDeps (cells (ModelTaskQueue.heap q')) i = [] ∧
          (∀ x, x ∈ TaskInstruction.invDeps
                      (cells (ModelTaskQueue.heap (queue w))) i →
                i ∉ TaskInstruction.deps (cells (ModelTaskQueue.heap q')) x) ∧
          (∀ x y, x ∈ created w →
                y ∈ TaskInstruction.deps (cells (ModelTaskQueue.heap q')) x →
                y ∈ TaskInstruction.deps
                      (cells (ModelTaskQueue.heap (queue w))) x) ∧
          (∀ x, x ∈ live w → x ≠ i →
                TaskInstruction.deps (cells (ModelTaskQueue.heap q')) x = [] →
                x ∈ PriorityPartitionedQueue.elements
                      (ModelTaskQueue.eligibleInstructions q')) ∧
          (∀ c, ModelTaskQueue.latestComponentStateMap q' !! c ≠ Some i) ∧
          (∀ s, s ∈ InstructionMerger.interestSets (ModelTaskQueue.merger q') →
                i ∉ s).
Proof.
  eexists. split; [vm_compute; reflexivity|].
  apply (dequeue_returns_generated_front 8
           [Enqueue (mkTask 0 [] [7%nat] 0); Enqueue (mkTask 1 [7%nat] [] 5);
            Enqueue (mkTask 1 [7%nat] [] 5)]).
  - vm_compute. reflexivity.
  - compute_done.
  - compute_done.
  - vm_compute. lia.
Defined.

(** C6 as stated fails: the instruction picked is not always the one of
    highest priority.  After three tasks of priority 1 and one of priority
    0 are enqueued and two are dequeued, [dequeue] returns the task of
    priority 0 while a task of priority 1 waits in the queue. *)
Lemma dequeue_not_highest_priority :
  let tC := mkTask 2 [] [] 1 in
  let tD := mkTask 3 [] [] 0 in
  ∃ w q',
    run 8 initialWorld
      [Enqueue (mkTask 0 [] [] 1); Enqueue (mkTask 1 [] [] 1);
       Enqueue tC; Enqueue tD; Dequeue; Dequeue] = Some w ∧
    ModelTaskQueue.dequeue 8 (queue w) = Some (Some tD, q') ∧
    Build_TaskInstruction 2 tC
      ∈ PriorityPartitionedQueue.elements
          (ModelTaskQueue.eligibleInstructions (queue w)) ∧
    priority (metadata tD) < priority (metadata tC).
Proof.
  intros tC tD. eexists. eexists.
  split; [vm_compute; reflexivity|].
  split; [vm_compute; reflexivity|].
  split; [compute_done|]. vm_compute. reflexivity.
Qed.

(** ** The merge scenario *)


Lemma eligible_not_empty w x :
  Coherent w → x ∈ created w → x ∉ returned w →
  TaskInstruction.deps (cells (ModelTaskQueue.heap (queue w))) x = [] →
  ModelTaskQueue.isEmpty (queue w) = false.
Proof.
  intros Hcoh HxC HxR Hd.
  destruct (ModelTaskQueue.isEmpty (queue w)) eqn:He; [|done].
  apply (isEmpty_elements TaskInstruction.getPriority _ (coh_ppq_wf w Hcoh)) in He.
  assert (x ∈ PriorityPartitionedQueue.elements
                (ModelTaskQueue.eligibleInstructions (queue w))) as Hx.
  { apply elem_of_elements. exists (TaskInstruction.getPriority x).
    by apply (coh_ppq w Hcoh). }
  rewrite He in Hx. by apply elem_of_nil in Hx.
Qed.





(** ** Every trace runs

    With fuel enough, every trace of operations runs to its end from the new
    queue, whatever the tasks: the worlds of the statements above exist. *)

Lemma complete_ppq_wf q i :
  PriorityPartitionedQueue.wf TaskInstruction.getPriority
    (ModelTaskQueue.eligibleInstructions q) →
  PriorityPartitionedQueue.wf TaskInstruction.getPriority
    (ModelTaskQueue.eligibleInstructions (ModelTaskQueue.complete q i)).
Proof.
  intros Hwf. rewrite ModelTaskQueueFacts.complete_unfold. cbv zeta.
  cbn [ModelTaskQueue.eligibleInstructions].
  unfold ModelTaskQueue.releaseDependents.
  apply (fold_left_ind _
           (λ b : gmap nat InstructionSets * PriorityPartitionedQueue.t TaskInstruction,
              PriorityPartitionedQueue.wf TaskInstruction.getPriority b.2));
    [done|].
  intros x [h E] _ HE. cbn [snd] in HE.
  destruct (TaskInstruction.isEligibleForExecution _ x); cbn [snd]; [|done].
  by apply PriorityPartitionedQueueFacts.enqueue_wf.
Qed.

Lemma step_ppq_wf fuel w op w' :
  PriorityPartitionedQueue.wf TaskInstruction.getPriority
    (ModelTaskQueue.eligibleInstructions (queue w)) →
  step fuel w op = Some w' →
  PriorityPartitionedQueue.wf TaskInstruction.getPriority
    (ModelTaskQueue.eligibleInstructions (queue w')).
Proof.
  intros Hwf Hs. destruct op as [t| |r]; simpl in Hs.
  - injection Hs as <-. cbn [queue].
    rewrite CoherenceFacts.coh_enqueue_unfold. cbv zeta.
    cbn [ModelTaskQueue.eligibleInstructions].
    destruct (TaskInstruction.isEligibleForExecution _ _); [|done].
    by apply PriorityPartitionedQueueFacts.enqueue_wf.
  - destruct (ModelTaskQueue.dequeueInstruction fuel (queue w))
      as [[r q]|] eqn:Hd; [|done].
    apply TraceFacts.dequeueInstruction_inv in Hd
      as [(_ & -> & ->)|(He & i & E1 & Hd & -> & ->)].
    + by injection Hs as <-.
    + injection Hs as <-. cbn [queue]. apply complete_ppq_wf.
      cbn [ModelTaskQueue.eligibleInstructions].
      by eapply PriorityPartitionedQueueFacts.dequeue_wf.
  - by injection Hs as <-.
Qed.

Lemma step_fuel_mono fuel fuel' w op w' :
  step fuel w op = Some w' → (fuel ≤ fuel')%nat → step fuel' w op = Some w'.
Proof.
  destruct op as [t| |r]; simpl; try done.
  unfold ModelTaskQueue.dequeueInstruction.
  destruct (PriorityPartitionedQueue.dequeue fuel
              (ModelTaskQueue.eligibleInstructions (queue w)))
    as [r0|] eqn:Hd; [|done].
  intros Hs Hle.
  by rewrite (PriorityPartitionedQueueFacts.dequeue_mono _ _ _ _ Hd Hle).
Qed.

Lemma run_fuel_mono fuel fuel' w ops w' :
  run fuel w ops = Some w' → (fuel ≤ fuel')%nat → run fuel' w ops = Some w'.
Proof.
  revert w. induction ops as [|op ops IH]; intros w; simpl; [done|].
  destruct (step fuel w op) as [w1|] eqn:Hs; [|done]. intros Hr Hle.
  rewrite (step_fuel_mono _ _ _ _ _ Hs Hle). by apply IH.
Qed.

Lemma step_total w op :
  PriorityPartitionedQueue.wf TaskInstruction.getPriority
    (ModelTaskQueue.eligibleInstructions (queue w)) →
  ∃ fuel w', step fuel w op = Some w'.
Proof.
  intros Hwf. destruct op as [t| |r]; simpl.
  - exists 0%nat. by eexists.
  - destruct (PriorityPartitionedQueueFacts.dequeue_terminates
                TaskInstruction.getPriority _ _ Hwf (le_n _))
      as (r & E1 & Hd & _).
    eexists _. unfold ModelTaskQueue.dequeueInstruction. rewrite Hd.
    destruct r; by eexists.
  - exists 0%nat. by eexists.
Qed.

Lemma run_total_from w ops :
  PriorityPartitionedQueue.wf TaskInstruction.getPriority
    (ModelTaskQueue.eligibleInstructions (queue w)) →
  ∃ fuel w', run fuel w ops = Some w'.
Proof.
  revert w. induction ops as [|op ops IH]; intros w Hwf; simpl.
  - by exists 0%nat, w.
  - destruct (step_total w op Hwf) as (f1 & w1 & Hs).
    destruct (IH w1 (step_ppq_wf _ _ _ _ Hwf Hs)) as (f2 & w' & Hr).
    exists (Nat.max f1 f2), w'.
    rewrite (step_fuel_mono _ _ _ _ _ Hs (Nat.le_max_l _ _)).
    by apply (run_fuel_mono f2); [|apply Nat.le_max_r].
Qed.

Lemma run_total ops : ∃ fuel w, run fuel initialWorld ops = Some w.
Proof. apply run_total_from, PriorityPartitionedQueueFacts.queue_new_wf. Qed.

(** * Further properties of the scheduler *)

(** ** The priority generator *)

Lemma generator_runCalls_window history g :
  PriorityGenerator.min (PriorityGenerator.runCalls history g).2
    ≤ PriorityGenerator.min g ∧
  PriorityGenerator.max g
    ≤ PriorityGenerator.max (PriorityGenerator.runCalls history g).2.
Proof.
  revert g. induction history as [|[p|] history IH]; intros g; simpl.
  - lia.
  - specialize (IH (PriorityGenerator.notifyPriorityExists g p)).
    pose proof (PriorityGeneratorFacts.notifyPriorityExists_window g p). simpl in *. lia.
  - pose proof (PriorityGeneratorFacts.next_window g) as [Hmin Hmax].
    destruct (PriorityGenerator.next g) as [r g1]. specialize (IH g1).
    destruct (PriorityGenerator.runCalls history g1) as [ps g2]. simpl in *. lia.
Qed.

Lemma generator_runCalls_in_window history g :
  PriorityGenerator.wf g →
  Forall (λ p, PriorityGenerator.min (PriorityGenerator.runCalls history g).2 ≤ p
               ≤ PriorityGenerator.max (PriorityGenerator.runCalls history g).2)
         (PriorityGenerator.runCalls history g).1.
Proof.
  revert g. induction history as [|[p|] history IH]; intros g Hwf; simpl.
  - constructor.
  - apply IH. by apply PriorityGeneratorFacts.notifyPriorityExists_wf.
  - pose proof (PriorityGeneratorFacts.next_window g) as [Hmin Hmax].
    pose proof (PriorityGeneratorFacts.next_result g) as Hres.
    pose proof (PriorityGeneratorFacts.next_wf g Hwf) as Hwf1.
    destruct (PriorityGenerator.next g) as [r g1]. simpl in *.
    specialize (IH g1 Hwf1).
    pose proof (generator_runCalls_window history g1) as Hwin.
    destruct (PriorityGenerator.runCalls history g1) as [ps g2]. simpl in *.
    constructor; [|done]. destruct Hwf as (? & ? & ?). lia.
Qed.

(** X1.  Whatever calls of [notifyPriorityExists] and [next] a generator
    has received, every priority [next] has returned lies between the
    [min] and the [max] the generator has now. *)
Theorem generated_priorities_in_window (history : list PriorityGenerator.Call) :
  Forall (λ p, PriorityGenerator.min (PriorityGenerator.after history) ≤ p
               ≤ PriorityGenerator.max (PriorityGenerator.after history))
         (PriorityGenerator.runCalls history PriorityGenerator.new).1.
Proof.
  apply generator_runCalls_in_window, PriorityGeneratorFacts.generator_new_wf.
Qed.

Lemma generator_reaches p g :
  PriorityGenerator.wf g →
  PriorityGenerator.min g ≤ p ≤ PriorityGenerator.max g →
  ∃ n ps g',
    Z.of_nat n ≤ PriorityGenerator.distance p g ∧
    PriorityGenerator.nexts (S n) g = (ps ++ [p], g') ∧
    p ∉ ps.
Proof.
  intros Hwf Hp.
  remember (Z.to_nat (PriorityGenerator.distance p g)) as d eqn:Hd.
  revert g Hwf Hp Hd. induction d as [d IH] using lt_wf_ind. intros g Hwf Hp Hd.
  pose proof (PriorityGeneratorFacts.distance_bounds p g Hwf Hp) as [Hd0 _].
  destruct (decide (PriorityGenerator.current g = p)) as [Hc|Hc].
  - exists 0%nat, [], (PriorityGenerator.next g).2.
    split; [lia|]. split; [|by intros ?%elem_of_nil].
    rewrite PriorityGeneratorFacts.nexts_S. simpl.
    by rewrite PriorityGeneratorFacts.next_result, Hc.
  - pose proof (PriorityGeneratorFacts.distance_next p g Hwf Hp Hc) as Hlt.
    pose proof (PriorityGeneratorFacts.next_wf g Hwf) as Hwf1.
    pose proof (PriorityGeneratorFacts.next_window g) as [Hmin Hmax].
    assert (PriorityGenerator.min (PriorityGenerator.next g).2 ≤ p
            ≤ PriorityGenerator.max (PriorityGenerator.next g).2) as Hp1
      by (rewrite Hmin, Hmax; done).
    pose proof (PriorityGeneratorFacts.distance_bounds p _ Hwf1 Hp1) as [Hd1 _].
    destruct (IH (Z.to_nat (PriorityGenerator.distance p
                              (PriorityGenerator.next g).2)))
      with (g := (PriorityGenerator.next g).2)
      as (n & ps & g' & Hn & Hnexts & Hnot); [lia|done|done|done|].
    exists (S n), (PriorityGenerator.current g :: ps), g'.
    split; [lia|]. split.
    + rewrite PriorityGeneratorFacts.nexts_S, Hnexts. simpl.
      by rewrite PriorityGeneratorFacts.next_result.
    + rewrite not_elem_of_cons. done.
Qed.

(** X2.  No priority of the window is neglected as long as every
    priority notified lies from [-2^53] to [2^53]: after any such history
    of calls, for a priority [p] between [min] and [max], some call of
    [next] among the coming [w * w + 2 * w + 1] (with [w = max - min + 1])
    returns [p], the calls before it returning other priorities; the calls
    on doubles are the calls with the exact decrement. *)
Theorem generator_serves_every_priority (history : list PriorityGenerator.Call)
    (p : Z) :
  Forall Double.bounded (PriorityGenerator.notifiedPriorities history) →
  let g := PriorityGenerator.after history in
  let w := PriorityGenerator.max g - PriorityGenerator.min g + 1 in
  PriorityGenerator.min g ≤ p ≤ PriorityGenerator.max g →
  ∃ n ps g',
    Z.of_nat n ≤ w * w + 2 * w ∧
    Double.nexts (S n) g = (ps ++ [p], g') ∧
    PriorityGenerator.nexts (S n) g = (ps ++ [p], g') ∧
    p ∉ ps.
Proof.
  intros Hbounded g w Hp.
  assert (PriorityGenerator.wf g) as Hwf.
  { apply runCalls_wf, PriorityGeneratorFacts.generator_new_wf. }
  destruct (runCalls_bounded history PriorityGenerator.new) as [Hbmin Hbmax];
    [by compute|by compute|done|].
  destruct (generator_reaches p g Hwf Hp) as (n & ps & g' & Hn & Hnexts & Hnot).
  pose proof (PriorityGeneratorFacts.distance_bounds p g Hwf Hp) as [_ Hb].
  exists n, ps, g'. split; [unfold w; lia|]. split; [|done].
  by rewrite DoubleFacts.double_nexts_exact.
Qed.

Lemma generator_serves_every_priority_witness :
  let history := [PriorityGenerator.NotifyPriorityExists 2;
                  PriorityGenerator.NotifyPriorityExists (-1);
                  PriorityGenerator.Next] in
  let g := PriorityGenerator.after history in
  PriorityGenerator.min g = -1 ∧ PriorityGenerator.max g = 2 ∧
  ∃ n ps g',
    Z.of_nat n ≤ 4 * 4 + 2 * 4 ∧
    Double.nexts (S n) g = (ps ++ [-1], g') ∧
    PriorityGenerator.nexts (S n) g = (ps ++ [-1], g') ∧
    -1 ∉ ps.
Proof.
  intros history g. split; [reflexivity|]. split; [reflexivity|].
  apply (generator_serves_every_priority history (-1)).
  - unfold history. cbn [PriorityGenerator.notifiedPriorities flat_map app].
    repeat constructor; unfold Double.bounded; lia.
  - vm_compute. split; discriminate.
Defined.

Lemma generator_runCalls_app h1 h2 g :
  PriorityGenerator.runCalls (h1 ++ h2) g =
    ((PriorityGenerator.runCalls h1 g).1
       ++ (PriorityGenerator.runCalls h2 (PriorityGenerator.runCalls h1 g).2).1,
     (PriorityGenerator.runCalls h2 (PriorityGenerator.runCalls h1 g).2).2).
Proof.
  revert g. induction h1 as [|[p|] h1 IH]; intros g; simpl.
  - by destruct (PriorityGenerator.runCalls h2 g).
  - apply IH.
  - destruct (PriorityGenerator.next g) as [r g1]. rewrite IH.
    destruct (PriorityGenerator.runCalls h1 g1) as [ps1 g2]. simpl.
    by destruct (PriorityGenerator.runCalls h2 g2).
Qed.

Lemma notifyPriorityExists_known g p :
  PriorityGenerator.min g ≤ p ≤ PriorityGenerator.max g →
  PriorityGenerator.notifyPriorityExists g p = g.
Proof.
  intros Hp. unfold PriorityGenerator.notifyPriorityExists.
  destruct g as [mn mx c f]. simpl in *.
  rewrite bool_decide_eq_false_2 by lia. f_equal; lia.
Qed.

(** X3.  Notifying a priority the generator already covers changes
    nothing: if, after the calls [before], priority [p] lies between [min]
    and [max], then a call [notifyPriorityExists p] at that point leaves
    every later result of [next] and the final state as they are without
    it; the cycle is not started again. *)
Theorem notifying_a_known_priority_changes_nothing
    (before later : list PriorityGenerator.Call) (p : Z) :
  PriorityGenerator.min (PriorityGenerator.after before) ≤ p
    ≤ PriorityGenerator.max (PriorityGenerator.after before) →
  PriorityGenerator.runCalls
    (before ++ PriorityGenerator.NotifyPriorityExists p :: later)
    PriorityGenerator.new
  = PriorityGenerator.runCalls (before ++ later) PriorityGenerator.new.
Proof.
  intros Hp. rewrite !generator_runCalls_app. simpl.
  unfold PriorityGenerator.after in Hp.
  by rewrite notifyPriorityExists_known.
Qed.

Lemma notifying_a_known_priority_changes_nothing_witness :
  let before := [PriorityGenerator.NotifyPriorityExists 3;
                 PriorityGenerator.Next; PriorityGenerator.Next] in
  let later := [PriorityGenerator.Next; PriorityGenerator.Next;
                PriorityGenerator.Next] in
  (PriorityGenerator.runCalls (before ++ later) PriorityGenerator.new).1
    = [3; 3; 2; 3; 2] ∧
  PriorityGenerator.runCalls
    (before ++ PriorityGenerator.NotifyPriorityExists 1 :: later)
    PriorityGenerator.new
  = PriorityGenerator.runCalls (before ++ later) PriorityGenerator.new.
Proof.
  intros before later. split; [reflexivity|].
  apply (notifying_a_known_priority_changes_nothing before later 1).
  vm_compute. split; discriminate.
Defined.

Lemma foldr_min_acc a p l :
  foldr Z.min (Z.min a p) l = Z.min p (foldr Z.min a l).
Proof. induction l as [|x l IH]; simpl; lia. Qed.

Lemma foldr_max_acc a p l :
  foldr Z.max (Z.max a p) l = Z.max p (foldr Z.max a l).
Proof. induction l as [|x l IH]; simpl; lia. Qed.

Lemma generator_runCalls_span history g :
  PriorityGenerator.min (PriorityGenerator.runCalls history g).2
    = foldr Z.min (PriorityGenerator.min g)
        (PriorityGenerator.notifiedPriorities history) ∧
  PriorityGenerator.max (PriorityGenerator.runCalls history g).2
    = foldr Z.max (PriorityGenerator.max g)
        (PriorityGenerator.notifiedPriorities history).
Proof.
  revert g. induction history as [|[p|] history IH]; intros g; simpl.
  - done.
  - destruct (IH (PriorityGenerator.notifyPriorityExists g p)) as [-> ->].
    rewrite <- foldr_min_acc, <- foldr_max_acc.
    unfold PriorityGenerator.notifyPriorityExists.
    case_bool_decide; done.
  - pose proof (PriorityGeneratorFacts.next_window g) as [Hmin Hmax].
    destruct (PriorityGenerator.next g) as [r g1]. simpl in *.
    destruct (IH g1) as [IH1 IH2].
    destruct (PriorityGenerator.runCalls history g1) as [ps g2]. simpl in *.
    by rewrite IH1, IH2, Hmin, Hmax.
Qed.

(** X4.  The window of the generator is the span of 0 and of the
    priorities it was notified of: after any history of calls, [min] is
    the least and [max] the greatest among 0 and the notified priorities.
    Priority 0 is in the window also when it was never notified. *)
Theorem generator_window_is_span_of_notified
    (history : list PriorityGenerator.Call) :
  PriorityGenerator.min (PriorityGenerator.after history)
    = foldr Z.min 0 (PriorityGenerator.notifiedPriorities history) ∧
  PriorityGenerator.max (PriorityGenerator.after history)
    = foldr Z.max 0 (PriorityGenerator.notifiedPriorities history).
Proof. apply generator_runCalls_span. Qed.

(** ** The priority-partitioned queue *)

Section QueueCalls.
Context {T : Type} (getPriority : T → Z).

Lemma ppq_runCalls_wf fuel calls q0 out q :
  PriorityPartitionedQueue.wf getPriority q0 →
  PriorityPartitionedQueue.runCalls getPriority fuel calls q0 = Some (out, q) →
  PriorityPartitionedQueue.wf getPriority q.
Proof.
  revert q0 out. induction calls as [|[v|] calls IH]; intros q0 out Hwf; simpl.
  - by intros [= _ <-].
  - apply IH. by apply PriorityPartitionedQueueFacts.enqueue_wf.
  - destruct (PriorityPartitionedQueue.dequeue fuel q0) as [[r q1]|] eqn:Hd;
      [|done].
    destruct (PriorityPartitionedQueue.runCalls getPriority fuel calls q1)
      as [[out1 q2]|] eqn:Hr; [|done].
    intros [= _ <-]. eapply IH; [|done].
    by eapply PriorityPartitionedQueueFacts.dequeue_wf.
Qed.

Lemma ppq_runCalls_fifo fuel calls q0 out q p :
  PriorityPartitionedQueue.wf getPriority q0 →
  PriorityPartitionedQueue.runCalls getPriority fuel calls q0 = Some (out, q) →
  filter (λ v, getPriority v = p) out ++ PriorityPartitionedQueue.subQueue q p
  = PriorityPartitionedQueue.subQueue q0 p
    ++ filter (λ v, getPriority v = p)
         (PriorityPartitionedQueue.enqueuedValues calls).
Proof.
  revert q0 out. induction calls as [|[v|] calls IH]; intros q0 out Hwf; simpl.
  - intros [= <- <-]. simpl. by rewrite app_nil_r.
  - intros Hr.
    rewrite (IH _ _ (PriorityPartitionedQueueFacts.enqueue_wf _ _ v Hwf) Hr).
    rewrite PriorityPartitionedQueueFacts.subQueue_enqueue.
    case_decide as Hp.
    + rewrite filter_cons_True by done. by rewrite <- app_assoc.
    + rewrite filter_cons_False; [done|]. congruence.
  - destruct (PriorityPartitionedQueue.dequeue fuel q0) as [[r q1]|] eqn:Hd;
      [|done].
    destruct (PriorityPartitionedQueue.runCalls getPriority fuel calls q1)
      as [[out1 q2]|] eqn:Hr; [|done].
    intros [= <- <-].
    pose proof (PriorityPartitionedQueueFacts.dequeue_wf _ _ _ _ _ Hwf Hd) as Hwf1.
    specialize (IH _ _ Hwf1 Hr).
    pose proof (PriorityPartitionedQueueFacts.dequeue_spec _ _ _ _ Hd) as Hsp.
    destruct (PriorityPartitionedQueue.isEmpty q0).
    + destruct Hsp as [-> ->]. done.
    + destruct Hsp as (x & p0 & rest & -> & Hhead & Htail & _).
      assert (getPriority x = p0) as Hx.
      { destruct Hwf as (_ & _ & _ & Hb). apply Hb.
        rewrite Hhead, elem_of_cons. auto. }
      rewrite Htail in IH. simpl. case_decide as Hp.
      * subst p. rewrite filter_cons_True by done. rewrite Hhead.
        simpl. by rewrite IH.
      * rewrite filter_cons_False; [done|]. congruence.
Qed.

Lemma ppq_runCalls_total calls q0 :
  PriorityPartitionedQueue.wf getPriority q0 →
  ∃ fuel out q,
    PriorityPartitionedQueue.runCalls getPriority fuel calls q0 = Some (out, q).
Proof.
  revert q0. induction calls as [|[v|] calls IH]; intros q0 Hwf; simpl.
  - by exists 0%nat, [], q0.
  - apply IH. by apply PriorityPartitionedQueueFacts.enqueue_wf.
  - destruct (PriorityPartitionedQueueFacts.dequeue_terminates
                getPriority _ q0 Hwf (le_n _)) as (r & q1 & Hd & _).
    pose proof (PriorityPartitionedQueueFacts.dequeue_wf _ _ _ _ _ Hwf Hd) as Hwf1.
    destruct (IH q1 Hwf1) as (f2 & out & q & Hr).
    set (f1 := PriorityPartitionedQueue.enoughFuel q0) in *.
    exists (Nat.max f1 f2).
    rewrite (PriorityPartitionedQueueFacts.dequeue_mono _ _ _ _ Hd
               (Nat.le_max_l _ _)).
    assert (∀ calls q out q' f f',
              PriorityPartitionedQueue.runCalls getPriority f calls q
                = Some (out, q') → (f ≤ f')%nat →
              PriorityPartitionedQueue.runCalls getPriority f' calls q
                = Some (out, q')) as Hmono.
    { clear. induction calls as [|[v|] calls IH]; intros q out q' f f'; simpl.
      - done.
      - apply IH.
      - destruct (PriorityPartitionedQueue.dequeue f q) as [[r q1]|] eqn:Hd;
          [|done].
        destruct (PriorityPartitionedQueue.runCalls getPriority f calls q1)
          as [[out1 q2]|] eqn:Hr; [|done].
        intros [= <- <-] Hle.
        rewrite (PriorityPartitionedQueueFacts.dequeue_mono _ _ _ _ Hd Hle).
        by rewrite (IH _ _ _ _ _ Hr Hle). }
    rewrite (Hmono _ _ _ _ _ _ Hr (Nat.le_max_r _ _)). by eexists _, _.
Qed.

End QueueCalls.

(** X5.  The queue is first in, first out within each priority, loses
    nothing and invents nothing: after any calls of [enqueue] and
    [dequeue] on a new queue, for every priority [p], the values of
    priority [p] that [dequeue] has returned, in the order returned,
    followed by the values that wait in the sub-queue of [p], are the
    values of priority [p] that were enqueued, in the order enqueued. *)
Theorem ppq_fifo_per_priority {T} (getPriority : T → Z) (fuel : nat)
    (calls : list (PriorityPartitionedQueue.Call T)) (out : list T)
    (q : PriorityPartitionedQueue.t T) (p : Z) :
  PriorityPartitionedQueue.runCalls getPriority fuel calls
    PriorityPartitionedQueue.new = Some (out, q) →
  filter (λ v, getPriority v = p) out ++ PriorityPartitionedQueue.subQueue q p
  = filter (λ v, getPriority v = p)
      (PriorityPartitionedQueue.enqueuedValues calls).
Proof.
  intros Hr.
  rewrite (ppq_runCalls_fifo getPriority fuel calls _ out q p
             (PriorityPartitionedQueueFacts.queue_new_wf getPriority) Hr).
  done.
Qed.

Lemma ppq_fifo_per_priority_witness :
  let calls := [PriorityPartitionedQueue.CallEnqueue (1, 10%nat);
                PriorityPartitionedQueue.CallEnqueue (0, 20%nat);
                PriorityPartitionedQueue.CallEnqueue (1, 30%nat);
                PriorityPartitionedQueue.CallDequeue;
                PriorityPartitionedQueue.CallDequeue;
                PriorityPartitionedQueue.CallEnqueue (1, 40%nat)] in
  ∃ out q,
    PriorityPartitionedQueue.runCalls fst 8 calls PriorityPartitionedQueue.new
      = Some (out, q) ∧
    out = [(1, 10%nat); (1, 30%nat)] ∧
    filter (λ v : Z * nat, v.1 = 1) out
      ++ PriorityPartitionedQueue.subQueue q 1
    = [(1, 10%nat); (1, 30%nat); (1, 40%nat)].
Proof.
  intros calls. eexists. eexists. split; [vm_compute; reflexivity|].
  split; [reflexivity|].
  apply (ppq_fifo_per_priority fst 8 calls). vm_compute. reflexivity.
Defined.

(** Every list of calls of [enqueue] and [dequeue] runs to its end on a
    new queue: with fuel enough, the loop of each [dequeue] terminates; and
    fuel beyond that changes nothing. *)
Lemma ppq_calls_terminate {T} (getPriority : T → Z)
    (calls : list (PriorityPartitionedQueue.Call T)) :
  ∃ fuel out q,
    ∀ fuel', (fuel ≤ fuel')%nat →
      PriorityPartitionedQueue.runCalls getPriority fuel' calls
        PriorityPartitionedQueue.new = Some (out, q).
Proof.
  destruct (ppq_runCalls_total getPriority calls _
              (PriorityPartitionedQueueFacts.queue_new_wf getPriority))
    as (fuel & out & q & Hr).
  exists fuel, out, q. intros fuel' Hle. revert Hr Hle.
  generalize (@PriorityPartitionedQueue.new T). generalize out. clear.
  induction calls as [|[v|] calls IH]; intros out q0; simpl.
  - done.
  - apply IH.
  - destruct (PriorityPartitionedQueue.dequeue fuel q0) as [[r q1]|] eqn:Hd;
      [|done].
    destruct (PriorityPartitionedQueue.runCalls getPriority fuel calls q1)
      as [[out1 q2]|] eqn:Hr; [|done].
    intros [= <- <-] Hle.
    rewrite (PriorityPartitionedQueueFacts.dequeue_mono _ _ _ _ Hd Hle).
    by rewrite (IH _ _ Hr Hle).
Qed.

Lemma ppq_runCalls_reachable {T} (getPriority : T → Z) fuel calls q0 out q :
  PriorityPartitionedQueue.reachable getPriority q0 →
  PriorityPartitionedQueue.runCalls getPriority fuel calls q0 = Some (out, q) →
  PriorityPartitionedQueue.reachable getPriority q.
Proof.
  revert q0 out. induction calls as [|[v|] calls IH]; intros q0 out Hq0; simpl.
  - by intros [= _ <-].
  - apply IH. by constructor.
  - destruct (PriorityPartitionedQueue.dequeue fuel q0) as [[r q1]|] eqn:Hd;
      [|done].
    destruct (PriorityPartitionedQueue.runCalls getPriority fuel calls q1)
      as [[out1 q2]|] eqn:Hr; [|done].
    intros [= _ <-]. eapply IH; [|done].
    by eapply PriorityPartitionedQueue.reachable_dequeue.
Qed.

(** X6.  A value of a priority above every priority the queue has seen
    is served next: in a state the queue reaches through [enqueue] and
    [dequeue], after [enqueue] of a value [x] whose priority is greater
    than the [max] of the generator, [dequeue] returns [x], whatever
    waits in the queue. *)
Theorem ppq_new_highest_priority_first {T} (getPriority : T → Z)
    (q : PriorityPartitionedQueue.t T) (x : T) (fuel : nat) :
  PriorityPartitionedQueue.reachable getPriority q →
  PriorityGenerator.max (PriorityPartitionedQueue.priorityGen q)
    < getPriority x →
  ∃ q',
    PriorityPartitionedQueue.dequeue (S fuel)
      (PriorityPartitionedQueue.enqueue getPriority q x) = Some (Some x, q') ∧
    ∀ p, PriorityPartitionedQueue.subQueue q' p
         = PriorityPartitionedQueue.subQueue q p.
Proof.
  intros Hq Hmax.
  pose proof (reachable_wf getPriority q Hq) as Hwf.
  pose proof (PriorityPartitionedQueueFacts.enqueue_wf getPriority q x Hwf) as Hwf1.
  destruct Hwf as (Hg & Hw & Hc & Hb).
  set (p := getPriority x) in *.
  assert (PriorityPartitionedQueue.subQueue q p = []) as Hnil.
  { destruct (PriorityPartitionedQueue.subQueue q p) eqn:E; [done|].
    destruct (Hw p); [by rewrite E|lia]. }
  set (q1 := PriorityPartitionedQueue.enqueue getPriority q x) in *.
  assert (PriorityPartitionedQueue.subQueue q1 p = [x]) as Hsub1.
  { unfold q1. rewrite PriorityPartitionedQueueFacts.subQueue_enqueue.
    fold p. rewrite decide_True by done. by rewrite Hnil. }
  assert (PriorityGenerator.current (PriorityPartitionedQueue.priorityGen q1) = p)
    as Hcur.
  { unfold q1. rewrite PriorityPartitionedQueueFacts.priorityGen_enqueue.
    fold p. rewrite Hnil. simpl.
    unfold PriorityGenerator.notifyPriorityExists.
    case_bool_decide; simpl; lia. }
  assert (PriorityPartitionedQueue.isEmpty q1 = false) as Hne.
  { destruct (PriorityPartitionedQueue.isEmpty q1) eqn:He; [|done].
    destruct Hwf1 as (_ & _ & Hc1 & _).
    unfold PriorityPartitionedQueue.isEmpty in He.
    apply bool_decide_eq_true in He. rewrite He in Hc1.
    assert (PriorityPartitionedQueue.nonEmptyQueues
              (PriorityPartitionedQueue.subQueues q1) !! p = Some [x]) as Hl.
    { apply PriorityPartitionedQueueFacts.lookup_nonEmptyQueues. split; [|done].
      unfold PriorityPartitionedQueue.subQueue in Hsub1.
      destruct (PriorityPartitionedQueue.subQueues q1 !! p); by simplify_eq/=. }
    assert (size (PriorityPartitionedQueue.nonEmptyQueues
                    (PriorityPartitionedQueue.subQueues q1)) = 0%nat) as Hz by lia.
    apply map_size_empty_iff in Hz. rewrite Hz in Hl.
    by rewrite lookup_empty in Hl. }
  assert (PriorityPartitionedQueue.subQueues q1 !! p = Some [x]) as Hlook.
  { unfold PriorityPartitionedQueue.subQueue in Hsub1.
    destruct (PriorityPartitionedQueue.subQueues q1 !! p); by simplify_eq/=. }
  unfold PriorityPartitionedQueue.dequeue. rewrite Hne. cbn [PriorityPartitionedQueue.pick].
  pose proof (PriorityGeneratorFacts.next_result
                (PriorityPartitionedQueue.priorityGen q1)) as Hres.
  destruct (PriorityGenerator.next (PriorityPartitionedQueue.priorityGen q1))
    as [pr gen1]. simpl in Hres. rewrite Hcur in Hres. subst pr.
  unfold PriorityPartitionedQueue.getValue. rewrite Hlook. simpl.
  eexists. split; [reflexivity|].
  intros p'. unfold PriorityPartitionedQueue.subQueue at 1. simpl.
  destruct (decide (p' = p)) as [->|Hp].
  - rewrite lookup_insert_eq. simpl. by rewrite Hnil.
  - rewrite lookup_insert_ne by done.
    change (default [] (PriorityPartitionedQueue.subQueues q1 !! p'))
      with (PriorityPartitionedQueue.subQueue q1 p').
    unfold q1. rewrite PriorityPartitionedQueueFacts.subQueue_enqueue.
    fold p. by rewrite decide_False.
Qed.

Lemma ppq_new_highest_priority_first_witness :
  let q := PriorityPartitionedQueue.enqueue fst
             (PriorityPartitionedQueue.enqueue fst
                PriorityPartitionedQueue.new (1, 10%nat)) (1, 20%nat) in
  ∃ q',
    PriorityPartitionedQueue.dequeue 1
      (PriorityPartitionedQueue.enqueue fst q (3, 30%nat))
      = Some (Some (3, 30%nat), q') ∧
    ∀ p, PriorityPartitionedQueue.subQueue q' p
         = PriorityPartitionedQueue.subQueue q p.
Proof.
  intros q. apply (ppq_new_highest_priority_first fst q (3, 30%nat) 0).
  - unfold q. repeat constructor.
  - vm_compute. reflexivity.
Defined.

(** X7.  The counter of the queue is what its documentation says, the
    number of sub-queues that hold a value, in every state the queue
    reaches through [enqueue] and [dequeue]; so [isEmpty] is true exactly
    when no sub-queue holds a value, and each value waits in the
    sub-queue of its own priority. *)
Theorem ppq_counter_counts_sub_queues {T} (getPriority : T → Z)
    (fuel : nat) (calls : list (PriorityPartitionedQueue.Call T))
    (out : list T) (q : PriorityPartitionedQueue.t T) :
  PriorityPartitionedQueue.runCalls getPriority fuel calls
    PriorityPartitionedQueue.new = Some (out, q) →
  PriorityPartitionedQueue.nonEmptySubQueueCount q
    = Z.of_nat (size (filter (λ kv : Z * list T, kv.2 ≠ [])
                        (PriorityPartitionedQueue.subQueues q))) ∧
  (PriorityPartitionedQueue.isEmpty q = true
   ↔ ∀ p, PriorityPartitionedQueue.subQueue q p = []) ∧
  (∀ p x, x ∈ PriorityPartitionedQueue.subQueue q p → getPriority x = p).
Proof.
  intros Hr.
  pose proof (ppq_runCalls_wf getPriority fuel calls _ out q
                (PriorityPartitionedQueueFacts.queue_new_wf getPriority) Hr)
    as Hwf.
  pose proof Hwf as (_ & _ & Hc & Hb).
  split; [|split; [|done]].
  - rewrite Hc. f_equal. f_equal. unfold PriorityPartitionedQueue.nonEmptyQueues.
    apply map_filter_ext. intros p l _. simpl. by destruct l.
  - rewrite (isEmpty_elements getPriority q Hwf). split.
    + intros He p.
      destruct (PriorityPartitionedQueue.subQueue q p) as [|x l] eqn:E; [done|].
      assert (x ∈ PriorityPartitionedQueue.elements q) as Hx.
      { apply elem_of_elements. exists p. rewrite E, elem_of_cons. auto. }
      rewrite He in Hx. by apply elem_of_nil in Hx.
    + intros Hall.
      destruct (PriorityPartitionedQueue.elements q) as [|x l] eqn:E; [done|].
      assert (x ∈ PriorityPartitionedQueue.elements q) as Hx
        by (rewrite E, elem_of_cons; auto).
      apply elem_of_elements in Hx as [p Hp]. rewrite Hall in Hp.
      by apply elem_of_nil in Hp.
Qed.

Lemma ppq_counter_counts_sub_queues_witness :
  let calls := [PriorityPartitionedQueue.CallEnqueue (1, 10%nat);
                PriorityPartitionedQueue.CallEnqueue (0, 20%nat);
                PriorityPartitionedQueue.CallEnqueue (1, 30%nat);
                PriorityPartitionedQueue.CallDequeue;
                PriorityPartitionedQueue.CallDequeue] in
  ∃ out q,
    PriorityPartitionedQueue.runCalls fst 8 calls PriorityPartitionedQueue.new
      = Some (out, q) ∧
    PriorityPartitionedQueue.nonEmptySubQueueCount q = 1 ∧
    PriorityPartitionedQueue.nonEmptySubQueueCount q
      = Z.of_nat (size (filter (λ kv : Z * list (Z * nat), kv.2 ≠ [])
                          (PriorityPartitionedQueue.subQueues q))) ∧
    (PriorityPartitionedQueue.isEmpty q = true
     ↔ ∀ p, PriorityPartitionedQueue.subQueue q p = []) ∧
    (∀ p x, x ∈ PriorityPartitionedQueue.subQueue q p → x.1 = p).
Proof.
  intros calls. eexists. eexists. split; [vm_compute; reflexivity|].
  split; [reflexivity|].
  eapply (ppq_counter_counts_sub_queues fst 8 calls). vm_compute. reflexivity.
Defined.

(** ** Traces of the model task queue *)

(** What one operation does to a world, by cases. *)
Lemma step_cases fuel w op w' :
  Coherent w → step fuel w op = Some w' →
  (∃ t, op = Enqueue t ∧
        w' = Build_World (ModelTaskQueue.enqueue (queue w) t)
               (created w ++ [Build_TaskInstruction
                                (fresh (ModelTaskQueue.heap (queue w))) t])
               (returned w)) ∨
  (op = Dequeue ∧ ModelTaskQueue.isEmpty (queue w) = true ∧ w' = w) ∨
  (op = Dequeue ∧ ModelTaskQueue.isEmpty (queue w) = false ∧
   ∃ i E1 p rest,
     PriorityPartitionedQueue.subQueue
       (ModelTaskQueue.eligibleInstructions (queue w)) p = i :: rest ∧
     PriorityPartitionedQueue.wf TaskInstruction.getPriority E1 ∧
     w' = Build_World
            (ModelTaskQueue.complete
               (ModelTaskQueue.mk E1
                  (ModelTaskQueue.latestComponentStateMap (queue w))
                  (ModelTaskQueue.merger (queue w))
                  (ModelTaskQueue.heap (queue w))) i)
            (created w) (returned w ++ [i])) ∨
  (∃ r, op = RegisterRewriter r ∧
        w' = Build_World (ModelTaskQueue.registerRewriter (queue w) r)
               (created w) (returned w)).
Proof.
  intros Hcoh Hs. destruct op as [t| |r]; simpl in Hs.
  - injection Hs as <-. left. by exists t.
  - right. destruct (ModelTaskQueue.dequeueInstruction fuel (queue w))
      as [[r q]|] eqn:Hd; [|done].
    apply TraceFacts.dequeueInstruction_inv in Hd
      as [(He & -> & ->)|(He & i & E1 & Hd & -> & ->)].
    + injection Hs as <-. left. by destruct w.
    + injection Hs as <-. right. left. split; [done|]. split; [done|].
      pose proof (PriorityPartitionedQueueFacts.dequeue_spec _ _ _ _ Hd) as Hsp.
      unfold ModelTaskQueue.isEmpty in He. rewrite He in Hsp.
      destruct Hsp as (x & p & rest & [= <-] & Hhead & Htail & _).
      exists i, E1, p, rest. split; [done|]. split; [|done].
      eapply PriorityPartitionedQueueFacts.dequeue_wf;
        [apply (coh_ppq_wf w Hcoh)|apply Hd].
  - injection Hs as <-. right. right. right. by exists r.
Qed.

Lemma run_snoc fuel w ops op w' :
  run fuel w (ops ++ [op]) = Some w' ↔
  ∃ w1, run fuel w ops = Some w1 ∧ step fuel w1 op = Some w'.
Proof.
  rewrite TraceFacts.run_app. destruct (run fuel w ops) as [w1|]; cbn [run].
  - destruct (step fuel w1 op) as [w2|] eqn:Hs; split.
    + intros [= <-]. by exists w1.
    + intros (? & [= <-] & Hs'). by rewrite <- Hs', Hs.
    + done.
    + intros (? & [= <-] & Hs'). by rewrite <- Hs', Hs.
  - split; [done|]. by intros (? & ? & _).
Qed.

(** Induction along the traces of the queue, with the invariant of the
    worlds at hand. *)
Lemma run_ind_indexed (P : World → Prop) :
  P initialWorld →
  (∀ fuel w op w',
     Coherent w → Coherent w' → P w → step fuel w op = Some w' → P w') →
  ∀ fuel ops w,
    run fuel initialWorld ops = Some w → indexedTasks ops → P w.
Proof.
  intros H0 Hstep fuel ops. induction ops as [|op ops IH] using rev_ind;
    intros w Hr Hi.
  - by injection Hr as <-.
  - pose proof Hr as Hr'. apply run_snoc in Hr as (w1 & Hr1 & Hs).
    pose proof (indexedTasks_app_l _ _ Hi) as Hi1.
    apply (Hstep fuel w1 op w).
    + by apply (CoherenceFacts.coh_reachable fuel ops).
    + by apply (CoherenceFacts.coh_reachable fuel (ops ++ [op])).
    + by apply IH.
    + done.
Qed.

Lemma run_ind_distinct (P : World → Prop) :
  P initialWorld →
  (∀ fuel w op w',
     Coherent w → Coherent w' →
     NoDup (TaskInstruction.toString <$> created w') →
     P w → step fuel w op = Some w' → P w') →
  ∀ fuel ops w,
    run fuel initialWorld ops = Some w → distinctTasks ops → P w.
Proof.
  intros H0 Hstep fuel ops. induction ops as [|op ops IH] using rev_ind;
    intros w Hr Hd.
  - by injection Hr as <-.
  - pose proof Hr as Hr'. apply run_snoc in Hr as (w1 & Hr1 & Hs).
    assert (distinctTasks ops) as Hd1.
    { unfold distinctTasks in *.
      rewrite TraceFacts.enqueuedTasks_app, fmap_app in Hd.
      by apply NoDup_app in Hd as (? & _). }
    apply (Hstep fuel w1 op w).
    + by apply (CoherenceFacts.coh_reachable fuel ops),
        distinctTasks_indexedTasks.
    + by apply (CoherenceFacts.coh_reachable fuel (ops ++ [op])),
        distinctTasks_indexedTasks.
    + by apply (created_keys fuel (ops ++ [op])).
    + by apply IH.
    + done.
Qed.

(** X8.  Every edge of the dependency graph is a read after a write and
    points back in time: in every world a trace reaches (the index of a
    task identifying it), an instruction [y] of the dependency set of [x]
    was made before [x], and the task of [y] writes a component that the
    task of [x] reads. *)
Theorem dependencies_are_reads_after_writes (fuel : nat) (ops : list Op)
    (w : World) :
  run fuel initialWorld ops = Some w →
  indexedTasks ops →
  ∀ x y, x ∈ created w →
    y ∈ TaskInstruction.deps (cells (ModelTaskQueue.heap (queue w))) x →
    y ∈ created w ∧ (iid y < iid x)%nat ∧
    ∃ c, c ∈ readSet (metadata (task x)) ∧ c ∈ writeSet (metadata (task y)).
Proof.
  intros Hrun Hi x y Hx Hy.
  pose proof (CoherenceFacts.coh_reachable fuel ops w Hrun Hi) as Hcoh.
  split; [by destruct (coh_deps w Hcoh x y Hx Hy)|].
  split; [by apply (coh_deps_older w Hcoh)|].
  revert x y Hx Hy. revert fuel ops w Hrun Hi Hcoh.
  refine (λ fuel ops w Hrun Hi _,
            run_ind_indexed
              (λ w, ∀ x y, x ∈ created w →
                 y ∈ TaskInstruction.deps
                       (cells (ModelTaskQueue.heap (queue w))) x →
                 ∃ c, c ∈ readSet (metadata (task x)) ∧
                      c ∈ writeSet (metadata (task y)))
              _ _ fuel ops w Hrun Hi).
  - by intros x y ?%elem_of_nil.
  - clear. intros fuel w op w' Hcoh Hcoh' IH Hs x y Hx Hy.
    destruct (step_cases fuel w op w' Hcoh Hs)
      as [(t & -> & ->)|[(-> & _ & ->)|[(-> & _ & i & E1 & p & rest & Hhead
                                          & Hwf1 & ->)|(r & -> & ->)]]].
    + cbn [queue created] in Hx, Hy.
      apply elem_of_app in Hx as [Hx|Hx%list_elem_of_singleton].
      * rewrite (CoherenceFacts.coh_enqueue_deps w t Hcoh x Hx) in Hy.
        by apply IH.
      * subst x.
        destruct (CoherenceFacts.coh_enqueue_new_deps_latest w t Hcoh y Hy)
          as (c & Hc & Hl).
        exists c. split; [done|].
        by destruct (coh_latest w Hcoh c y Hl) as (_ & _ & ?).
    + by apply IH.
    + cbn [queue created] in Hx, Hy.
      destruct (CoherenceFacts.coh_complete_deps w Hcoh i E1 p rest
                  Hhead Hwf1 x Hx) as (Hsub & _).
      apply IH; [done|]. by apply Hsub.
    + by apply IH.
Qed.

Lemma dependencies_are_reads_after_writes_witness :
  let tA := mkTask 0 [] [7%nat] 0 in
  let tB := mkTask 1 [7%nat; 8%nat] [9%nat] 5 in
  let A := Build_TaskInstruction 0 tA in
  let B := Build_TaskInstruction 1 tB in
  ∃ w,
    run 8 initialWorld [Enqueue tA; Enqueue tB] = Some w ∧
    A ∈ TaskInstruction.deps (cells (ModelTaskQueue.heap (queue w))) B ∧
    A ∈ created w ∧ (iid A < iid B)%nat ∧
    ∃ c, c ∈ readSet (metadata (task B)) ∧ c ∈ writeSet (metadata (task A)).
Proof.
  intros tA tB A B. eexists. split; [vm_compute; reflexivity|].
  split; [compute_done|].
  apply (dependencies_are_reads_after_writes 8 [Enqueue tA; Enqueue tB]).
  - vm_compute. reflexivity.
  - compute_done.
  - compute_done.
  - compute_done.
Defined.

(** ** The latest-writer map *)

Lemma recordWrites_other i ws (latest : gmap nat TaskInstruction) c :
  c ∉ ws → ModelTaskQueue.recordWrites i ws latest !! c = latest !! c.
Proof.
  unfold ModelTaskQueue.recordWrites. revert latest.
  induction ws as [|c' ws IH]; intros latest Hc; simpl; [done|].
  apply not_elem_of_cons in Hc as [Hne Hc].
  rewrite IH by done. by rewrite lookup_insert_ne.
Qed.

Lemma lastWriter_snoc c l n :
  lastWriter c (l ++ [n]) =
    if decide (c ∈ writeSet (metadata (task n))) then Some n
    else lastWriter c l.
Proof.
  unfold lastWriter. rewrite filter_app, filter_cons, filter_nil.
  case_decide.
  - by rewrite last_snoc.
  - by rewrite app_nil_r.
Qed.

Lemma lastWriter_Some c l x :
  lastWriter c l = Some x → x ∈ l ∧ c ∈ writeSet (metadata (task x)).
Proof.
  unfold lastWriter. intros [l' Hl]%last_Some.
  assert (x ∈ filter (λ x, c ∈ writeSet (metadata (task x))) l) as Hx.
  { rewrite Hl, elem_of_app, list_elem_of_singleton. auto. }
  apply list_elem_of_filter in Hx. naive_solver.
Qed.

(** X9.  What the latest-writer map holds: in every world a trace reaches
    (the index of a task identifying it), the entry of a component [c] is
    the instruction made last among those whose task writes [c], as long
    as [dequeue] has not returned that instruction; once it has, the map
    has no entry for [c], also when an earlier writer of [c] still
    waits. *)
Theorem latest_writer_is_last_writer (fuel : nat) (ops : list Op) (w : World) :
  run fuel initialWorld ops = Some w →
  indexedTasks ops →
  ∀ c, ModelTaskQueue.latestComponentStateMap (queue w) !! c =
       match lastWriter c (created w) with
       | Some x => if decide (x ∈ returned w) then None else Some x
       | None => None
       end.
Proof.
  revert fuel ops w.
  apply (run_ind_indexed
           (λ w, ∀ c, ModelTaskQueue.latestComponentStateMap (queue w) !! c =
                      match lastWriter c (created w) with
                      | Some x => if decide (x ∈ returned w) then None else Some x
                      | None => None
                      end)).
  - intros c. simpl. by rewrite lookup_empty.
  - intros fuel w op w' Hcoh Hcoh' IH Hs c.
    destruct (step_cases fuel w op w' Hcoh Hs)
      as [(t & -> & ->)|[(-> & _ & ->)|[(-> & _ & i & E1 & p & rest & Hhead
                                          & Hwf1 & ->)|(r & -> & ->)]]].
    + cbn [queue created returned].
      rewrite CoherenceFacts.coh_enqueue_unfold. cbv zeta.
      cbn [ModelTaskQueue.latestComponentStateMap].
      rewrite lastWriter_snoc. cbn [task]. case_decide as Hc.
      * rewrite decide_False
          by apply (CoherenceFacts.coh_new_not_in_returned w t Hcoh).
        by apply ModelTaskQueueFacts.recordWrites_member.
      * rewrite recordWrites_other by done. apply IH.
    + apply IH.
    + cbn [queue created returned].
      rewrite ModelTaskQueueFacts.complete_unfold. cbv zeta.
      cbn [ModelTaskQueue.latestComponentStateMap].
      destruct (CoherenceFacts.coh_picked w Hcoh i p rest Hhead)
        as (HiC & HiR & _ & _).
      apply option_eq. intros z.
      rewrite ModelTaskQueueFacts.forgetWrites_lookup, IH.
      destruct (lastWriter c (created w)) as [x|] eqn:Hlw; [|naive_solver].
      destruct (lastWriter_Some c _ x Hlw) as [HxC Hxw].
      destruct (decide (x ∈ returned w)) as [HxR|HxR].
      * rewrite decide_True by (rewrite elem_of_app; auto). naive_solver.
      * destruct (decide (x = i)) as [->|Hne].
        -- rewrite decide_True
             by (rewrite elem_of_app, list_elem_of_singleton; auto).
           split; [|done]. intros [[= <-] Hn]. destruct Hn. done.
        -- rewrite decide_False.
           2:{ rewrite elem_of_app, list_elem_of_singleton. naive_solver. }
           split; [by intros [? _]|]. intros [= <-]. split; [done|].
           intros [_ Hid]. apply Hne.
           by eapply ModelTaskQueueFacts.iid_inj; [apply (coh_iid w Hcoh)|..].
    + apply IH.
Qed.

Lemma latest_writer_is_last_writer_witness :
  let tA := mkTask 0 [] [7%nat] 0 in
  let tB := mkTask 1 [] [7%nat] 3 in
  ∃ w,
    run 8 initialWorld [Enqueue tA; Enqueue tB; Dequeue] = Some w ∧
    task <$> returned w = [tB] ∧
    lastWriter 7%nat (created w) = Some (Build_TaskInstruction 1 tB) ∧
    ModelTaskQueue.latestComponentStateMap (queue w) !! 7%nat = None ∧
    ∀ c, ModelTaskQueue.latestComponentStateMap (queue w) !! c =
         match lastWriter c (created w) with
         | Some x => if decide (x ∈ returned w) then None else Some x
         | None => None
         end.
Proof.
  intros tA tB. eexists. split; [vm_compute; reflexivity|].
  split; [vm_compute; reflexivity|]. split; [vm_compute; reflexivity|].
  split; [vm_compute; reflexivity|].
  apply (latest_writer_is_last_writer 8 [Enqueue tA; Enqueue tB; Dequeue]).
  - vm_compute. reflexivity.
  - compute_done.
Defined.

(** ** No task is left behind when each is enqueued once *)

Lemma dependencies_are_live fuel ops w :
  run fuel initialWorld ops = Some w → distinctTasks ops →
  ∀ x y, x ∈ created w →
    y ∈ TaskInstruction.deps (cells (ModelTaskQueue.heap (queue w))) x →
    y ∉ returned w.
Proof.
  revert fuel ops w.
  apply (run_ind_distinct
           (λ w, ∀ x y, x ∈ created w →
              y ∈ TaskInstruction.deps
                    (cells (ModelTaskQueue.heap (queue w))) x →
              y ∉ returned w)).
  - by intros x y ?%elem_of_nil.
  - intros fuel w op w' Hcoh Hcoh' Hnd IH Hs x y Hx Hy.
    destruct (step_cases fuel w op w' Hcoh Hs)
      as [(t & -> & ->)|[(-> & _ & ->)|[(-> & _ & i & E1 & p & rest & Hhead
                                          & Hwf1 & ->)|(r & -> & ->)]]].
    + cbn [queue created returned] in *.
      apply elem_of_app in Hx as [Hx|Hx%list_elem_of_singleton].
      * rewrite (CoherenceFacts.coh_enqueue_deps w t Hcoh x Hx) in Hy.
        by apply (IH x y).
      * subst x.
        destruct (CoherenceFacts.coh_enqueue_new_deps_latest w t Hcoh y Hy)
          as (c & Hc & Hl).
        by destruct (coh_latest w Hcoh c y Hl) as (_ & ? & _).
    + by apply (IH x y).
    + cbn [queue created returned] in *.
      destruct (CoherenceFacts.coh_picked w Hcoh i p rest Hhead)
        as (HiC & HiR & _ & _).
      destruct (CoherenceFacts.coh_complete_deps w Hcoh i E1 p rest
                  Hhead Hwf1 x Hx) as (Hsub & _ & Hcut & _).
      pose proof (Hsub y Hy) as Hy0.
      rewrite elem_of_app, list_elem_of_singleton.
      intros [HyR| ->]; [by apply (IH x y)|].
      pose proof (coh_mirror w Hcoh x i Hx Hy0 HiR) as Hm.
      apply set_contains_true in Hm as (z & Hz & Hk).
      destruct (coh_invDeps w Hcoh z i HiC Hz) as (HzC & _ & _).
      assert (z = x) as ->
        by (by eapply ModelTaskQueueFacts.key_inj; [apply Hnd|..]).
      by apply (Hcut Hz).
    + by apply (IH x y).
Qed.

Lemma live_has_eligible w :
  Coherent w →
  (∀ x y, x ∈ created w →
     y ∈ TaskInstruction.deps (cells (ModelTaskQueue.heap (queue w))) x →
     y ∉ returned w) →
  ∀ x, x ∈ live w →
    ∃ z, z ∈ live w ∧
         TaskInstruction.deps (cells (ModelTaskQueue.heap (queue w))) z = [].
Proof.
  intros Hcoh Hlive x. remember (iid x) as n eqn:Hn. revert x Hn.
  induction n as [n IH] using lt_wf_ind. intros x -> Hx.
  destruct (TaskInstruction.deps (cells (ModelTaskQueue.heap (queue w))) x)
    as [|y l] eqn:E; [by exists x|].
  apply elem_of_live in Hx as [HxC HxR].
  assert (y ∈ TaskInstruction.deps (cells (ModelTaskQueue.heap (queue w))) x)
    as Hy by (rewrite E, elem_of_cons; auto).
  apply (IH (iid y)) with (x := y).
  - by apply (coh_deps_older w Hcoh).
  - done.
  - apply elem_of_live. split; [|by apply (Hlive x)].
    by destruct (coh_deps w Hcoh x y HxC Hy).
Qed.

Lemma isEmpty_iff_no_live fuel ops w :
  run fuel initialWorld ops = Some w → distinctTasks ops →
  ModelTaskQueue.isEmpty (queue w) = true ↔ live w = [].
Proof.
  intros Hrun Hd.
  pose proof (CoherenceFacts.coh_reachable fuel ops w Hrun
                (distinctTasks_indexedTasks _ Hd)) as Hcoh.
  split.
  - intros He. destruct (live w) as [|x l] eqn:E; [done|].
    assert (x ∈ live w) as Hx by (rewrite E, elem_of_cons; auto).
    destruct (live_has_eligible w Hcoh (dependencies_are_live fuel ops w Hrun Hd)
                x Hx) as (z & [HzC HzR]%elem_of_live & Hz).
    pose proof (eligible_not_empty w z Hcoh HzC HzR Hz). congruence.
  - intros Hl.
    apply (isEmpty_elements TaskInstruction.getPriority _ (coh_ppq_wf w Hcoh)).
    destruct (PriorityPartitionedQueue.elements
                (ModelTaskQueue.eligibleInstructions (queue w)))
      as [|x l] eqn:E; [done|].
    assert (x ∈ PriorityPartitionedQueue.elements
                  (ModelTaskQueue.eligibleInstructions (queue w))) as Hx
      by (rewrite E, elem_of_cons; auto).
    apply elem_of_elements in Hx as [p Hp].
    apply (coh_ppq w Hcoh) in Hp as (HxC & HxR & _).
    assert (x ∈ live w) as Hxl by (by apply elem_of_live).
    rewrite Hl in Hxl. by apply elem_of_nil in Hxl.
Qed.

(** X10.  When no task is enqueued twice, the queue reports empty exactly
    when nothing waits: in every world a trace reaches, [isEmpty] is true
    if and only if every instruction made has been returned by [dequeue];
    and while one waits, one is eligible. *)
Theorem queue_empty_iff_nothing_waits (fuel : nat) (ops : list Op) (w : World) :
  run fuel initialWorld ops = Some w →
  distinctTasks ops →
  (ModelTaskQueue.isEmpty (queue w) = true ↔ live w = []) ∧
  (live w ≠ [] →
   ∃ z, z ∈ live w ∧
        TaskInstruction.deps (cells (ModelTaskQueue.heap (queue w))) z = [] ∧
        z ∈ PriorityPartitionedQueue.elements
              (ModelTaskQueue.eligibleInstructions (queue w))).
Proof.
  intros Hrun Hd. split; [by apply (isEmpty_iff_no_live fuel ops)|].
  pose proof (CoherenceFacts.coh_reachable fuel ops w Hrun
                (distinctTasks_indexedTasks _ Hd)) as Hcoh.
  intros Hne. destruct (live w) as [|x l] eqn:E; [done|].
  assert (x ∈ live w) as Hx by (rewrite E, elem_of_cons; auto).
  rewrite <- E in *.
  destruct (live_has_eligible w Hcoh (dependencies_are_live fuel ops w Hrun Hd)
              x Hx) as (z & Hzl & Hz).
  exists z. split; [done|]. split; [done|].
  apply elem_of_live in Hzl as [HzC HzR].
  apply elem_of_elements. exists (TaskInstruction.getPriority z).
  by apply (coh_ppq w Hcoh).
Qed.

Lemma queue_empty_iff_nothing_waits_witness :
  let tA := mkTask 0 [] [7%nat] 0 in
  let tB := mkTask 1 [7%nat] [] 5 in
  ∃ w,
    run 8 initialWorld [Enqueue tA; Enqueue tB; Dequeue] = Some w ∧
    live w = [Build_TaskInstruction 1 tB] ∧
    (ModelTaskQueue.isEmpty (queue w) = true ↔ live w = []) ∧
    (live w ≠ [] →
     ∃ z, z ∈ live w ∧
          TaskInstruction.deps (cells (ModelTaskQueue.heap (queue w))) z = [] ∧
          z ∈ PriorityPartitionedQueue.elements
                (ModelTaskQueue.eligibleInstructions (queue w))).
Proof.
  intros tA tB. eexists. split; [vm_compute; reflexivity|].
  split; [vm_compute; reflexivity|].
  apply (queue_empty_iff_nothing_waits 8 [Enqueue tA; Enqueue tB; Dequeue]).
  - vm_compute. reflexivity.
  - unfold distinctTasks. compute_done.
Defined.

Lemma enqueuedTasks_dequeues ops k :
  enqueuedTasks (ops ++ replicate k Dequeue) = enqueuedTasks ops.
Proof.
  rewrite TraceFacts.enqueuedTasks_app.
  assert (enqueuedTasks (replicate k Dequeue) = []) as ->;
    [|by rewrite app_nil_r].
  induction k as [|k IH]; [done|]. simpl. apply IH.
Qed.

Lemma all_returned_length w :
  Coherent w → live w = [] → (length (created w) ≤ length (returned w))%nat.
Proof.
  intros Hcoh Hl. apply submseteq_length, NoDup_submseteq.
  - by apply NoDup_created.
  - intros x Hx. destruct (decide (x ∈ returned w)) as [|Hn]; [done|].
    assert (x ∈ live w) as Hxl by (by apply elem_of_live).
    rewrite Hl in Hxl. by apply elem_of_nil in Hxl.
Qed.

Lemma dequeues_drain k fuel ops w0 w :
  run fuel initialWorld ops = Some w0 → distinctTasks ops →
  run fuel w0 (replicate k Dequeue) = Some w →
  created w = created w0 ∧
  ((length (created w0) ≤ length (returned w))%nat ∨
   (length (returned w0) + k ≤ length (returned w))%nat).
Proof.
  revert ops w0. induction k as [|k IH]; intros ops w0 Hr0 Hd;
    cbn [replicate run].
  - intros [= <-]. split; [done|]. right. lia.
  - destruct (step fuel w0 Dequeue) as [w1|] eqn:Hs; [|done]. intros Hr.
    assert (run fuel initialWorld (ops ++ [Dequeue]) = Some w1) as Hr1.
    { apply run_snoc. by exists w0. }
    assert (distinctTasks (ops ++ [Dequeue])) as Hd1.
    { unfold distinctTasks.
      change [Dequeue] with (replicate 1 Dequeue).
      by rewrite enqueuedTasks_dequeues. }
    destruct (IH _ _ Hr1 Hd1 Hr) as [Hc Hlen].
    pose proof (CoherenceFacts.coh_reachable fuel ops w0 Hr0
                  (distinctTasks_indexedTasks _ Hd)) as Hcoh.
    destruct (step_cases fuel w0 Dequeue w1 Hcoh Hs)
      as [(t & [=] & _)|[(_ & He & ->)|[(_ & _ & i & E1 & p & rest & Hhead
                                          & Hwf1 & ->)|(r & [=] & _)]]].
    + split; [done|]. left.
      apply (isEmpty_iff_no_live fuel ops w0 Hr0 Hd) in He.
      pose proof (all_returned_length w0 Hcoh He). lia.
    + cbn [created returned] in *. split; [done|].
      rewrite length_app in Hlen. simpl in Hlen. lia.
Qed.

(** A trace whose priorities lie from [-2^53] to [2^53] runs on doubles as
    it runs with the exact decrement. *)
Lemma double_run_app fuel w ops1 ops2 :
  DoubleTrace.run fuel w (ops1 ++ ops2) =
    match DoubleTrace.run fuel w ops1 with
    | Some w1 => DoubleTrace.run fuel w1 ops2
    | None => None
    end.
Proof.
  revert w. induction ops1 as [|op ops1 IH]; intros w; simpl; [done|].
  destruct (DoubleTrace.step fuel w op) as [w1|]; [apply IH|done].
Qed.

Lemma double_step_exact fuel w op :
  PriorityGenerator.wf
    (PriorityPartitionedQueue.priorityGen
       (ModelTaskQueue.eligibleInstructions (queue w))) →
  Double.bounded
    (PriorityGenerator.min
       (PriorityPartitionedQueue.priorityGen
          (ModelTaskQueue.eligibleInstructions (queue w)))) →
  Double.bounded
    (PriorityGenerator.max
       (PriorityPartitionedQueue.priorityGen
          (ModelTaskQueue.eligibleInstructions (queue w)))) →
  DoubleTrace.step fuel w op = step fuel w op.
Proof.
  intros Hg Hmin Hmax. destruct op as [t| |r]; [done| |done].
  unfold DoubleTrace.step, step, DoubleTrace.dequeueInstruction,
    ModelTaskQueue.dequeueInstruction.
  by rewrite DoubleFacts.double_dequeue_exact.
Qed.

Lemma double_run_exact fuel ops :
  indexedTasks ops → boundedPriorities ops →
  DoubleTrace.run fuel initialWorld ops = run fuel initialWorld ops.
Proof.
  induction ops as [|op ops IH] using rev_ind; intros Hi Hb; [done|].
  pose proof (indexedTasks_app_l _ _ Hi) as Hi1.
  assert (boundedPriorities ops) as Hb1.
  { unfold boundedPriorities in *. rewrite TraceFacts.enqueuedTasks_app in Hb.
    by apply Forall_app in Hb as [? _]. }
  rewrite double_run_app, TraceFacts.run_app, IH by done.
  destruct (run fuel initialWorld ops) as [w1|] eqn:Hr1; [|done].
  cbn [DoubleTrace.run run].
  pose proof (CoherenceFacts.coh_reachable fuel ops w1 Hr1 Hi1) as Hcoh.
  destruct (run_window_bounded fuel ops w1 Hr1 Hi1 Hb1) as [Hmin Hmax].
  destruct (coh_ppq_wf w1 Hcoh) as (Hg & _).
  by rewrite double_step_exact.
Qed.

(** Beyond [2^53] a trace can stop for ever in [dequeue]: after a task of
    priority [2^53 + 4] is enqueued and dequeued and a task of priority 0
    is enqueued, the queue is not empty and the loop of [dequeue] on
    doubles does not end, the generator returning [2^53 + 4] for ever. *)
Lemma task_queue_dequeue_diverges_beyond_2_53 :
  let tBig := mkTask 0 [] [] (2 ^ 53 + 4) in
  let t0 := mkTask 1 [] [] 0 in
  ∃ w,
    DoubleTrace.run 1 initialWorld [Enqueue tBig; Dequeue; Enqueue t0] = Some w ∧
    returned w = [Build_TaskInstruction 0 tBig] ∧
    live w = [Build_TaskInstruction 1 t0] ∧
    ModelTaskQueue.isEmpty (queue w) = false ∧
    ∀ fuel, DoubleTrace.step fuel w Dequeue = None.
Proof.
  intros tBig t0. eexists. split; [vm_compute; reflexivity|].
  split; [reflexivity|]. split; [vm_compute; reflexivity|].
  split; [vm_compute; reflexivity|].
  intros fuel. unfold DoubleTrace.step, DoubleTrace.dequeueInstruction,
    Double.dequeue. cbn [queue].
  match goal with
  | |- context [PriorityPartitionedQueue.isEmpty ?q] =>
      replace (PriorityPartitionedQueue.isEmpty q) with false
        by (vm_compute; reflexivity);
      set (sq := PriorityPartitionedQueue.subQueues q);
      set (gen := PriorityPartitionedQueue.priorityGen q)
  end.
  assert (Double.next gen = (2 ^ 53 + 4, gen)) as Hnext
    by (vm_compute; reflexivity).
  assert (PriorityPartitionedQueue.getValue sq (2 ^ 53 + 4) = ([], sq)) as Hget
    by (vm_compute; reflexivity).
  assert (Double.pick fuel sq gen = None) as ->; [|done].
  induction fuel as [|fuel IH]; [done|].
  cbn [Double.pick]. by rewrite Hnext, Hget.
Qed.

(** X11.  When no task is enqueued twice and the priorities of the tasks
    lie from [-2^53] to [2^53], every task enqueued is dequeued: after any
    trace of enqueue, dequeue and registerRewriter, as many more calls of
    [dequeue] as tasks were enqueued (with fuel enough) all return, on
    doubles as with the exact decrement, and leave the queue empty, and
    the tasks [dequeue] has returned are, as a multiset, the tasks that
    were enqueued. *)
Theorem every_task_is_dequeued (ops : list Op) :
  distinctTasks ops →
  boundedPriorities ops →
  ∃ fuel w,
    DoubleTrace.run fuel initialWorld
      (ops ++ replicate (length (enqueuedTasks ops)) Dequeue) = Some w ∧
    run fuel initialWorld
      (ops ++ replicate (length (enqueuedTasks ops)) Dequeue) = Some w ∧
    task <$> returned w ≡ₚ enqueuedTasks ops ∧
    live w = [] ∧
    ModelTaskQueue.isEmpty (queue w) = true.
Proof.
  intros Hd Hb. set (n := length (enqueuedTasks ops)).
  destruct (run_total (ops ++ replicate n Dequeue)) as (fuel & w & Hrun).
  exists fuel, w.
  assert (distinctTasks (ops ++ replicate n Dequeue)) as Hd'.
  { unfold distinctTasks. by rewrite enqueuedTasks_dequeues. }
  assert (boundedPriorities (ops ++ replicate n Dequeue)) as Hb'.
  { unfold boundedPriorities. by rewrite enqueuedTasks_dequeues. }
  split.
  { rewrite double_run_exact; [done| |done].
    by apply distinctTasks_indexedTasks. }
  split; [done|].
  pose proof (CoherenceFacts.coh_reachable fuel _ w Hrun
                (distinctTasks_indexedTasks _ Hd')) as Hcoh.
  pose proof Hrun as Hrun'. rewrite TraceFacts.run_app in Hrun'.
  destruct (run fuel initialWorld ops) as [w0|] eqn:Hr0; [|done].
  destruct (dequeues_drain n fuel ops w0 w Hr0 Hd Hrun') as [Hc Hlen].
  pose proof (TraceFacts.run_created _ _ _ _ Hr0) as Hc0. simpl in Hc0.
  assert (length (created w0) = n) as Hn.
  { unfold n. by rewrite <- Hc0, length_fmap. }
  assert (returned w ≡ₚ created w) as Hperm.
  { apply submseteq_length_Permutation.
    - apply NoDup_submseteq; [apply (coh_returned_nodup w Hcoh)|].
      apply (coh_returned w Hcoh).
    - rewrite Hc. pose proof (submseteq_length (returned w0) (created w0)) as Hle.
      destruct Hlen as [?|?]; [done|]. lia. }
  assert (live w = []) as Hlive.
  { unfold live. destruct (filter _ (created w)) as [|x l] eqn:E; [done|].
    assert (x ∈ filter (λ i, i ∉ returned w) (created w)) as Hx
      by (rewrite E, elem_of_cons; auto).
    apply list_elem_of_filter in Hx as [HxR HxC].
    destruct HxR. by rewrite Hperm. }
  split; [|split; [done|]].
  - rewrite Hperm, Hc, Hc0. done.
  - by apply (isEmpty_iff_no_live fuel _ w Hrun Hd').
Qed.

Lemma every_task_is_dequeued_witness :
  let tA := mkTask 0 [] [7%nat] 0 in
  let tB := mkTask 1 [7%nat] [8%nat] 5 in
  let tC := mkTask 2 [8%nat] [] 2 in
  let ops := [Enqueue tA; Enqueue tB; Dequeue; Enqueue tC] in
  ∃ fuel w,
    DoubleTrace.run fuel initialWorld (ops ++ [Dequeue; Dequeue; Dequeue])
      = Some w ∧
    run fuel initialWorld (ops ++ [Dequeue; Dequeue; Dequeue]) = Some w ∧
    task <$> returned w ≡ₚ [tA; tB; tC] ∧
    live w = [] ∧
    ModelTaskQueue.isEmpty (queue w) = true.
Proof.
  intros tA tB tC ops. apply (every_task_is_dequeued ops).
  - unfold distinctTasks. compute_done.
  - compute_done.
Defined.

(** ** Rewriters and the schedule *)

Lemma step_without_merger fuel w1 w2 op w1' :
  ModelTaskQueue.eligibleInstructions (queue w1)
    = ModelTaskQueue.eligibleInstructions (queue w2) →
  ModelTaskQueue.latestComponentStateMap (queue w1)
    = ModelTaskQueue.latestComponentStateMap (queue w2) →
  ModelTaskQueue.heap (queue w1) = ModelTaskQueue.heap (queue w2) →
  created w1 = created w2 → returned w1 = returned w2 →
  step fuel w1 op = Some w1' →
  ∃ w2',
    run fuel w2 (withoutRewriters [op]) = Some w2' ∧
    ModelTaskQueue.eligibleInstructions (queue w1')
      = ModelTaskQueue.eligibleInstructions (queue w2') ∧
    ModelTaskQueue.latestComponentStateMap (queue w1')
      = ModelTaskQueue.latestComponentStateMap (queue w2') ∧
    ModelTaskQueue.heap (queue w1') = ModelTaskQueue.heap (queue w2') ∧
    created w1' = created w2' ∧ returned w1' = returned w2'.
Proof.
  destruct w1 as [[E1 L1 M1 H1] C1 R1], w2 as [[E2 L2 M2 H2] C2 R2].
  cbn [queue created returned ModelTaskQueue.eligibleInstructions
         ModelTaskQueue.latestComponentStateMap ModelTaskQueue.heap].
  intros <- <- <- <- <- Hs. destruct op as [t| |r].
  - injection Hs as <-. eexists. split; [reflexivity|].
    cbn [queue created returned]. unfold ModelTaskQueue.enqueue.
    cbn [ModelTaskQueue.heap ModelTaskQueue.latestComponentStateMap
           ModelTaskQueue.eligibleInstructions ModelTaskQueue.merger].
    destruct (newTaskInstruction H1 t) as [n hp]. done.
  - cbn [step queue created returned] in Hs.
    cbn [withoutRewriters flat_map app run step queue created returned].
    unfold ModelTaskQueue.dequeueInstruction in *.
    cbn [ModelTaskQueue.heap ModelTaskQueue.latestComponentStateMap
           ModelTaskQueue.eligibleInstructions ModelTaskQueue.merger] in *.
    destruct (PriorityPartitionedQueue.dequeue fuel E1) as [[[i|] E]|];
      [| |done].
    + injection Hs as <-. eexists. split; [reflexivity|].
      cbn [queue created returned].
      rewrite !ModelTaskQueueFacts.complete_unfold. done.
    + injection Hs as <-. eexists. split; [reflexivity|]. done.
  - injection Hs as <-. eexists. split; [reflexivity|]. done.
Qed.

Lemma withoutRewriters_cons op ops :
  withoutRewriters (op :: ops) = withoutRewriters [op] ++ withoutRewriters ops.
Proof. unfold withoutRewriters. simpl. by rewrite app_nil_r. Qed.

Lemma run_without_merger fuel ops w1 w2 w1' :
  ModelTaskQueue.eligibleInstructions (queue w1)
    = ModelTaskQueue.eligibleInstructions (queue w2) →
  ModelTaskQueue.latestComponentStateMap (queue w1)
    = ModelTaskQueue.latestComponentStateMap (queue w2) →
  ModelTaskQueue.heap (queue w1) = ModelTaskQueue.heap (queue w2) →
  created w1 = created w2 → returned w1 = returned w2 →
  run fuel w1 ops = Some w1' →
  ∃ w2',
    run fuel w2 (withoutRewriters ops) = Some w2' ∧
    ModelTaskQueue.eligibleInstructions (queue w1')
      = ModelTaskQueue.eligibleInstructions (queue w2') ∧
    ModelTaskQueue.latestComponentStateMap (queue w1')
      = ModelTaskQueue.latestComponentStateMap (queue w2') ∧
    ModelTaskQueue.heap (queue w1') = ModelTaskQueue.heap (queue w2') ∧
    created w1' = created w2' ∧ returned w1' = returned w2'.
Proof.
  revert w1 w2. induction ops as [|op ops IH]; intros w1 w2 HE HL HH HC HR.
  - intros [= <-]. by exists w2.
  - cbn [run]. destruct (step fuel w1 op) as [w1a|] eqn:Hs; [|done]. intros Hr.
    destruct (step_without_merger fuel w1 w2 op w1a HE HL HH HC HR Hs)
      as (w2a & Hr2 & HE' & HL' & HH' & HC' & HR').
    destruct (IH w1a w2a HE' HL' HH' HC' HR' Hr) as (w2' & Hr2' & Hsame).
    exists w2'. split; [|done].
    rewrite withoutRewriters_cons, TraceFacts.run_app, Hr2. done.
Qed.

(** X12.  Rewriters never change the schedule: a trace and the same trace
    without its calls of [registerRewriter] make [dequeue] return the same
    instructions in the same order, and leave the same
    priority-partitioned queue, latest-writer map and dependency graph. *)
Theorem rewriters_never_change_the_schedule (fuel : nat) (ops : list Op)
    (w : World) :
  run fuel initialWorld ops = Some w →
  ∃ w',
    run fuel initialWorld (withoutRewriters ops) = Some w' ∧
    returned w' = returned w ∧
    created w' = created w ∧
    ModelTaskQueue.eligibleInstructions (queue w')
      = ModelTaskQueue.eligibleInstructions (queue w) ∧
    ModelTaskQueue.latestComponentStateMap (queue w')
      = ModelTaskQueue.latestComponentStateMap (queue w) ∧
    ModelTaskQueue.heap (queue w') = ModelTaskQueue.heap (queue w).
Proof.
  intros Hrun.
  destruct (run_without_merger fuel ops initialWorld initialWorld w
              eq_refl eq_refl eq_refl eq_refl eq_refl Hrun)
    as (w' & Hr & HE & HL & HH & HC & HR).
  exists w'. by repeat split.
Qed.

Lemma rewriters_never_change_the_schedule_witness :
  let t1 := mkTask 0 [] [7%nat] 0 in
  let t2 := mkTask 1 [7%nat] [] 0 in
  let t12 := mkTask 2 [] [7%nat] 0 in
  let ops := [RegisterRewriter (fusingRewriter t12); Enqueue t1; Enqueue t2;
              Dequeue; Dequeue] in
  ∃ w w',
    run 8 initialWorld ops = Some w ∧
    run 8 initialWorld [Enqueue t1; Enqueue t2; Dequeue; Dequeue] = Some w' ∧
    task <$> returned w = [t1; t2] ∧
    returned w' = returned w.
Proof.
  intros t1 t2 t12 ops.
  assert (∃ w, run 8 initialWorld ops = Some w) as [w Hw]
    by (eexists; vm_compute; reflexivity).
  destruct (rewriters_never_change_the_schedule 8 ops w Hw)
    as (w' & Hr & HR & _).
  exists w, w'. split; [done|]. split; [done|]. split; [|done].
  vm_compute in Hw. injection Hw as <-. reflexivity.
Defined.

(** ** The interest sets of the merger *)

Lemma introduceInto_lookup rs sets i k r s :
  rs !! k = Some r → sets !! k = Some s →
  InstructionMerger.introduceInto rs sets i !! k =
    Some (if isOfInterest r (task i)
          then set_add TaskInstruction.toString s i else s).
Proof.
  revert sets k. induction rs as [|r0 rs IH]; intros [|s0 sets] [|k];
    simpl; try done.
  - by intros [= ->] [= ->].
  - apply IH.
Qed.

Lemma map_lookup_Some {A B} (f : A → B) (l : list A) k x :
  l !! k = Some x → map f l !! k = Some (f x).
Proof.
  revert k. induction l as [|y l IH]; intros [|k]; simpl; try done.
  - by intros [= ->].
  - apply IH.
Qed.

Lemma merger_aligned fuel ops w :
  run fuel initialWorld ops = Some w →
  InstructionMerger.rewriters (ModelTaskQueue.merger (queue w))
    = registeredRewriters ops ∧
  length (InstructionMerger.interestSets (ModelTaskQueue.merger (queue w)))
    = length (InstructionMerger.rewriters (ModelTaskQueue.merger (queue w))).
Proof.
  revert w. induction ops as [|op ops IH] using rev_ind; intros w Hr.
  - by injection Hr as <-.
  - apply run_snoc in Hr as (w1 & Hr1 & Hs). destruct (IH w1 Hr1) as [Hrw Hlen].
    unfold registeredRewriters in *. rewrite flat_map_app. simpl.
    destruct op as [t| |r]; simpl in Hs.
    + injection Hs as <-. cbn [queue].
      unfold ModelTaskQueue.enqueue.
      destruct (newTaskInstruction _ t) as [n hp].
      cbn [ModelTaskQueue.merger InstructionMerger.introduceInstruction
             InstructionMerger.rewriters InstructionMerger.interestSets].
      rewrite ModelTaskQueueFacts.length_introduceInto, app_nil_r. done.
    + destruct (ModelTaskQueue.dequeueInstruction fuel (queue w1))
        as [[r q]|] eqn:Hd; [|done].
      apply TraceFacts.dequeueInstruction_inv in Hd
        as [(_ & -> & ->)|(_ & i & E1 & _ & -> & ->)].
      * injection Hs as <-. by rewrite app_nil_r.
      * injection Hs as <-. cbn [queue].
        rewrite ModelTaskQueueFacts.complete_unfold. cbv zeta.
        cbn [ModelTaskQueue.merger InstructionMerger.completeInstruction
               InstructionMerger.rewriters InstructionMerger.interestSets].
        rewrite length_map, app_nil_r. done.
    + injection Hs as <-. simpl. rewrite !length_app, Hlen, Hrw. simpl. done.
Qed.

Lemma interest_set_after fuel ops1 r ops2 w :
  run fuel initialWorld (ops1 ++ RegisterRewriter r :: ops2) = Some w →
  distinctTasks (ops1 ++ RegisterRewriter r :: ops2) →
  let k := length (registeredRewriters ops1) in
  let n1 := length (enqueuedTasks ops1) in
  InstructionMerger.rewriters (ModelTaskQueue.merger (queue w)) !! k = Some r ∧
  ∃ s,
    InstructionMerger.interestSets (ModelTaskQueue.merger (queue w)) !! k
      = Some s ∧
    ∀ x, x ∈ s ↔
         x ∈ created w ∧ (x ∉ returned w) ∧ (n1 ≤ iid x)%nat ∧
         isOfInterest r (task x) = true.
Proof.
  intros Hrun Hd k n1. revert w Hrun Hd.
  induction ops2 as [|op ops2 IH] using rev_ind; intros w Hrun Hd.
  - change (ops1 ++ [RegisterRewriter r]) with (ops1 ++ [RegisterRewriter r])
      in Hrun.
    apply run_snoc in Hrun as (w1 & Hr1 & Hs). injection Hs as <-.
    destruct (merger_aligned fuel ops1 w1 Hr1) as [Hrw Hlen].
    assert (indexedTasks ops1) as Hi1.
    { apply (indexedTasks_app_l _ [RegisterRewriter r]).
      by apply distinctTasks_indexedTasks. }
    pose proof (CoherenceFacts.coh_reachable fuel ops1 w1 Hr1 Hi1) as Hcoh1.
    pose proof (TraceFacts.run_created _ _ _ _ Hr1) as Hc1. simpl in Hc1.
    cbn [queue created returned ModelTaskQueue.registerRewriter
           ModelTaskQueue.merger InstructionMerger.registerRewriter
           InstructionMerger.rewriters InstructionMerger.interestSets].
    split.
    { rewrite lookup_app_r by (rewrite Hrw; done).
      unfold k. rewrite Hrw, Nat.sub_diag. done. }
    exists []. split.
    { rewrite lookup_app_r by (rewrite Hlen, Hrw; done).
      unfold k. rewrite Hlen, Hrw, Nat.sub_diag. done. }
    intros x. split; [by intros ?%elem_of_nil|].
    intros (HxC & _ & Hn & _).
    pose proof (ModelTaskQueueFacts.iid_lt _ _ (coh_iid w1 Hcoh1) HxC) as Hlt.
    assert (length (created w1) = n1) as Hlen1
      by (unfold n1; by rewrite <- Hc1, length_fmap).
    lia.
  - rewrite app_comm_cons, app_assoc in Hrun, Hd.
    pose proof Hrun as Hrun'.
    apply run_snoc in Hrun as (w0 & Hr0 & Hs).
    assert (distinctTasks (ops1 ++ RegisterRewriter r :: ops2)) as Hd0.
    { unfold distinctTasks in *.
      rewrite TraceFacts.enqueuedTasks_app, fmap_app in Hd.
      by apply NoDup_app in Hd as (? & _). }
    destruct (IH w0 Hr0 Hd0) as (Hrk & s & Hsk & Hs0).
    pose proof (CoherenceFacts.coh_reachable fuel _ w0 Hr0
                  (distinctTasks_indexedTasks _ Hd0)) as Hcoh.
    pose proof (created_keys fuel _ w Hrun' Hd) as Hnd.
    pose proof (TraceFacts.run_created _ _ _ _ Hr0) as Hc0. simpl in Hc0.
    assert (n1 ≤ length (created w0))%nat as Hn1.
    { rewrite <- (length_fmap task), Hc0, TraceFacts.enqueuedTasks_app,
        length_app. unfold n1. lia. }
    destruct (step_cases fuel w0 op w Hcoh Hs)
      as [(t & -> & ->)|[(-> & _ & ->)|[(-> & _ & i & E1 & p & rest & Hhead
                                          & Hwf1 & ->)|(r' & -> & ->)]]].
    + cbn [queue created returned] in *.
      rewrite CoherenceFacts.coh_enqueue_unfold. cbv zeta.
      cbn [ModelTaskQueue.merger InstructionMerger.introduceInstruction
             InstructionMerger.rewriters InstructionMerger.interestSets].
      split; [done|]. eexists. split; [by apply introduceInto_lookup|].
      set (n := Build_TaskInstruction (fresh (ModelTaskQueue.heap (queue w0))) t)
        in *.
      pose proof (CoherenceFacts.coh_new_not_in_created w0 t Hcoh) as HnC.
      pose proof (CoherenceFacts.coh_new_not_in_returned w0 t Hcoh) as HnR.
      fold n in HnC, HnR.
      assert (set_contains TaskInstruction.toString s n = false) as Hcont.
      { apply set_contains_false. intros y Hy Hk.
        apply Hs0 in Hy as (HyC & _).
        assert (y = n) as ->; [|done].
        eapply ModelTaskQueueFacts.key_inj; [apply Hnd| | |done];
          rewrite elem_of_app, list_elem_of_singleton; auto. }
      intros x. rewrite elem_of_app, list_elem_of_singleton.
      change (task n) with t. destruct (isOfInterest r t) eqn:Hint.
      * rewrite elem_of_set_add, Hs0, Hcont. split.
        -- intros [(? & ? & ? & ?)|[-> _]]; [naive_solver|].
           split; [auto|]. split; [done|]. split; [|done].
           unfold n. simpl. rewrite (coh_fresh w0 Hcoh). done.
        -- intros ([HxC| ->] & ? & ? & ?); [left; done|right; done].
      * rewrite Hs0. split; [naive_solver|].
        intros ([HxC| ->] & ? & ? & Hx); [done|].
        unfold n in Hx. simpl in Hx. congruence.
    + split; [done|]. by exists s.
    + cbn [queue created returned] in *.
      rewrite ModelTaskQueueFacts.complete_unfold. cbv zeta.
      cbn [ModelTaskQueue.merger InstructionMerger.completeInstruction
             InstructionMerger.rewriters InstructionMerger.interestSets].
      split; [done|]. eexists. split; [by apply map_lookup_Some|].
      destruct (CoherenceFacts.coh_picked w0 Hcoh i p rest Hhead)
        as (HiC & HiR & _ & _).
      intros x. rewrite elem_of_set_remove, Hs0, elem_of_app,
        list_elem_of_singleton.
      split.
      * intros ((HxC & HxR & ? & ?) & Hk). split; [done|]. split; [|done].
        intros [?| ->]; done.
      * intros (HxC & HxR & ? & ?). split; [naive_solver|].
        intros Hk. apply HxR. right.
        by eapply ModelTaskQueueFacts.key_inj; [apply Hnd|..].
    + cbn [queue created returned ModelTaskQueue.registerRewriter
             ModelTaskQueue.merger InstructionMerger.registerRewriter
             InstructionMerger.rewriters InstructionMerger.interestSets] in *.
      split; [by apply lookup_app_l_Some|].
      exists s. split; [by apply lookup_app_l_Some|done].
Qed.

(** X13.  What an interest set holds: when no task is enqueued twice,
    after a trace in which rewriter [r] is registered, the rewriter and
    its interest set stand at the same index of the two arrays, and the
    interest set holds exactly the instructions that were enqueued after
    [r] was registered, are of interest to [r], and have not been
    dequeued.  Instructions enqueued before the registration are never
    added. *)
Theorem interest_set_holds_waiting_instructions_of_interest (fuel : nat)
    (ops1 : list Op) (r : ModelTaskRewriter) (ops2 : list Op) (w : World) :
  run fuel initialWorld (ops1 ++ RegisterRewriter r :: ops2) = Some w →
  distinctTasks (ops1 ++ RegisterRewriter r :: ops2) →
  let k := length (registeredRewriters ops1) in
  InstructionMerger.rewriters (ModelTaskQueue.merger (queue w)) !! k = Some r ∧
  ∃ s,
    InstructionMerger.interestSets (ModelTaskQueue.merger (queue w)) !! k
      = Some s ∧
    ∀ x, x ∈ s ↔
         x ∈ live w ∧ (length (enqueuedTasks ops1) ≤ iid x)%nat ∧
         isOfInterest r (task x) = true.
Proof.
  intros Hrun Hd k.
  destruct (interest_set_after fuel ops1 r ops2 w Hrun Hd)
    as (Hrk & s & Hsk & Hs).
  split; [done|]. exists s. split; [done|].
  intros x. rewrite Hs, elem_of_live. naive_solver.
Qed.

Lemma interest_set_holds_waiting_instructions_of_interest_witness :
  let t0 := mkTask 0 [] [7%nat] 0 in
  let t1 := mkTask 1 [] [] 0 in
  let t2 := mkTask 2 [7%nat] [] 0 in
  let r := Build_ModelTaskRewriter
             (λ t, bool_decide (index t ≠ 2%nat)) (λ _ _, None) in
  ∃ w s,
    run 8 initialWorld
      ([Enqueue t0] ++ RegisterRewriter r :: [Enqueue t1; Enqueue t2; Dequeue])
      = Some w ∧
    InstructionMerger.interestSets (ModelTaskQueue.merger (queue w)) !! 0%nat
      = Some s ∧
    s = [Build_TaskInstruction 1 t1] ∧
    ∀ x, x ∈ s ↔
         x ∈ live w ∧ (1 ≤ iid x)%nat ∧ isOfInterest r (task x) = true.
Proof.
  intros t0 t1 t2 r.
  assert (∃ w, run 8 initialWorld
                 ([Enqueue t0] ++ RegisterRewriter r
                    :: [Enqueue t1; Enqueue t2; Dequeue]) = Some w)
    as [w Hw] by (eexists; vm_compute; reflexivity).
  destruct (interest_set_holds_waiting_instructions_of_interest 8 [Enqueue t0] r
              [Enqueue t1; Enqueue t2; Dequeue] w Hw)
    as (_ & s & Hs & Hall).
  { unfold distinctTasks. compute_done. }
  exists w, s. split; [done|]. split; [done|]. split; [|done].
  vm_compute in Hw. injection Hw as <-. vm_compute in Hs. by injection Hs as <-.
Defined.

(** ** The merger *)

Lemma candidatesOf_spec h rs sets i o c r :
  (c, r) ∈ InstructionMerger.candidatesOf h rs sets i o →
  c = o ∧
  InstructionMerger.canMergeReadAfterWrite h i o = true ∧
  ∃ k s, rs !! k = Some r ∧ sets !! k = Some s ∧
         set_contains TaskInstruction.toString s o = true ∧
         set_contains TaskInstruction.toString s i = true.
Proof.
  revert sets. induction rs as [|r0 rs IH]; intros [|s0 sets]; simpl;
    try (by intros ?%elem_of_nil).
  rewrite elem_of_app. intros [Hin|Hin].
  - destruct (set_contains TaskInstruction.toString s0 o) eqn:Ho;
      destruct (set_contains TaskInstruction.toString s0 i) eqn:Hi;
      destruct (InstructionMerger.canMergeReadAfterWrite h i o) eqn:Hc;
      simpl in Hin; try (by apply elem_of_nil in Hin).
    apply list_elem_of_singleton in Hin as [= -> ->].
    split; [done|]. split; [done|]. by exists 0%nat, s0.
  - destruct (IH sets Hin) as (-> & Hc & k & s & Hr & Hs & Ho & Hi).
    split; [done|]. split; [done|]. by exists (S k), s.
Qed.

Lemma findReadAfterWriteMergeCandidates_spec m h i c r :
  (c, r) ∈ InstructionMerger.findReadAfterWriteMergeCandidates m h i →
  c ∈ TaskInstruction.invDeps h i ∧
  InstructionMerger.canMergeReadAfterWrite h i c = true ∧
  ∃ k s, InstructionMerger.rewriters m !! k = Some r ∧
         InstructionMerger.interestSets m !! k = Some s ∧
         set_contains TaskInstruction.toString s c = true ∧
         set_contains TaskInstruction.toString s i = true.
Proof.
  unfold InstructionMerger.findReadAfterWriteMergeCandidates.
  rewrite list_elem_of_In, in_flat_map.
  intros (o & Ho%list_elem_of_In & Hin%list_elem_of_In).
  destruct (candidatesOf_spec _ _ _ _ _ _ _ Hin) as (-> & Hc & Hk).
  done.
Qed.

(** X14.  [merge] is sound and a failed [merge] touches nothing.  When
    [merge instruction] returns [merged] and [nullified]: [nullified] is
    in the inverted dependency set of [instruction], the safety predicate
    [canMergeReadAfterWrite] holds of the two, some rewriter whose interest
    set [contains] both rewrites their tasks to the task of [merged], and
    [merged] is a new instruction.  When it returns [undefined], the merger
    and the dependency graph are as they were, and no rewriter rewrites the
    task of [instruction] with the task of a candidate. *)
Theorem merge_is_sound (m : InstructionMerger.t) (hp : Heap)
    (instruction : TaskInstruction) :
  match InstructionMerger.merge m hp instruction with
  | (Some (merged, nullified), m', hp') =>
      nullified ∈ TaskInstruction.invDeps (cells hp) instruction ∧
      InstructionMerger.canMergeReadAfterWrite (cells hp) instruction nullified
        = true ∧
      (∃ k r s,
         InstructionMerger.rewriters m !! k = Some r ∧
         InstructionMerger.interestSets m !! k = Some s ∧
         set_contains TaskInstruction.toString s nullified = true ∧
         set_contains TaskInstruction.toString s instruction = true ∧
         maybeRewrite r (task instruction) (task nullified)
           = Some (task merged)) ∧
      iid merged = fresh hp ∧ fresh hp' = S (fresh hp)
  | (None, m', hp') =>
      m' = m ∧ hp' = hp ∧
      ∀ c r,
        (c, r) ∈ InstructionMerger.findReadAfterWriteMergeCandidates
                   m (cells hp) instruction →
        maybeRewrite r (task instruction) (task c) = None
  end.
Proof.
  unfold InstructionMerger.merge.
  pose proof (findReadAfterWriteMergeCandidates_spec m (cells hp) instruction)
    as Hspec.
  induction (InstructionMerger.findReadAfterWriteMergeCandidates
               m (cells hp) instruction) as [|[c r] cs IH].
  - split; [done|]. split; [done|]. by intros c r ?%elem_of_nil.
  - destruct (maybeRewrite r (task instruction) (task c)) as [t|] eqn:Hrw.
    + unfold InstructionMerger.createMergedInstruction. simpl.
      destruct (Hspec c r) as (Hc & Hm & k & s & Hk & Hs & Hsc & Hsi);
        [rewrite elem_of_cons; auto|].
      split; [done|]. split; [done|].
      split; [by exists k, r, s|done].
    + assert (∀ c0 r0, (c0, r0) ∈ cs →
                c0 ∈ TaskInstruction.invDeps (cells hp) instruction ∧
                InstructionMerger.canMergeReadAfterWrite
                  (cells hp) instruction c0 = true ∧
                ∃ k s, InstructionMerger.rewriters m !! k = Some r0 ∧
                       InstructionMerger.interestSets m !! k = Some s ∧
                       set_contains TaskInstruction.toString s c0 = true ∧
                       set_contains TaskInstruction.toString s instruction
                       = true) as Hspec'.
      { intros c0 r0 Hin. apply Hspec. rewrite elem_of_cons. auto. }
      specialize (IH Hspec'). clear Hspec'.
      destruct ((fix loop (cs0 : list (TaskInstruction * ModelTaskRewriter)) :=
                   match cs0 with
                   | [] => (None, m, hp)
                   | (candidate, rewriter) :: cs' =>
                       match maybeRewrite rewriter (task instruction)
                               (task candidate) with
                       | Some mergedTask =>
                           let '(merged, m', hp') :=
                             InstructionMerger.createMergedInstruction
                               m hp instruction candidate mergedTask in
                           (Some (merged, candidate), m', hp')
                       | None => loop cs'
                       end
                   end) cs) as [[[[merged nullified]|] m'] hp'] eqn:Hloop.
      * done.
      * destruct IH as (-> & -> & Hnone). split; [done|]. split; [done|].
        intros c0 r0 [[= -> ->]|Hin]%elem_of_cons; [done|by apply Hnone].
Qed.

Lemma merge_is_sound_witness :
  let t1 := mkTask 0 [] [7%nat] 0 in
  let t2 := mkTask 1 [7%nat] [] 0 in
  let t12 := mkTask 2 [] [7%nat] 0 in
  let q := ModelTaskQueue.enqueue
             (ModelTaskQueue.enqueue
                (ModelTaskQueue.registerRewriter ModelTaskQueue.new
                   (fusingRewriter t12)) t1) t2 in
  let first := Build_TaskInstruction 0 t1 in
  let second := Build_TaskInstruction 1 t2 in
  ∃ m' hp',
    InstructionMerger.merge (ModelTaskQueue.merger q) (ModelTaskQueue.heap q)
      first
    = (Some (Build_TaskInstruction 2 t12, second), m', hp') ∧
    second ∈ TaskInstruction.invDeps (cells (ModelTaskQueue.heap q)) first ∧
    InstructionMerger.canMergeReadAfterWrite
      (cells (ModelTaskQueue.heap q)) first second = true.
Proof.
  intros t1 t2 t12 q first second.
  pose proof (merge_is_sound (ModelTaskQueue.merger q) (ModelTaskQueue.heap q)
                first) as Hm.
  destruct (InstructionMerger.merge (ModelTaskQueue.merger q)
              (ModelTaskQueue.heap q) first)
    as [[[[merged nullified]|] m'] hp'] eqn:E.
  - vm_compute in E. injection E as <- <- <- <-.
    destruct Hm as (Hin & Hcan & _).
    eexists _, _. split; [reflexivity|]. split; [exact Hin|exact Hcan].
  - vm_compute in E. discriminate E.
Defined.

Lemma set_remove_set_add_fresh (s : list TaskInstruction) i :
  set_contains TaskInstruction.toString s i = false →
  set_remove TaskInstruction.toString (set_add TaskInstruction.toString s i) i
  = s.
Proof.
  intros Hc. unfold set_add. rewrite Hc. unfold set_remove.
  rewrite filter_app, filter_cons_False, filter_nil, app_nil_r by (by intros ?).
  rewrite set_contains_false in Hc.
  induction s as [|y s IH]; [done|].
  rewrite filter_cons_True.
  - f_equal. apply IH. intros z Hz. apply Hc. rewrite elem_of_cons. auto.
  - apply Hc. rewrite elem_of_cons. auto.
Qed.

Lemma set_remove_absent (s : list TaskInstruction) i :
  set_contains TaskInstruction.toString s i = false →
  set_remove TaskInstruction.toString s i = s.
Proof.
  rewrite set_contains_false. intros Hc. unfold set_remove.
  induction s as [|y s IH]; [done|].
  rewrite filter_cons_True.
  - f_equal. apply IH. intros z Hz. apply Hc. rewrite elem_of_cons. auto.
  - apply Hc. rewrite elem_of_cons. auto.
Qed.

Lemma set_contains_set_remove (s : list TaskInstruction) i :
  set_contains TaskInstruction.toString
    (set_remove TaskInstruction.toString s i) i = false.
Proof.
  apply set_contains_false. intros y [_ Hy]%elem_of_set_remove. done.
Qed.

(** X15.  [completeInstruction] undoes [introduceInstruction]: for an
    instruction whose key no interest set holds, introducing it and then
    completing it leaves the merger as it was; and after
    [completeInstruction], whatever the merger, no interest set [contains]
    the instruction. *)
Theorem completeInstruction_undoes_introduceInstruction
    (m : InstructionMerger.t) (i : TaskInstruction) :
  Forall (λ s, set_contains TaskInstruction.toString s i = false)
         (InstructionMerger.interestSets m) →
  InstructionMerger.completeInstruction
    (InstructionMerger.introduceInstruction m i) i = m ∧
  ∀ m0,
    Forall (λ s, set_contains TaskInstruction.toString s i = false)
           (InstructionMerger.interestSets
              (InstructionMerger.completeInstruction m0 i)).
Proof.
  intros Hall. split.
  - destruct m as [rs sets]. unfold InstructionMerger.completeInstruction,
      InstructionMerger.introduceInstruction. simpl in *. f_equal.
    revert sets Hall. induction rs as [|r rs IH]; intros sets Hall.
    + assert (InstructionMerger.introduceInto [] sets i = sets) as ->
        by (by destruct sets).
      induction Hall as [|s sets Hs Hall IH]; [done|]. simpl.
      by rewrite set_remove_absent, IH.
    + destruct Hall as [|s sets Hs Hall]; [done|]. simpl.
      rewrite (IH sets Hall). f_equal.
      destruct (isOfInterest r (task i)).
      * by apply set_remove_set_add_fresh.
      * by apply set_remove_absent.
  - intros m0. simpl. apply Forall_forall. intros s.
    rewrite list_elem_of_In, in_map_iff. intros (s0 & <- & _).
    apply set_contains_set_remove.
Qed.

Lemma completeInstruction_undoes_introduceInstruction_witness :
  let t0 := mkTask 0 [] [7%nat] 0 in
  let t1 := mkTask 1 [7%nat] [] 0 in
  let q := ModelTaskQueue.enqueue
             (ModelTaskQueue.registerRewriter
                (ModelTaskQueue.registerRewriter ModelTaskQueue.new
                   (fusingRewriter t0))
                (Build_ModelTaskRewriter (λ _, false) (λ _ _, None))) t0 in
  let m := ModelTaskQueue.merger q in
  let i := Build_TaskInstruction 1 t1 in
  InstructionMerger.interestSets m = [[Build_TaskInstruction 0 t0]; []] ∧
  InstructionMerger.interestSets (InstructionMerger.introduceInstruction m i)
    = [[Build_TaskInstruction 0 t0; i]; []] ∧
  InstructionMerger.completeInstruction
    (InstructionMerger.introduceInstruction m i) i = m.
Proof.
  intros t0 t1 q m i. split; [reflexivity|]. split; [reflexivity|].
  apply (completeInstruction_undoes_introduceInstruction m i).
  repeat constructor.
Defined.

(** *** What [createMergedInstruction] does to the graph *)

Section TransferDependencies.
Import TaskInstruction TaskInstructionFacts.
Context (M O : TaskInstruction).

(** One turn of the loop of [transferDependencies]. *)
Let turn (h : gmap nat InstructionSets) (element : TaskInstruction) :=
  let h1 := setDeps h element (set_remove toString (deps h element) O) in
  let h2 := setDeps h1 element (set_add toString (deps h1 element) M) in
  setInvDeps h2 M (set_add toString (invDeps h2 M) element).

Lemma transferDependencies_fold h :
  InstructionMerger.transferDependencies M O h
  = fold_left turn (invDeps h O) h.
Proof. reflexivity. Qed.

Lemma deps_turn h e x :
  deps (turn h e) x =
    if decide (iid x = iid e)
    then set_add toString (set_remove toString (deps h e) O) M
    else deps h x.
Proof.
  unfold turn. cbv zeta. rewrite deps_setInvDeps, !deps_setDeps.
  case_decide; [|done]. by rewrite (decide_True (P := iid e = iid e)).
Qed.

Lemma invDeps_turn h e y :
  invDeps (turn h e) y =
    if decide (iid y = iid M) then set_add toString (invDeps h M) e
    else invDeps h y.
Proof.
  unfold turn. cbv zeta. rewrite invDeps_setInvDeps, !invDeps_setDeps. done.
Qed.

Lemma set_contains_remove_other (s : list TaskInstruction) a b :
  set_contains toString (set_remove toString s a) b = true →
  set_contains toString s b = true.
Proof.
  rewrite !set_contains_true. intros (y & [Hy _]%elem_of_set_remove & Hk).
  by exists y.
Qed.

Lemma set_contains_add_other (s : list TaskInstruction) a b :
  toString a ≠ toString b →
  set_contains toString (set_add toString s a) b = true →
  set_contains toString s b = true.
Proof.
  intros Hne. rewrite !set_contains_true.
  intros (y & [Hy|[-> _]]%elem_of_set_add & Hk); [by exists y|done].
Qed.

Lemma transfer_spec L h :
  let h' := fold_left turn L h in
  (∀ x, (∀ e, e ∈ L → iid e ≠ iid x) → deps h' x = deps h x) ∧
  (∀ e, e ∈ L → set_contains toString (deps h' e) M = true) ∧
  (∀ x, set_contains toString (deps h x) M = true →
        set_contains toString (deps h' x) M = true) ∧
  (∀ Z x, toString M ≠ toString Z →
        set_contains toString (deps h' x) Z = true →
        set_contains toString (deps h x) Z = true) ∧
  (toString M ≠ toString O →
   ∀ e, e ∈ L → set_contains toString (deps h' e) O = false) ∧
  (∀ y, iid y ≠ iid M → invDeps h' y = invDeps h y) ∧
  (∀ z, set_contains toString (invDeps h M) z = true →
        set_contains toString (invDeps h' M) z = true) ∧
  (∀ e, e ∈ L → set_contains toString (invDeps h' M) e = true) ∧
  (∀ z, z ∈ invDeps h' M → z ∈ invDeps h M ∨ z ∈ L).
Proof.
  revert h. induction L as [|e L IH]; intros h; cbn [fold_left].
  - cbv zeta. repeat split; try done.
    + by intros e ?%elem_of_nil.
    + by intros _ e ?%elem_of_nil.
    + by intros e ?%elem_of_nil.
    + auto.
  - specialize (IH (turn h e)). cbv zeta in IH |- *.
    destruct IH as (Ha & Hb & Hc & Hd & He & Hf & Hg & Hh & Hi).
    assert (∀ x, iid x = iid e →
              set_contains toString (deps (turn h e) x) M = true) as Hnow.
    { intros x Hx. rewrite deps_turn, decide_True by done.
      apply set_contains_add_same. }
    split; [|split; [|split; [|split; [|split; [|split; [|split; [|split]]]]]]].
    + intros x Hx. rewrite Ha.
      * rewrite deps_turn, decide_False; [done|].
        intros Heq. apply (Hx e); [rewrite elem_of_cons; auto|done].
      * intros e' He'. apply Hx. rewrite elem_of_cons. auto.
    + intros e' [->|He']%elem_of_cons; [|by apply Hb].
      apply Hc. by apply Hnow.
    + intros x Hx. apply Hc. rewrite deps_turn. case_decide as Heq.
      * apply set_contains_add_same.
      * done.
    + intros Z x Hne Hx. apply Hd in Hx; [|done].
      rewrite deps_turn in Hx. case_decide as Heq; [|done].
      apply set_contains_add_other in Hx; [|done].
      apply set_contains_remove_other in Hx.
      unfold deps, getSets in *. by rewrite Heq.
    + intros Hne e' He'.
      destruct (set_contains toString (deps (fold_left turn L (turn h e)) e') O)
        eqn:Hcont; [|done].
      apply elem_of_cons in He' as [->|He']; [|by rewrite He in Hcont].
      apply Hd in Hcont; [|done].
      rewrite deps_turn, decide_True in Hcont by done.
      apply set_contains_add_other in Hcont; [|done].
      by rewrite set_contains_set_remove in Hcont.
    + intros y Hy. rewrite Hf by done. rewrite invDeps_turn.
      by rewrite decide_False.
    + intros z Hz. apply Hg. rewrite invDeps_turn, decide_True by done.
      by apply set_contains_add_mono.
    + intros e' [->|He']%elem_of_cons; [|by apply Hh].
      apply Hg. rewrite invDeps_turn, decide_True by done.
      apply set_contains_add_same.
    + intros z Hz. apply Hi in Hz as [Hz|Hz].
      * rewrite invDeps_turn, decide_True in Hz by done.
        apply elem_of_set_add in Hz as [Hz|[-> _]]; [auto|].
        right. rewrite elem_of_cons. auto.
      * right. rewrite elem_of_cons. auto.
Qed.

(** The merged instruction itself in a dependency set: [add] puts it
    there unless the set holds an instruction of its key. *)
Lemma deps_same_iid h e x : iid x = iid e → deps h e = deps h x.
Proof. intros Hx. unfold deps, getSets. by rewrite Hx. Qed.

Lemma deps_turn_member h e x :
  iid x = iid e →
  set_contains toString (deps h x) M = false ∨ M ∈ deps h x →
  M ∈ deps (turn h e) x.
Proof.
  intros Hx HQ. rewrite deps_turn, decide_True by done.
  rewrite (deps_same_iid h e x Hx). apply elem_of_set_add.
  destruct (set_contains toString (set_remove toString (deps h x) O) M) eqn:Hc;
    [left|by right].
  destruct HQ as [HQ|HQ].
  - apply set_contains_remove_other in Hc. congruence.
  - apply elem_of_set_remove. split; [done|]. intros Hk.
    apply set_contains_true in Hc as (y & [Hy Hne]%elem_of_set_remove & Hky).
    congruence.
Qed.

Lemma deps_turn_kept h e x :
  toString M ≠ toString O →
  set_contains toString (deps h x) M = true →
  set_contains toString (deps (turn h e) x) M = true ∧
  ∀ z, z ∈ deps (turn h e) x → z ∈ deps h x.
Proof.
  intros Hne Hc. rewrite deps_turn. case_decide as Hx; [|done].
  rewrite (deps_same_iid h e x Hx).
  assert (set_contains toString (set_remove toString (deps h x) O) M = true)
    as Hc'.
  { apply set_contains_true in Hc as (y & Hy & Hk).
    apply set_contains_true. exists y. split; [|done].
    apply elem_of_set_remove. split; [done|congruence]. }
  unfold set_add. rewrite Hc'. split; [done|].
  by intros z [Hz _]%elem_of_set_remove.
Qed.

Lemma transfer_member L h :
  let h' := fold_left turn L h in
  (∀ x, M ∈ deps h x → M ∈ deps h' x) ∧
  (∀ x, set_contains toString (deps h x) M = false ∨ M ∈ deps h x →
        set_contains toString (deps h' x) M = false ∨ M ∈ deps h' x) ∧
  (∀ e, e ∈ L →
        set_contains toString (deps h e) M = false ∨ M ∈ deps h e →
        M ∈ deps h' e) ∧
  (toString M ≠ toString O →
   ∀ x, set_contains toString (deps h x) M = true →
        ∀ z, z ∈ deps h' x → z ∈ deps h x).
Proof.
  revert h. induction L as [|e L IH]; intros h; cbn [fold_left].
  - cbv zeta. repeat split; try done. by intros e ?%elem_of_nil.
  - specialize (IH (turn h e)). cbv zeta in IH |- *.
    destruct IH as (Ha & Hb & Hc & Hd).
    assert (∀ x, M ∈ deps h x → M ∈ deps (turn h e) x) as Hone.
    { intros x Hx. destruct (decide (iid x = iid e)) as [Heq|Hne].
      - apply deps_turn_member; auto.
      - by rewrite deps_turn, decide_False. }
    assert (∀ x, set_contains toString (deps h x) M = false ∨ M ∈ deps h x →
              set_contains toString (deps (turn h e) x) M = false
              ∨ M ∈ deps (turn h e) x) as Hq.
    { intros x Hx. destruct (decide (iid x = iid e)) as [Heq|Hne].
      - right. by apply deps_turn_member.
      - by rewrite deps_turn, decide_False. }
    split; [|split; [|split]].
    + intros x Hx. by apply Ha, Hone.
    + intros x Hx. by apply Hb, Hq.
    + intros e' [->|He']%elem_of_cons HQ.
      * by apply Ha, deps_turn_member.
      * by apply Hc, Hq.
    + intros Hne x Hx z Hz.
      destruct (deps_turn_kept h e x Hne Hx) as [Hx' Hsub].
      by apply Hsub, (Hd Hne x Hx').
Qed.

End TransferDependencies.

Lemma createMergedInstruction_unfold m hp first second mergedTask :
  InstructionMerger.createMergedInstruction m hp first second mergedTask =
    let merged := Build_TaskInstruction (fresh hp) mergedTask in
    let h1 := cells (newTaskInstruction hp mergedTask).2 in
    let h2 := InstructionMerger.transferDependencies merged first h1 in
    let h3 := InstructionMerger.transferDependencies merged second h2 in
    (merged,
     InstructionMerger.introduceInstruction
       (InstructionMerger.completeInstruction
          (InstructionMerger.completeInstruction m first) second) merged,
     Build_Heap h3 (S (fresh hp))).
Proof. reflexivity. Qed.

Lemma introduceInto_member rs sets i s' :
  s' ∈ InstructionMerger.introduceInto rs sets i →
  ∃ s, s ∈ sets ∧ (s' = s ∨ s' = set_add TaskInstruction.toString s i).
Proof.
  revert sets. induction rs as [|r rs IH]; intros [|s sets]; simpl.
  1-3: intros Hs; exists s'; auto.
  rewrite elem_of_cons. intros [->|Hs].
  - exists s. rewrite elem_of_cons. destruct (isOfInterest r (task i)); auto.
  - destruct (IH sets Hs) as (s0 & Hs0 & Heq). exists s0.
    rewrite elem_of_cons. auto.
Qed.

(** X16.  What [createMergedInstruction] does.  For instructions [first]
    and [second] of the graph and a merged task whose index is neither
    theirs: the merged instruction is new.  Every instruction that waited
    for [first] or for [second] has afterwards, in its dependency set, an
    instruction of the key of the merged one ([contains]): the merged
    instruction itself when the set held no instruction of that key, and
    otherwise the set has gained no instruction ([add] does nothing on a
    key it holds).  The inverted dependency set of the merged instruction
    [contains] each of these dependents and holds no other instruction; it
    holds each dependent itself when the dependents have different keys.
    None of the dependents has [first], respectively [second], in its
    dependency set any more; the dependency set of the merged instruction
    is empty (the dependencies of [first] and [second] are not taken
    over); the other dependency sets and all the inverted dependency sets
    of the instructions there were, those of [first] and [second] too, are
    as before; and no interest set [contains] [first] or [second]. *)
Theorem createMergedInstruction_rewires_dependents
    (m : InstructionMerger.t) (hp : Heap) (first second : TaskInstruction)
    (mergedTask : ModelTask) :
  iid first ≠ fresh hp → iid second ≠ fresh hp →
  Forall (λ e, iid e ≠ fresh hp)
         (TaskInstruction.invDeps (cells hp) first
          ++ TaskInstruction.invDeps (cells hp) second) →
  index mergedTask ≠ index (task first) →
  index mergedTask ≠ index (task second) →
  let result :=
    InstructionMerger.createMergedInstruction m hp first second mergedTask in
  let merged := result.1.1 in
  let h' := cells result.2 in
  let dependents := TaskInstruction.invDeps (cells hp) first
                    ++ TaskInstruction.invDeps (cells hp) second in
  merged = Build_TaskInstruction (fresh hp) mergedTask ∧
  (∀ e, e ∈ dependents →
     set_contains TaskInstruction.toString (TaskInstruction.deps h' e) merged
       = true ∧
     set_contains TaskInstruction.toString (TaskInstruction.invDeps h' merged) e
       = true) ∧
  (∀ e, e ∈ dependents →
     set_contains TaskInstruction.toString
       (TaskInstruction.deps (cells hp) e) merged = false →
     merged ∈ TaskInstruction.deps h' e) ∧
  (∀ e, e ∈ dependents →
     set_contains TaskInstruction.toString
       (TaskInstruction.deps (cells hp) e) merged = true →
     ∀ z, z ∈ TaskInstruction.deps h' e →
          z ∈ TaskInstruction.deps (cells hp) e) ∧
  (∀ z, z ∈ TaskInstruction.invDeps h' merged → z ∈ dependents) ∧
  ((∀ e e', e ∈ dependents → e' ∈ dependents →
            TaskInstruction.toString e = TaskInstruction.toString e' → e = e') →
   ∀ e, e ∈ dependents → e ∈ TaskInstruction.invDeps h' merged) ∧
  (∀ e, e ∈ TaskInstruction.invDeps (cells hp) first →
     set_contains TaskInstruction.toString (TaskInstruction.deps h' e) first
       = false) ∧
  (∀ e, e ∈ TaskInstruction.invDeps (cells hp) second →
     set_contains TaskInstruction.toString (TaskInstruction.deps h' e) second
       = false) ∧
  TaskInstruction.deps h' merged = [] ∧
  (∀ y, iid y ≠ fresh hp →
     TaskInstruction.invDeps h' y = TaskInstruction.invDeps (cells hp) y) ∧
  (∀ x, iid x ≠ fresh hp → (∀ e, e ∈ dependents → iid e ≠ iid x) →
     TaskInstruction.deps h' x = TaskInstruction.deps (cells hp) x) ∧
  Forall (λ s, set_contains TaskInstruction.toString s first = false ∧
               set_contains TaskInstruction.toString s second = false)
         (InstructionMerger.interestSets result.1.2).
Proof.
  intros Hf Hs Hfresh Hkf Hks result merged h' dependents.
  unfold result in *. clear result.
  rewrite createMergedInstruction_unfold in *. cbv zeta in *.
  cbn [fst snd cells] in *.
  set (M := Build_TaskInstruction (fresh hp) mergedTask) in *.
  set (h1 := cells (newTaskInstruction hp mergedTask).2) in *.
  assert (∀ x, iid x ≠ fresh hp →
            TaskInstruction.deps h1 x = TaskInstruction.deps (cells hp) x)
    as Hd1.
  { intros x Hx. unfold h1. rewrite TaskInstructionFacts.deps_new.
    by rewrite decide_False. }
  assert (∀ x, iid x ≠ fresh hp →
            TaskInstruction.invDeps h1 x = TaskInstruction.invDeps (cells hp) x)
    as Hi1.
  { intros x Hx. unfold h1. rewrite TaskInstructionFacts.invDeps_new.
    by rewrite decide_False. }
  assert (TaskInstruction.deps h1 M = [] ∧ TaskInstruction.invDeps h1 M = [])
    as [HdM HiM].
  { unfold h1. rewrite TaskInstructionFacts.deps_new,
      TaskInstructionFacts.invDeps_new. by rewrite !decide_True. }
  set (LF := TaskInstruction.invDeps (cells hp) first) in *.
  set (LS := TaskInstruction.invDeps (cells hp) second) in *.
  apply Forall_app in Hfresh as [HfreshF HfreshS].
  rewrite Forall_forall in HfreshF, HfreshS.
  set (h2 := InstructionMerger.transferDependencies M first h1) in *.
  assert (h2 = fold_left
                 (λ h element,
                    let h1 := TaskInstruction.setDeps h element
                                (set_remove TaskInstruction.toString
                                   (TaskInstruction.deps h element) first) in
                    let h2 := TaskInstruction.setDeps h1 element
                                (set_add TaskInstruction.toString
                                   (TaskInstruction.deps h1 element) M) in
                    TaskInstruction.setInvDeps h2 M
                      (set_add TaskInstruction.toString
                         (TaskInstruction.invDeps h2 M) element)) LF h1) as Hh2.
  { unfold h2, InstructionMerger.transferDependencies. by rewrite (Hi1 first). }
  destruct (transfer_spec M first LF h1)
    as (Ha1 & Hb1 & Hc1 & Hd1' & He1 & Hf1 & Hg1 & Hh1 & Hi1').
  destruct (transfer_member M first LF h1) as (Hm1 & Hq1 & Hn1 & Hk1).
  cbv zeta in *. rewrite <- Hh2 in *.
  assert (TaskInstruction.invDeps h2 second = LS) as HLS.
  { rewrite Hf1 by done. by apply Hi1. }
  set (h3 := InstructionMerger.transferDependencies M second h2) in *.
  assert (h3 = fold_left
                 (λ h element,
                    let h1 := TaskInstruction.setDeps h element
                                (set_remove TaskInstruction.toString
                                   (TaskInstruction.deps h element) second) in
                    let h2 := TaskInstruction.setDeps h1 element
                                (set_add TaskInstruction.toString
                                   (TaskInstruction.deps h1 element) M) in
                    TaskInstruction.setInvDeps h2 M
                      (set_add TaskInstruction.toString
                         (TaskInstruction.invDeps h2 M) element)) LS h2) as Hh3.
  { unfold h3, InstructionMerger.transferDependencies. by rewrite HLS. }
  destruct (transfer_spec M second LS h2)
    as (Ha2 & Hb2 & Hc2 & Hd2 & He2 & Hf2 & Hg2 & Hh2' & Hi2).
  destruct (transfer_member M second LS h2) as (Hm2 & Hq2 & Hn2 & Hk2).
  cbv zeta in *. rewrite <- Hh3 in *.
  assert (TaskInstruction.toString M ≠ TaskInstruction.toString first) as HkF
    by done.
  assert (TaskInstruction.toString M ≠ TaskInstruction.toString second) as HkS
    by done.
  assert (∀ e, e ∈ LF ++ LS →
            set_contains TaskInstruction.toString
              (TaskInstruction.deps h3 e) M = true ∧
            set_contains TaskInstruction.toString
              (TaskInstruction.invDeps h3 M) e = true) as Hkeys.
  { intros e [He|He]%elem_of_app.
    - split; [by apply Hc2, Hb1|by apply Hg2, Hh1].
    - split; [by apply Hb2|by apply Hh2']. }
  assert (∀ z, z ∈ TaskInstruction.invDeps h3 M → z ∈ LF ++ LS) as Honly.
  { intros z Hz. rewrite elem_of_app. apply Hi2 in Hz as [Hz|Hz]; [|auto].
    apply Hi1' in Hz as [Hz|Hz]; [|auto].
    rewrite HiM in Hz. by apply elem_of_nil in Hz. }
  split; [done|]. unfold dependents.
  split; [done|].
  split; [|split; [|split; [done|split]]].
  { intros e He Hc.
    assert (iid e ≠ fresh hp) as Hne.
    { apply elem_of_app in He as [He|He]; [by apply HfreshF|by apply HfreshS]. }
    rewrite <- (Hd1 e Hne) in Hc.
    apply elem_of_app in He as [He|He].
    - apply Hm2, Hn1; auto.
    - apply Hn2; [done|]. apply Hq1. auto. }
  { intros e He Hc z Hz.
    assert (iid e ≠ fresh hp) as Hne.
    { apply elem_of_app in He as [He|He]; [by apply HfreshF|by apply HfreshS]. }
    rewrite <- (Hd1 e Hne) in Hc |- *.
    apply (Hk1 HkF e Hc). apply (Hk2 HkS e); [by apply Hc1|done]. }
  { intros Hinj e He.
    destruct (Hkeys e He) as [_ Hc].
    apply set_contains_true in Hc as (z & Hz & Hk).
    by rewrite <- (Hinj z e (Honly z Hz) He Hk). }
  split; [|split; [|split; [|split; [|split]]]].
  - intros e He.
    destruct (set_contains TaskInstruction.toString
                (TaskInstruction.deps h3 e) first) eqn:Hc; [|done].
    apply Hd2 in Hc; [|done]. by rewrite He1 in Hc.
  - intros e He. by apply He2.
  - rewrite Ha2, Ha1; [done| |].
    + intros e He. by apply HfreshF.
    + intros e He. by apply HfreshS.
  - intros y Hy. rewrite Hf2, Hf1 by done. by apply Hi1.
  - intros x Hx Hall. rewrite Ha2, Ha1.
    + by apply Hd1.
    + intros e He. apply Hall. rewrite elem_of_app. auto.
    + intros e He. apply Hall. rewrite elem_of_app. auto.
  - apply Forall_forall. intros s' Hs'. simpl in Hs'.
    apply introduceInto_member in Hs' as (s & Hs0 & Heq).
    apply list_elem_of_In, in_map_iff in Hs0 as (s1 & <- & Hs1).
    apply in_map_iff in Hs1 as (s0 & <- & _).
    assert (set_contains TaskInstruction.toString
              (set_remove TaskInstruction.toString
                 (set_remove TaskInstruction.toString s0 first) second) first
            = false) as HnF.
    { destruct (set_contains _ _ first) eqn:Hc; [|done].
      apply set_contains_remove_other in Hc.
      by rewrite set_contains_set_remove in Hc. }
    pose proof (set_contains_set_remove
                  (set_remove TaskInstruction.toString s0 first) second) as HnS.
    destruct Heq as [->| ->]; [done|]. split.
    + destruct (set_contains _ (set_add _ _ M) first) eqn:Hc; [|done].
      apply set_contains_add_other in Hc; [|done]. congruence.
    + destruct (set_contains _ (set_add _ _ M) second) eqn:Hc; [|done].
      apply set_contains_add_other in Hc; [|done]. congruence.
Qed.

Lemma createMergedInstruction_rewires_dependents_witness :
  let tA := mkTask 0 [] [7%nat] 0 in
  let tB := mkTask 1 [7%nat] [8%nat] 0 in
  let tC := mkTask 2 [7%nat; 8%nat] [] 0 in
  let tAB := mkTask 5 [] [7%nat; 8%nat] 0 in
  let q := ModelTaskQueue.enqueue
             (ModelTaskQueue.enqueue
                (ModelTaskQueue.enqueue ModelTaskQueue.new tA) tB) tC in
  let A := Build_TaskInstruction 0 tA in
  let B := Build_TaskInstruction 1 tB in
  let C := Build_TaskInstruction 2 tC in
  let result :=
    InstructionMerger.createMergedInstruction
      (ModelTaskQueue.merger q) (ModelTaskQueue.heap q) A B tAB in
  TaskInstruction.invDeps (cells (ModelTaskQueue.heap q)) A = [B; C] ∧
  TaskInstruction.invDeps (cells (ModelTaskQueue.heap q)) B = [C] ∧
  result.1.1 = Build_TaskInstruction 3 tAB ∧
  TaskInstruction.invDeps (cells result.2) result.1.1 = [B; C] ∧
  TaskInstruction.deps (cells result.2) C = [result.1.1] ∧
  TaskInstruction.deps (cells result.2) result.1.1 = [] ∧
  (∀ e, e ∈ TaskInstruction.invDeps (cells (ModelTaskQueue.heap q)) A →
     set_contains TaskInstruction.toString
       (TaskInstruction.deps (cells result.2) e) A = false) ∧
  result.1.1 ∈ TaskInstruction.deps (cells result.2) C ∧
  C ∈ TaskInstruction.invDeps (cells result.2) result.1.1.
Proof.
  intros tA tB tC tAB q A B C result.
  split; [reflexivity|]. split; [reflexivity|].
  split; [reflexivity|]. split; [vm_compute; reflexivity|].
  split; [vm_compute; reflexivity|].
  destruct (createMergedInstruction_rewires_dependents
              (ModelTaskQueue.merger q) (ModelTaskQueue.heap q) A B tAB)
    as (_ & _ & Hin & _ & _ & Hinv & HnoA & _ & Hdeps & _).
  - vm_compute. lia.
  - vm_compute. lia.
  - repeat constructor; vm_compute; lia.
  - vm_compute. lia.
  - vm_compute. lia.
  - split; [exact Hdeps|]. split; [exact HnoA|]. split.
    + apply (Hin C); [compute_done|vm_compute; reflexivity].
    + apply Hinv; [|compute_done].
      intros e e' He%list_elem_of_In He'%list_elem_of_In Hk.
      vm_compute in He, He'.
      destruct He as [<-|[<-|[<-|[]]]]; destruct He' as [<-|[<-|[<-|[]]]];
        done.
Defined.

(** Where the merged task has the index of an instruction that a
    dependent already waits for, the dependent does not get the merged
    instruction: after [tF] (index 0, writes 7), [tZ] (index 5, writes 9)
    and [tE] (index 2, reads 7 and 9) are enqueued, the instruction [E] of
    [tE] waits for those of [tF] and [tZ]; when the instructions of [tF]
    and [tE] are merged into a task of index 5, [E] is left waiting for
    the instruction of [tZ] alone, and is in the inverted dependency set
    of the merged instruction. *)
Lemma createMergedInstruction_same_index :
  let tF := mkTask 0 [] [7%nat] 0 in
  let tZ := mkTask 5 [] [9%nat] 0 in
  let tE := mkTask 2 [7%nat; 9%nat] [] 0 in
  let t5 := mkTask 5 [] [7%nat] 0 in
  let q := ModelTaskQueue.enqueue
             (ModelTaskQueue.enqueue
                (ModelTaskQueue.enqueue ModelTaskQueue.new tF) tZ) tE in
  let F := Build_TaskInstruction 0 tF in
  let Z := Build_TaskInstruction 1 tZ in
  let E := Build_TaskInstruction 2 tE in
  let result :=
    InstructionMerger.createMergedInstruction
      (ModelTaskQueue.merger q) (ModelTaskQueue.heap q) F E t5 in
  TaskInstruction.deps (cells (ModelTaskQueue.heap q)) E = [F; Z] ∧
  TaskInstruction.invDeps (cells (ModelTaskQueue.heap q)) F = [E] ∧
  result.1.1 = Build_TaskInstruction 3 t5 ∧
  TaskInstruction.deps (cells result.2) E = [Z] ∧
  TaskInstruction.invDeps (cells result.2) result.1.1 = [E].
Proof. repeat split; vm_compute; reflexivity. Qed.


(** ** When an enqueued task is eligible *)

(** X17.  A task is eligible as soon as it is enqueued exactly when no
    component it reads has a latest writer: in a world a trace reaches
    (the index of a task identifying it), after [enqueue] of task [t] the
    new instruction is in the priority-partitioned queue if and only if
    the latest-writer map had no entry for any component of the read set
    of [t]; otherwise it waits, with a dependency set that is not
    empty. *)
Theorem enqueued_task_is_eligible_iff_no_pending_writer (fuel : nat)
    (ops : list Op) (t : ModelTask) (w : World) :
  run fuel initialWorld ops = Some w →
  indexedTasks (ops ++ [Enqueue t]) →
  let n := Build_TaskInstruction (fresh (ModelTaskQueue.heap (queue w))) t in
  let q' := ModelTaskQueue.enqueue (queue w) t in
  (n ∈ PriorityPartitionedQueue.elements (ModelTaskQueue.eligibleInstructions q')
   ↔ Forall (λ c, ModelTaskQueue.latestComponentStateMap (queue w) !! c = None)
            (readSet (metadata t))) ∧
  (TaskInstruction.deps (cells (ModelTaskQueue.heap q')) n = []
   ↔ Forall (λ c, ModelTaskQueue.latestComponentStateMap (queue w) !! c = None)
            (readSet (metadata t))).
Proof.
  intros Hrun Hi n q'.
  pose proof (CoherenceFacts.coh_reachable fuel ops w Hrun
                (indexedTasks_app_l _ _ Hi)) as Hcoh.
  assert (run fuel initialWorld (ops ++ [Enqueue t])
          = Some (Build_World q' (created w ++ [n]) (returned w))) as Hrun'.
  { apply run_snoc. by exists w. }
  pose proof (CoherenceFacts.coh_reachable fuel _ _ Hrun' Hi) as Hcoh'.
  assert (TaskInstruction.deps (cells (ModelTaskQueue.heap q')) n = []
          ↔ Forall (λ c, ModelTaskQueue.latestComponentStateMap (queue w) !! c
                         = None) (readSet (metadata t))) as Hdeps.
  { rewrite Forall_forall. split.
    - intros Hnil c Hc.
      destruct (ModelTaskQueue.latestComponentStateMap (queue w) !! c)
        as [d|] eqn:Hl; [|done].
      pose proof (CoherenceFacts.coh_enqueue_new_deps w t Hcoh c d Hc Hl) as Hd.
      fold n q' in Hd. rewrite Hnil in Hd. by apply elem_of_nil in Hd.
    - intros Hall.
      destruct (TaskInstruction.deps (cells (ModelTaskQueue.heap q')) n)
        as [|y l] eqn:E; [done|].
      destruct (CoherenceFacts.coh_enqueue_new_deps_latest w t Hcoh y)
        as (c & Hc & Hl).
      { fold n q'. rewrite E, elem_of_cons. auto. }
      by rewrite (Hall c Hc) in Hl. }
  split; [|done]. rewrite <- Hdeps, elem_of_elements. split.
  - intros [p Hp]. by apply (coh_ppq _ Hcoh') in Hp as (_ & _ & ? & _).
  - intros Hnil. exists (TaskInstruction.getPriority n).
    apply (coh_ppq _ Hcoh'). cbn [queue created returned].
    split; [rewrite elem_of_app, list_elem_of_singleton; auto|].
    split; [apply (CoherenceFacts.coh_new_not_in_returned w t Hcoh)|done].
Qed.

Lemma enqueued_task_is_eligible_iff_no_pending_writer_witness :
  let tA := mkTask 0 [] [7%nat] 0 in
  let tB := mkTask 1 [7%nat] [] 5 in
  let tC := mkTask 2 [7%nat] [] 5 in
  ∃ w,
    run 8 initialWorld [Enqueue tA; Enqueue tB; Dequeue] = Some w ∧
    task <$> returned w = [tA] ∧
    let n := Build_TaskInstruction (fresh (ModelTaskQueue.heap (queue w))) tC in
    let q' := ModelTaskQueue.enqueue (queue w) tC in
    n ∈ PriorityPartitionedQueue.elements
          (ModelTaskQueue.eligibleInstructions q') ∧
    (n ∈ PriorityPartitionedQueue.elements
           (ModelTaskQueue.eligibleInstructions q')
     ↔ Forall (λ c, ModelTaskQueue.latestComponentStateMap (queue w) !! c = None)
              (readSet (metadata tC))).
Proof.
  intros tA tB tC. eexists. split; [vm_compute; reflexivity|].
  split; [vm_compute; reflexivity|]. intros n q'.
  split; [compute_done|].
  apply (enqueued_task_is_eligible_iff_no_pending_writer 8
           [Enqueue tA; Enqueue tB; Dequeue] tC).
  - vm_compute. reflexivity.
  - compute_done.
Defined.
